(** * Twitter-redis: the Redis-backed timeline engine of [twitter_api.py]

    A shallow embedding of [TwitterRedisAPI] (and of the range-probe sampler
    of [TwitterMySQLAPI]) and of the script [load_follows.py], together with
    the part of Redis and of Python's string handling that the code relies
    on.

    Modelling conventions.
    - Python [str] values are [string]s; a character stands for a code point
      below 256.  [int] skips its own white space around a literal, which is
      not the white space of [str.strip].  The limit that CPython puts on
      the digits of a literal that [int] converts is not in the embedding of
      [int]: the statements about text that comes from outside the program
      (the lines of a file, the members of a set) say that it is within the
      limit, see [within_digit_limit].
    - Python [int] is [Z].  Scores of sorted sets are millisecond time stamps,
      far below 2^53, so the doubles Redis stores them in are exact: [Z].
    - The Redis keyspace is split by value type (strings holding integers,
      hashes, sets, sorted sets).  The keys the program builds are pairwise
      distinct across the families (see [keys_disjoint]), so no key is ever
      used at two types.
    - The wall clock read by [_now_ts], the order in which [SSCAN] yields a
      set and the random choices of [SRANDMEMBER] and [random.randint] are
      inputs of the model. *)

From Stdlib Require Import ZArith Ascii String List Decimal DecimalString DecimalZ DecimalPos.
From stdpp Require Import base tactics option list sorting gmap strings fin_maps fin_sets.

Local Open Scope string_scope.
Local Open Scope list_scope.
Local Open Scope Z_scope.

(** ** Python primitives *)

Module Py.

(** Code points below 256 for which [str.isspace] holds. *)
Definition isspace (c : ascii) : bool :=
  let n := N_of_ascii c in
  ((9 <=? n) && (n <=? 13) || (28 <=? n) && (n <=? 32)
   || (n =? 133) || (n =? 160))%N.

Fixpoint lstrip (s : string) : string :=
  match s with
  | String c r => if isspace c then lstrip r else s
  | EmptyString => EmptyString
  end.

Fixpoint rstrip (s : string) : string :=
  match s with
  | EmptyString => EmptyString
  | String c r =>
      match rstrip r with
      | EmptyString => if isspace c then EmptyString else String c EmptyString
      | r' => String c r'
      end
  end.

(** [s.strip()] *)
Definition strip (s : string) : string := rstrip (lstrip s).

(** [s.split(",", 1)]: [None] when [s] holds no comma (the result then has a
    single element), otherwise the text before and after the first comma. *)
Fixpoint split_comma (s : string) : option (string * string) :=
  match s with
  | EmptyString => None
  | String c r =>
      if Ascii.eqb c "," then Some (EmptyString, r)
      else match split_comma r with
           | Some (a, b) => Some (String c a, b)
           | None => None
           end
  end.

(** Underscores of an integer literal: single, and only between digits.
    [prev] tells whether the previous character was not an underscore. *)
Fixpoint digits_of_literal (prev : bool) (s : string) : option string :=
  match s with
  | EmptyString => if prev then Some EmptyString else None
  | String c r =>
      if Ascii.eqb c "_"
      then (if prev then digits_of_literal false r else None)
      else String c <$> digits_of_literal true r
  end.

Definition parse_digits (s : string) : option Z :=
  d ← digits_of_literal false s;
  u ← NilZero.uint_of_string d;
  Some (Z.of_uint u).

(** The white space that [int] skips around a literal, among the code
    points below 256: tab to carriage return, the space, NEL and the
    no-break space.  The separators 28 to 31, white space to [str.isspace]
    and [str.strip], are not white space to [int]. *)
Definition int_isspace (c : ascii) : bool :=
  let n := N_of_ascii c in
  ((9 <=? n) && (n <=? 13) || (n =? 32) || (n =? 133) || (n =? 160))%N.

Fixpoint int_lstrip (s : string) : string :=
  match s with
  | String c r => if int_isspace c then int_lstrip r else s
  | EmptyString => EmptyString
  end.

Fixpoint int_rstrip (s : string) : string :=
  match s with
  | EmptyString => EmptyString
  | String c r =>
      match int_rstrip r with
      | EmptyString => if int_isspace c then EmptyString else String c EmptyString
      | r' => String c r'
      end
  end.

(** [int(s)] in base 10; [None] stands for [ValueError].  The limit on the
    number of digits is left to the statements, see [within_digit_limit]. *)
Definition int (s : string) : option Z :=
  match int_rstrip (int_lstrip s) with
  | EmptyString => None
  | String c d =>
      if Ascii.eqb c "+" then parse_digits d
      else if Ascii.eqb c "-" then Z.opp <$> parse_digits d
      else parse_digits (String c d)
  end.

(** [s.split(",")], every field of the record. *)
Fixpoint split_all (s : string) : list string :=
  match s with
  | EmptyString => [EmptyString]
  | String c r =>
      if Ascii.eqb c "," then EmptyString :: split_all r
      else match split_all r with
           | f :: fs => String c f :: fs
           | [] => [String c EmptyString]
           end
  end.

(** [str(n)] *)
Definition str (n : Z) : string := NilZero.string_of_int (Z.to_int n).

End Py.

(** ** The Redis data model *)

Module Redis.

(** The keyspace, by value type.  A missing key and an empty aggregate are
    the same thing to every command, as in Redis. *)
Record db : Type := Db {
  counters : gmap string Z;
  hashes : gmap string (gmap string string);
  sets : gmap string (gset string);
  zsets : gmap string (gmap string Z);
}.

Definition empty : db := Db ∅ ∅ ∅ ∅.

Definition hash_at (r : db) (key : string) : gmap string string :=
  default ∅ (hashes r !! key).
Definition set_at (r : db) (key : string) : gset string :=
  default ∅ (sets r !! key).
Definition zset_at (r : db) (key : string) : gmap string Z :=
  default ∅ (zsets r !! key).

(** Redis removes a key whose aggregate value became empty. *)
Definition put `{Empty V, EqDecision V} (key : string) (v : V)
    (m : gmap string V) : gmap string V :=
  if decide (v = ∅) then delete key m else <[key := v]> m.

(** Sorted sets order their entries by score, ties by member (bytewise). *)
Definition zle (a b : string * Z) : Prop :=
  a.2 < b.2 ∨ (a.2 = b.2 ∧ String.le a.1 b.1).

Global Instance zle_dec : RelDecision zle.
Proof. intros a b. unfold zle. apply _. Defined.

(** Entries by ascending rank: rank 0 is the lowest score. *)
Definition zrange_all (z : gmap string Z) : list (string * Z) :=
  merge_sort zle (map_to_list z).

(** Index sanitisation shared by the rank commands: the inclusive range of
    ranks addressed by [start] and [stop] in a collection of [len] entries,
    negative indices counting from the end; [None] when it is empty. *)
Definition rank_range (len start stop : Z) : option (Z * Z) :=
  let start := if (start <? 0)%Z then len + start else start in
  let stop := if (stop <? 0)%Z then len + stop else stop in
  let start := if (start <? 0)%Z then 0 else start in
  if ((stop <? start) || (len <=? start))%Z then None
  else Some (start, if (len <=? stop)%Z then len - 1 else stop).

Definition slice {A} (l : list A) (start stop : Z) : list A :=
  match rank_range (Z.of_nat (length l)) start stop with
  | None => []
  | Some (a, b) => take (Z.to_nat (b - a + 1)) (drop (Z.to_nat a) l)
  end.

Definition unslice {A} (l : list A) (start stop : Z) : list A :=
  match rank_range (Z.of_nat (length l)) start stop with
  | None => l
  | Some (a, b) => take (Z.to_nat a) l ++ drop (Z.to_nat (b + 1)) l
  end.

(** [ZREMRANGEBYRANK] on the value. *)
Definition zremrangebyrank_val (z : gmap string Z) (start stop : Z)
    : gmap string Z :=
  list_to_map (unslice (zrange_all z) start stop).

(** [ZREVRANGE key start stop]: members by descending rank. *)
Definition zrevrange (r : db) (key : string) (start stop : Z) : list string :=
  (slice (reverse (zrange_all (zset_at r key))) start stop).*1.

Definition int64_max : Z := 9223372036854775807.

(** [INCR key]: [None] is the overflow error; the value is then unchanged. *)
Definition incr (key : string) (r : db) : option (Z * db) :=
  let v := default 0 (counters r !! key) in
  if (v <? int64_max)%Z
  then Some (v + 1, Db (<[key := v + 1]> (counters r)) (hashes r) (sets r) (zsets r))
  else None.

(** [SRANDMEMBER key]; [pick] is the random choice. *)
Definition srandmember (pick : nat) (r : db) (key : string) : option string :=
  let l := elements (set_at r key) in
  l !! (pick `mod` length l)%nat.

(** Commands that the program queues in pipelines, and their replies. *)
Inductive command : Type :=
  | HSET (key : string) (mapping : list (string * string))
  | ZADD (key : string) (member : string) (score : Z)
  | ZREMRANGEBYRANK (key : string) (start stop : Z)
  | SADD (key : string) (member : string)
  | HGETALL (key : string).

Inductive reply : Type :=
  | Int (n : Z)
  | Dict (h : gmap string string).

Definition count_new {V} (m : gmap string V) (keys : list string) : Z :=
  Z.of_nat (length (filter (λ k, m !! k = None) (remove_dups keys))).

Definition exec (c : command) (r : db) : db * reply :=
  match c with
  | HSET key mapping =>
      let h := hash_at r key in
      (Db (counters r) (put key (list_to_map mapping ∪ h) (hashes r)) (sets r) (zsets r),
       Int (count_new h mapping.*1))
  | ZADD key member score =>
      let z := zset_at r key in
      (Db (counters r) (hashes r) (sets r) (<[key := <[member := score]> z]> (zsets r)),
       Int (match z !! member with Some _ => 0 | None => 1 end))
  | ZREMRANGEBYRANK key start stop =>
      let z := zset_at r key in
      let z' := zremrangebyrank_val z start stop in
      (Db (counters r) (hashes r) (sets r) (put key z' (zsets r)),
       Int (Z.of_nat (size z) - Z.of_nat (size z')))
  | SADD key member =>
      let s := set_at r key in
      (Db (counters r) (hashes r) (<[key := {[member]} ∪ s]> (sets r)) (zsets r),
       Int (if decide (member ∈ s) then 0 else 1))
  | HGETALL key => (r, Dict (hash_at r key))
  end.

(** [pipe.execute()] of a non-transactional pipeline: the queued commands
    run in order, one reply each. *)
Fixpoint execute (pipe : list command) (r : db) : db * list reply :=
  match pipe with
  | [] => (r, [])
  | c :: pipe =>
      let '(r1, x) := exec c r in
      let '(r2, xs) := execute pipe r1 in
      (r2, x :: xs)
  end.

End Redis.

(** ** The API *)

Inductive exn : Type := ValueError | TypeError | AttributeError | ResponseError.

Inductive outcome (A : Type) : Type :=
  | Return (a : A)
  | Raise (e : exn).
Arguments Return {A} a.
Arguments Raise {A} e.

Record Tweet : Type := mkTweet {
  tweet_id : Z;
  user_id : Z;
  tweet_ts : string;
  tweet_text : string;
}.

(** What [_now_ts] reads from the wall clock. *)
Record now : Type := Now { ts_ms : Z; ts_str : string }.

Module TwitterRedisAPI.
Import Redis.

(** The fields of [self] that the methods read. *)
Record api : Type := Api { timeline_max_size : option Z }.

Definition _tweet_key (tweet_id : Z) : string := "tweet:" ++ Py.str tweet_id.
Definition _followers_key (user_id : Z) : string := "followers:" ++ Py.str user_id.
Definition _following_key (user_id : Z) : string := "following:" ++ Py.str user_id.
Definition _timeline_key (user_id : Z) : string := "timeline:" ++ Py.str user_id.

(** [results[0::3]] *)
Fixpoint every_third {A} (l : list A) : list A :=
  match l with
  | [] => []
  | x :: l1 =>
      x :: match l1 with
           | _ :: _ :: l3 => every_third l3
           | _ => []
           end
  end.

(** [sum(int(x) for x in xs)] over replies. *)
Fixpoint sum_ints (xs : list reply) : option Z :=
  match xs with
  | [] => Some 0
  | Int n :: xs => Z.add n <$> sum_ints xs
  | Dict _ :: _ => None
  end.

Section api.

(** The sequence that [sscan_iter] yields for a set.  Redis promises every
    member, in an order of its choosing, possibly more than once; the facts
    that need it assume exactly that. *)
Variable sscan_iter : gset string → list string.

Variable self : api.

(** The trim queued after each timeline write, when a cap is configured. *)
Definition trim (key : string) : list command :=
  match timeline_max_size self with
  | Some size => [ZREMRANGEBYRANK key 0 (- size - 1)]
  | None => []
  end.

(** The value of a timeline after the write that [post_tweet] queues for
    it: the [ZADD], then the trim. *)
Definition deliver (member : string) (score : Z) (z : gmap string Z)
    : gmap string Z :=
  match timeline_max_size self with
  | Some size => zremrangebyrank_val (<[member := score]> z) 0 (- size - 1)
  | None => <[member := score]> z
  end.

(** A configured cap is a size. *)
Definition cap_ok : Prop :=
  ∀ size, timeline_max_size self = Some size → 0 ≤ size.

(** One iteration of the fan-out loop; the loop state is the store, the
    open pipeline and [ops]. *)
Definition fanout_step (tweet_id ts_ms : Z) (st : db * list command * Z)
    (follower_id_str : string) : db * list command * Z :=
  let '(r, pipe, ops) := st in
  match Py.int follower_id_str with
  | None => st
  | Some follower_id =>
      let tl_key := _timeline_key follower_id in
      let pipe := pipe ++ ZADD tl_key (Py.str tweet_id) ts_ms :: trim tl_key in
      let ops := ops + 1 in
      if ops `mod` 1000 =? 0
      then ((execute pipe r).1, [], ops)
      else (r, pipe, ops)
  end.

Definition post_tweet (t : now) (user_id : Z) (tweet_text : string) (r : db)
    : outcome Z * db :=
  match incr "next_tweet_id" r with
  | None => (Raise ResponseError, r)
  | Some (tweet_id, r) =>
      let tweet_key := _tweet_key tweet_id in
      let author_tl := _timeline_key user_id in
      let followers_key := _followers_key user_id in
      let pipe :=
        HSET tweet_key [("user_id", Py.str user_id); ("tweet_ts", ts_str t);
                        ("tweet_text", tweet_text)]
        :: ZADD author_tl (Py.str tweet_id) (ts_ms t)
        :: trim author_tl in
      let r := (execute pipe r).1 in
      let '(r, pipe, ops) :=
        foldl (fanout_step tweet_id (ts_ms t)) (r, [], 0)
              (sscan_iter (set_at r followers_key)) in
      let r := if ops `mod` 1000 =? 0 then r else (execute pipe r).1 in
      (Return tweet_id, r)
  end.

(** The loop that builds [out] from [zip(tweet_ids, rows)]. *)
Fixpoint collect (rows : list (string * reply)) : outcome (list Tweet) :=
  match rows with
  | [] => Return []
  | (tid, Int _) :: _ => Raise AttributeError
  | (tid, Dict h) :: rows =>
      if decide (h = ∅) then collect rows
      else match Py.int tid, Py.int (default "0" (h !! "user_id")) with
           | Some tweet_id, Some user_id =>
               match collect rows with
               | Return out =>
                   Return (mkTweet tweet_id user_id (default "" (h !! "tweet_ts"))
                                   (default "" (h !! "tweet_text")) :: out)
               | Raise e => Raise e
               end
           | _, _ => Raise ValueError
           end
  end.

Definition get_home_timeline (user_id : Z) (r : db) : outcome (list Tweet) :=
  let tl_key := _timeline_key user_id in
  let tweet_ids := zrevrange r tl_key 0 9 in
  match tweet_ids with
  | [] => Return []
  | _ =>
      match mapM Py.int tweet_ids with
      | None => Raise ValueError
      | Some ids =>
          let rows := (execute ((λ tid, HGETALL (_tweet_key tid)) <$> ids) r).2 in
          collect (zip tweet_ids rows)
      end
  end.

Definition get_random_follower_id (pick : nat) (r : db) : outcome (option Z) :=
  match srandmember pick r "all_followers" with
  | Some v => match Py.int v with
              | Some n => Return (Some n)
              | None => Raise ValueError
              end
  | None => Return None
  end.

(** [inserted += sum(int(x) for x in results[0::3])] after [pipe.execute()]. *)
Definition flush (pipe : list command) (inserted : Z) (r : db)
    : outcome Z * db :=
  let '(r, results) := execute pipe r in
  match sum_ints (every_third results) with
  | Some n => (Return (inserted + n), r)
  | None => (Raise TypeError, r)
  end.

(** The loop over the lines of the file. *)
Fixpoint load_loop (lines : list string) (pipe : list command)
    (ops inserted : Z) (r : db) : outcome Z * db :=
  match lines with
  | [] => if ops =? 0 then (Return inserted, r) else flush pipe inserted r
  | line :: lines =>
      let line := Py.strip line in
      if decide (line = "") then load_loop lines pipe ops inserted r
      else match Py.split_comma line with
           | None => (Raise ValueError, r)
           | Some (follower_id_str, followee_id_str) =>
               match Py.int follower_id_str with
               | None => (Raise ValueError, r)
               | Some follower_id =>
                   match Py.int followee_id_str with
                   | None => (Raise ValueError, r)
                   | Some followee_id =>
                       let pipe :=
                         pipe ++ [SADD (_followers_key followee_id) (Py.str follower_id);
                                  SADD (_following_key follower_id) (Py.str followee_id);
                                  SADD "all_followers" (Py.str follower_id)] in
                       let ops := ops + 3 in
                       if 3000 <=? ops
                       then match flush pipe inserted r with
                            | (Return inserted, r) => load_loop lines [] 0 inserted r
                            | (Raise e, r) => (Raise e, r)
                            end
                       else load_loop lines pipe ops inserted r
                   end
               end
           end
  end.

(** [lines] are the lines of the file at [csv_path]. *)
Definition load_follows_csv (lines : list string) (has_header : bool) (r : db)
    : outcome Z * db :=
  load_loop (if has_header then tail lines else lines) [] 0 0 r.

(** The commands that the fan-out queues for the follower ids [ids]. *)
Definition fanout_cmds (m : string) (s : Z) (ids : list Z) : list command :=
  ids ≫= λ f, ZADD (_timeline_key f) m s :: trim (_timeline_key f).

(** The users whose timelines a post by [user_id] writes to. *)
Definition fanout_targets (user_id : Z) (r : db) : list Z :=
  user_id :: omap Py.int (sscan_iter (set_at r (_followers_key user_id))).

(** *** Histories of calls *)

(** The calls that change the store, each with what it reads from its
    environment. *)
Inductive call : Type :=
  | PostTweet (t : now) (user_id : Z) (tweet_text : string)
  | LoadFollowsCsv (lines : list string) (has_header : bool).

Definition step (c : call) (r : db) : outcome Z * db :=
  match c with
  | PostTweet t user_id tweet_text => post_tweet t user_id tweet_text r
  | LoadFollowsCsv lines has_header => load_follows_csv lines has_header r
  end.

(** The store after a history, oldest call first. *)
Definition run (calls : list call) (r : db) : db :=
  foldl (λ r c, (step c r).2) r calls.

(** The tweet ids that the [post_tweet] calls of a history return, in order. *)
Fixpoint posted_ids (calls : list call) (r : db) : list Z :=
  match calls with
  | [] => []
  | c :: calls =>
      match c, step c r with
      | PostTweet _ _ _, (Return tweet_id, r') => tweet_id :: posted_ids calls r'
      | _, (_, r') => posted_ids calls r'
      end
  end.

(** The stores that histories starting from the empty store lead to. *)
Definition reachable (r : db) : Prop := ∃ calls, r = run calls Redis.empty.

End api.
End TwitterRedisAPI.

Module TwitterMySQLAPI.

(** [random.randint(a, b)]; [pick] is the random choice. *)
Definition randint (pick : nat) (a b : Z) : Z := a + Z.of_nat pick `mod` (b - a + 1).

Definition minimum (l : list Z) : option Z :=
  match l with
  | [] => None
  | x :: l => Some (foldr Z.min x l)
  end.

Definition maximum (l : list Z) : option Z :=
  match l with
  | [] => None
  | x :: l => Some (foldr Z.max x l)
  end.

(** [FOLLOWS] is the list of the rows [(follower_id, followee_id)]. *)
Definition get_random_follower_id (pick : nat) (FOLLOWS : list (Z * Z)) : option Z :=
  match minimum FOLLOWS.*1, maximum FOLLOWS.*1 with
  | Some min_id, Some max_id =>
      let rand_id := randint pick min_id max_id in
      minimum (filter (λ follower_id, rand_id ≤ follower_id) FOLLOWS.*1)
  | _, _ => None
  end.

End TwitterMySQLAPI.

(** The script [load_follows.py]. *)
Module load_follows.

(** [main()]; [csv] are the lines of the file that [--csv] names, [r] is
    the store of the server that the script connects to, and the result is
    the line that the script prints. *)
Definition main (csv : list string) (r : Redis.db) : outcome string * Redis.db :=
  match TwitterRedisAPI.load_follows_csv csv true r with
  | (Return n, r) => (Return ("Inserted (or ignored duplicates): " ++ Py.str n)%string, r)
  | (Raise e, r) => (Raise e, r)
  end.

End load_follows.

(** ** Notions used in the statements *)

Import Redis TwitterRedisAPI.

Fixpoint all_chars (P : ascii → bool) (s : string) : bool :=
  match s with
  | EmptyString => true
  | String c r => P c && all_chars P r
  end.

Definition isdigit (c : ascii) : bool :=
  let n := N_of_ascii c in ((48 <=? n) && (n <=? 57))%N.

(** CPython's default limit on the digits of a literal that [int] converts
    ([sys.int_info.default_max_str_digits]): [int] raises [ValueError] on a
    literal with more digits, underscores not counted. *)
Definition default_max_str_digits : nat := 4300.

Fixpoint count_digits (s : string) : nat :=
  match s with
  | EmptyString => 0
  | String c r => (if isdigit c then 1 else 0) + count_digits r
  end.

(** A text that holds no more digits than the limit: [int] treats each of
    its parts as the embedding does. *)
Definition within_digit_limit (s : string) : Prop :=
  (count_digits s ≤ default_max_str_digits)%nat.

Definition plain (c : ascii) : bool :=
  negb (Py.isspace c) && negb (Ascii.eqb c "_") && negb (Ascii.eqb c "+")
  && negb (Ascii.eqb c "-") && negb (Ascii.eqb c ",").

(** A string that [int] accepts holds no comma. *)
Definition nocomma (c : ascii) : bool := negb (Ascii.eqb c ",").

(** The [k] highest-ranked entries. *)
Definition top (k : nat) (z : gmap string Z) : gmap string Z :=
  list_to_map (drop (size z - k) (zrange_all z)).

Definition counter (r : db) : Z := default 0 (counters r !! "next_tweet_id").

Definition tweet_fields (t : now) (user_id : Z) (tweet_text : string)
    : list (string * string) :=
  [("user_id", Py.str user_id); ("tweet_ts", ts_str t); ("tweet_text", tweet_text)].

(** The store in which [INCR] has run. *)
Definition incremented (r : db) : db :=
  Db (<["next_tweet_id" := counter r + 1]> (counters r)) (hashes r) (sets r) (zsets r).


(** What the loader reads in one line: [None] when the line does not parse,
    [Some None] for a blank line, otherwise the edge. *)
Definition parse_line (line : string) : option (option (Z * Z)) :=
  let line := Py.strip line in
  if decide (line = "") then Some None
  else match Py.split_comma line with
       | None => None
       | Some (a, b) =>
           follower_id ← Py.int a; followee_id ← Py.int b;
           Some (Some (follower_id, followee_id))
       end.

(** The edges of the data lines, [None] when some line does not parse. *)
Fixpoint parse_lines (lines : list string) : option (list (Z * Z)) :=
  match lines with
  | [] => Some []
  | line :: lines =>
      match parse_line line with
      | None => None
      | Some None => parse_lines lines
      | Some (Some e) => cons e <$> parse_lines lines
      end
  end.

(** An edge (follower, followee) is stored when the follower is in the
    followee's follower set. *)
Definition edge_stored (r : db) (e : Z * Z) : Prop :=
  Py.str e.1 ∈ set_at r (_followers_key e.2).

Global Instance edge_stored_dec r e : Decision (edge_stored r e).
Proof. unfold edge_stored. apply _. Defined.
Global Typeclasses Opaque edge_stored.

(** The three writes queued for an edge. *)
Definition edge_cmds (e : Z * Z) : list command :=
  [SADD (_followers_key e.2) (Py.str e.1);
   SADD (_following_key e.1) (Py.str e.2);
   SADD "all_followers" (Py.str e.1)].

Definition edges_cmds (es : list (Z * Z)) : list command := es ≫= edge_cmds.

(** The number of edges of [es] that were not stored before their write. *)
Fixpoint count_added (r : db) (es : list (Z * Z)) : Z :=
  match es with
  | [] => 0
  | e :: es =>
      (if decide (edge_stored r e) then 0 else 1)
      + count_added (execute (edge_cmds e) r).1 es
  end.

(** The distinct edges of [es] that are not stored in [r]. *)
Definition fresh_edges (r : db) (es : list (Z * Z)) : gset (Z * Z) :=
  list_to_set (filter (λ e, ¬ edge_stored r e) es).


(** What every store that the API produces satisfies. *)
Record store_ok (r : db) : Prop := StoreOk {
  ok_counter : 0 ≤ counter r;
  ok_members : ∀ k m s, zset_at r k !! m = Some s → ∃ id, m = Py.str id;
  ok_hashes : ∀ k, hash_at r k ≠ ∅ →
              ∃ u, hash_at r k !! "user_id" = Some (Py.str u);
  ok_followers : ∀ m, m ∈ set_at r "all_followers" → ∃ f, m = Py.str f;
  ok_edges : ∀ k m, m ∈ set_at r (_followers_key k) → m ∈ set_at r "all_followers";
  ok_sampled : ∀ m, m ∈ set_at r "all_followers" →
               ∃ k, m ∈ set_at r (_followers_key k);
}.


(** The tweet that the reader builds for a timeline member, if any. *)
Definition resolve (r : db) (member : string) : option Tweet :=
  id ← Py.int member;
  let h := hash_at r (_tweet_key id) in
  if decide (h = ∅) then None
  else Some (mkTweet id (default 0 (Py.int (default "0" (h !! "user_id"))))
                     (default "" (h !! "tweet_ts")) (default "" (h !! "tweet_text"))).

(** The entries that [home_timeline] reads: the ten highest, best first. *)
Definition top10 (z : gmap string Z) : list (string * Z) :=
  take 10 (reverse (zrange_all z)).

(** The number of entries of [z] that rank above [x]. *)
Definition rank_above (x : string * Z) (z : gmap string Z) : nat :=
  length (filter (λ y, ¬ zle y x) (map_to_list z)).

(** The lines that the loader reads as data. *)
Definition data_lines (lines : list string) (has_header : bool) : list string :=
  if has_header then tail lines else lines.

(** A record is well formed when it has exactly two comma-separated fields
    and [int] accepts both. *)
Definition well_formed (record : string) : bool :=
  match Py.split_all record with
  | [a; b] => bool_decide (is_Some (Py.int a)) && bool_decide (is_Some (Py.int b))
  | _ => false
  end.

(** A malformed data record: a line that is not blank and whose record is
    not well formed. *)
Definition malformed (line : string) : bool :=
  negb (bool_decide (Py.strip line = "")) && negb (well_formed (Py.strip line)).

(** The number of [post_tweet] calls of a history. *)
Fixpoint posts (calls : list call) : nat :=
  match calls with
  | [] => 0
  | PostTweet _ _ _ :: calls => S (posts calls)
  | LoadFollowsCsv _ _ :: calls => posts calls
  end.

(** The score under which a tweet stands in a user's timeline. *)
Definition timeline_score (r : db) (user_id : Z) (tw : Tweet) : option Z :=
  zset_at r (_timeline_key user_id) !! Py.str (tweet_id tw).

(** The members that the three writes of an edge add to the set at [key]. *)
Definition edge_adds (e : Z * Z) (key : string) : gset string :=
  (if decide (key = _followers_key e.2) then {[Py.str e.1]} else ∅)
  ∪ (if decide (key = _following_key e.1) then {[Py.str e.2]} else ∅)
  ∪ (if decide (key = "all_followers") then {[Py.str e.1]} else ∅).

(** The members that the writes of the edges [es] add to the set at [key]. *)
Definition edges_add (es : list (Z * Z)) (key : string) : gset string :=
  ⋃ ((λ e, edge_adds e key) <$> es).

(** The two indexes of the follow graph agree. *)
Definition graph_ok (r : db) : Prop :=
  ∀ a b, Py.str a ∈ set_at r (_followers_key b)
         ↔ Py.str b ∈ set_at r (_following_key a).

(** The line of the file that holds an edge: [follower_id,followee_id]. *)
Definition format_edge (e : Z * Z) : string :=
  Py.str e.1 ++ "," ++ Py.str e.2.

Definition nospace (c : ascii) : bool := negb (Py.isspace c).

(** A line that the loader skips. *)
Definition blank (line : string) : Prop := Py.strip line = "".

Global Instance blank_dec line : Decision (blank line).
Proof. unfold blank. apply _. Defined.

(** Tweets are stored under the ids handed out so far, and the timelines
    hold such ids only. *)
Record tweets_ok (r : db) : Prop := TweetsOk {
  counter_nonneg : 0 ≤ counter r;
  tweets_below : ∀ k, hash_at r k ≠ ∅ →
                 ∃ id, k = _tweet_key id ∧ 1 ≤ id ≤ counter r;
  tweets_stored : ∀ id, 1 ≤ id ≤ counter r → hash_at r (_tweet_key id) ≠ ∅;
  members_below : ∀ k m s, zset_at r k !! m = Some s →
                  ∃ id, m = Py.str id ∧ 1 ≤ id ≤ counter r;
}.

(** Every entry of a sorted set stands in the timeline of a user, and names
    a tweet of that user or of somebody the user follows. *)
Definition timelines_ok (r : db) : Prop :=
  ∀ k m s, zset_at r k !! m = Some s →
    ∃ u id a, k = _timeline_key u ∧ m = Py.str id ∧
      hash_at r (_tweet_key id) !! "user_id" = Some (Py.str a) ∧
      (a = u ∨ edge_stored r (u, a)).

(** What the keyspace holds for a sorted set: nothing when it is empty. *)
Definition stored (z : gmap string Z) : option (gmap string Z) :=
  if decide (z = ∅) then None else Some z.

(** The order of a timeline, read from the top: a tweet precedes another
    when its score is higher or, the scores being equal, when the decimal
    string of its id sorts after the other's. *)
Definition precedes (r : db) (user_id : Z) (tw1 tw2 : Tweet) : Prop :=
  ∃ s1 s2,
    timeline_score r user_id tw1 = Some s1 ∧ timeline_score r user_id tw2 = Some s2 ∧
    (s2 < s1
     ∨ (s1 = s2 ∧ String.le (Py.str (tweet_id tw2)) (Py.str (tweet_id tw1))
        ∧ tweet_id tw1 ≠ tweet_id tw2)).

(** ** Concrete stores and histories *)

(** The store of the scenario: the edges (1,2), (1,2), (3,2) loaded. *)
Definition scenario_store : db :=
  (load_follows_csv ["1,2"; "1,2"; "3,2"] false Redis.empty).2.

(** Nine posts by user 2 within one millisecond. *)
Definition same_ms_store : db :=
  run elements (Api None) (replicate 9 (PostTweet (Now 1000 "t") 2 "x")) Redis.empty.

(** User 1 follows users 2 and 3; user 3, whose clock runs ahead, has
    posted ten times. *)
Definition busy_store : db :=
  run elements (Api None)
      (LoadFollowsCsv ["1,2"; "1,3"] false
       :: ((λ i, PostTweet (Now (2000 + Z.of_nat i) "t3") 3 "news") <$> seq 0 10))
      Redis.empty.

(** Two posts by user 2 within one millisecond, under a cap of five. *)
Definition posted_store : db :=
  run elements (Api (Some 5))
      [PostTweet (Now 1000 "t") 2 "first"; PostTweet (Now 1000 "t") 2 "second"]
      Redis.empty.

(** Two posts by user 2 within one millisecond. *)
Definition tie_store : db :=
  run elements (Api None)
      [PostTweet (Now 1000 "t") 2 "a"; PostTweet (Now 1000 "t") 2 "b"] Redis.empty.

(** Three posts under a cap of two. *)
Definition capped_calls : list call :=
  LoadFollowsCsv ["1,2"] false
  :: replicate 3 (PostTweet (Now 1000 "t") 2 "x").

(** A store in which the follower set of user 2 holds two members that
    are not integers to [int]: a word, and a 3 behind the separator 28,
    which [str.strip] would strip. *)
Definition odd_member_store : db :=
  (execute [SADD (_followers_key 2) "1"; SADD (_followers_key 2) "not-a-number";
            SADD (_followers_key 2) (String "028" "3")]
           Redis.empty).1.

(** User 1 follows user 2, who has posted once. *)
Definition follower_store : db :=
  run elements (Api None)
      [LoadFollowsCsv ["1,2"] false; PostTweet (Now 1000 "t") 2 "x"] Redis.empty.

(** User 1 follows user 2, who has posted twice under a cap of two: the
    timelines of both are full. *)
Definition full_timeline_store : db :=
  run elements (Api (Some 2))
      [LoadFollowsCsv ["1,2"] false; PostTweet (Now 1000 "t") 2 "a";
       PostTweet (Now 1001 "t") 2 "b"]
      Redis.empty.

(** A store in which the timeline of user 2 holds a member that is not an
    integer to [int]: a 7 behind the separator 28. *)
Definition odd_timeline_store : db :=
  (execute [ZADD (_timeline_key 2) "7" 1; ZADD (_timeline_key 2) (String "028" "7") 2]
           Redis.empty).1.

(** * Facts *)

#[local] Set Warnings "-clear-no-such-hyp".

(** Settles that concrete texts are within the digit limit. *)
Ltac digit_limit :=
  cbn [data_lines tail];
  repeat first [apply Forall_nil_2 | apply Forall_cons_2];
  cbv beta; unfold within_digit_limit; apply Nat.leb_le; vm_compute; reflexivity.

(** ** The model on small inputs *)

Example int_spaces_sign_underscore : Py.int " +1_000 " = Some 1000.
Proof. reflexivity. Qed.
Example int_double_underscore : Py.int "1__0" = None.
Proof. reflexivity. Qed.
Example int_negative : Py.int "-42" = Some (-42).
Proof. reflexivity. Qed.
Example int_separator_is_no_space :
  Py.strip (String "028" "7") = "7" ∧ Py.int (String "028" "7") = None.
Proof. by vm_compute. Qed.

Example load_rejects_separator_in_field :
  malformed (String "1" (String "028" ",2")) = true ∧
  (load_follows_csv [String "1" (String "028" ",2")] false Redis.empty).1
  = Raise ValueError.
Proof. by vm_compute. Qed.

Example int_blank : Py.int "  " = None.
Proof. reflexivity. Qed.
Example str_negative : Py.str (-42) = "-42".
Proof. reflexivity. Qed.
Example split_first_comma : Py.split_comma "1,2,3" = Some ("1", "2,3").
Proof. reflexivity. Qed.
Example key_of_tweet : _tweet_key 5 = "tweet:5".
Proof. reflexivity. Qed.
Example probe_successor :
  TwitterMySQLAPI.get_random_follower_id 7 [(1, 2); (10, 2); (5, 3)] = Some 10.
Proof. reflexivity. Qed.

(** ** Facts about the Python primitives *)

Lemma isdigit_plain c : isdigit c = true → plain c = true.
Proof. destruct c as [[] [] [] [] [] [] [] []]; vm_compute; congruence. Qed.

Lemma all_chars_impl (P Q : ascii → bool) s :
  (∀ c, P c = true → Q c = true) → all_chars P s = true → all_chars Q s = true.
Proof.
  intros HPQ. induction s as [|c s IH]; simpl; [done|].
  rewrite !andb_true_iff. intros [??]; auto.
Qed.

Lemma string_of_uint_digits d : all_chars isdigit (NilEmpty.string_of_uint d) = true.
Proof. induction d; simpl; auto. Qed.

(** What [int] skips, [str.strip] strips too. *)
Lemma int_isspace_isspace c : Py.int_isspace c = true → Py.isspace c = true.
Proof. destruct c as [[] [] [] [] [] [] [] []]; vm_compute; congruence. Qed.

Lemma plain_int_isspace c : plain c = true → Py.int_isspace c = false.
Proof. destruct c as [[] [] [] [] [] [] [] []]; vm_compute; congruence. Qed.

Lemma int_lstrip_plain c s :
  plain c = true → Py.int_lstrip (String c s) = String c s.
Proof. intros Hc%plain_int_isspace. simpl. by rewrite Hc. Qed.

Lemma int_rstrip_plain s : all_chars plain s = true → Py.int_rstrip s = s.
Proof.
  induction s as [|c s IH]; simpl; [done|].
  rewrite andb_true_iff. intros [Hc%plain_int_isspace Hs]. rewrite (IH Hs).
  destruct s; [|done]. by rewrite Hc.
Qed.

Lemma int_strip_plain s :
  all_chars plain s = true → Py.int_rstrip (Py.int_lstrip s) = s.
Proof.
  intros Hs. destruct s as [|c s]; [done|].
  simpl in Hs. apply andb_true_iff in Hs as [Hc Hs].
  rewrite int_lstrip_plain by done. apply int_rstrip_plain. simpl. by rewrite Hc, Hs.
Qed.

Lemma digits_of_literal_plain s :
  all_chars plain s = true → Py.digits_of_literal true s = Some s.
Proof.
  induction s as [|c s IH]; simpl; [done|].
  rewrite andb_true_iff. intros [Hc Hs]. rewrite (IH Hs).
  unfold plain in Hc. rewrite !andb_true_iff, !negb_true_iff in Hc.
  destruct Hc as [[[[_ ->] _] _] _]. done.
Qed.

Lemma parse_digits_of_uint d :
  d ≠ Nil → Py.parse_digits (NilEmpty.string_of_uint d) = Some (Z.of_uint d).
Proof.
  intros Hd. unfold Py.parse_digits.
  pose proof (string_of_uint_digits d) as Hdig.
  apply (all_chars_impl _ plain) in Hdig; [|apply isdigit_plain].
  destruct (NilEmpty.string_of_uint d) as [|c s] eqn:Hs.
  { destruct d; simplify_eq/=. }
  simpl in Hdig. apply andb_true_iff in Hdig as [Hc Hdig].
  simpl. unfold plain in Hc. rewrite !andb_true_iff, !negb_true_iff in Hc.
  destruct Hc as [[[[_ ->] _] _] _].
  rewrite digits_of_literal_plain by done. simpl.
  change (NilZero.uint_of_string (String c s) ≫= (λ u, Some (Z.of_uint u))
          = Some (Z.of_uint d)).
  rewrite <- Hs.
  replace (NilZero.uint_of_string (NilEmpty.string_of_uint d)) with (Some d); [done|].
  symmetry. pose proof (NilZero.usu d Hd) as Hu. by destruct d.
Qed.

(** [int] inverts [str]. *)
Lemma int_str (z : Z) : Py.int (Py.str z) = Some z.
Proof.
  destruct z as [|p|p]; [done|..].
  - unfold Py.str, Py.int. simpl Z.to_int. simpl NilZero.string_of_int.
    pose proof (Unsigned.to_uint_nonnil p) as Hnil.
    replace (NilZero.string_of_uint (Pos.to_uint p))
      with (NilEmpty.string_of_uint (Pos.to_uint p)) by by destruct (Pos.to_uint p).
    pose proof (string_of_uint_digits (Pos.to_uint p)) as Hdig.
    apply (all_chars_impl _ plain) in Hdig; [|apply isdigit_plain].
    rewrite int_strip_plain by done.
    pose proof (parse_digits_of_uint _ Hnil) as Hparse.
    destruct (NilEmpty.string_of_uint (Pos.to_uint p)) as [|c s] eqn:Hs.
    { destruct (Pos.to_uint p); simplify_eq/=. }
    simpl in Hdig. apply andb_true_iff in Hdig as [Hc _].
    unfold plain in Hc. rewrite !andb_true_iff, !negb_true_iff in Hc.
    destruct Hc as [[[[_ _] ->] ->] _].
    rewrite Hparse. f_equal. unfold Z.of_uint. by rewrite Unsigned.of_to.
  - unfold Py.str, Py.int. simpl Z.to_int. simpl NilZero.string_of_int.
    pose proof (Unsigned.to_uint_nonnil p) as Hnil.
    replace (NilZero.string_of_uint (Pos.to_uint p))
      with (NilEmpty.string_of_uint (Pos.to_uint p)) by by destruct (Pos.to_uint p).
    pose proof (string_of_uint_digits (Pos.to_uint p)) as Hdig.
    apply (all_chars_impl _ plain) in Hdig; [|apply isdigit_plain].
    set (s := NilEmpty.string_of_uint (Pos.to_uint p)) in *.
    assert (Py.int_rstrip (Py.int_lstrip (String "-" s)) = String "-" s) as ->.
    { change (Py.int_lstrip (String "-" s)) with (String "-" s).
      simpl. rewrite int_rstrip_plain by done.
      subst s. destruct (Pos.to_uint p); simplify_eq/=; done. }
    simpl. subst s. rewrite parse_digits_of_uint by done. simpl.
    f_equal. unfold Z.of_uint. by rewrite Unsigned.of_to.
Qed.

Global Instance str_inj : Inj (=) (=) Py.str.
Proof. intros a b Hab. apply (f_equal Py.int) in Hab. rewrite !int_str in Hab. congruence. Qed.

Lemma isspace_nocomma c : Py.isspace c = true → nocomma c = true.
Proof. destruct c as [[] [] [] [] [] [] [] []]; vm_compute; congruence. Qed.

Lemma isdigit_nocomma c : isdigit c = true → nocomma c = true.
Proof. destruct c as [[] [] [] [] [] [] [] []]; vm_compute; congruence. Qed.

Lemma int_isspace_nocomma c : Py.int_isspace c = true → nocomma c = true.
Proof. intros Hc. by apply isspace_nocomma, int_isspace_isspace. Qed.

Lemma int_lstrip_nocomma s :
  all_chars nocomma (Py.int_lstrip s) = true → all_chars nocomma s = true.
Proof.
  induction s as [|c s IH]; simpl; [done|].
  destruct (Py.int_isspace c) eqn:Hc; [|done].
  intros Hs. by rewrite int_isspace_nocomma, IH.
Qed.

Lemma int_rstrip_nocomma s :
  all_chars nocomma (Py.int_rstrip s) = true → all_chars nocomma s = true.
Proof.
  induction s as [|c s IH]; simpl; [done|].
  destruct (Py.int_rstrip s) as [|c' s'] eqn:Hr.
  - destruct (Py.int_isspace c) eqn:Hc; simpl.
    + intros _. by rewrite int_isspace_nocomma, IH.
    + rewrite andb_true_r. intros ->. by rewrite IH.
  - simpl. rewrite !andb_true_iff. intros [-> Hs]. split; [done|].
    apply IH. simpl. by apply andb_true_iff.
Qed.

Lemma digits_of_literal_nocomma b s d :
  Py.digits_of_literal b s = Some d →
  all_chars nocomma d = true → all_chars nocomma s = true.
Proof.
  revert b d. induction s as [|c s IH]; intros b d; simpl; [done|].
  destruct (Ascii.eqb c "_") eqn:Hc.
  - apply Ascii.eqb_eq in Hc as ->. destruct b; [|done]. intros ??. simpl. eauto.
  - destruct (Py.digits_of_literal true s) as [d'|] eqn:Hd; [|done].
    intros [= <-]. simpl. rewrite !andb_true_iff. intros [-> ?]. eauto.
Qed.

Lemma uint_of_string_digits s u :
  NilEmpty.uint_of_string s = Some u → all_chars isdigit s = true.
Proof. intros <-%NilEmpty.sus. apply string_of_uint_digits. Qed.

Lemma parse_digits_nocomma s z :
  Py.parse_digits s = Some z → all_chars nocomma s = true.
Proof.
  unfold Py.parse_digits. intros Hs.
  destruct (Py.digits_of_literal false s) as [d|] eqn:Hd; [|done]. simpl in Hs.
  destruct (NilZero.uint_of_string d) as [u|] eqn:Hu; [|done].
  eapply digits_of_literal_nocomma; [done|].
  eapply all_chars_impl; [apply isdigit_nocomma|].
  destruct d; [done|]. by eapply uint_of_string_digits.
Qed.

Lemma int_nocomma s z : Py.int s = Some z → all_chars nocomma s = true.
Proof.
  unfold Py.int. intros Hs.
  apply int_lstrip_nocomma, int_rstrip_nocomma.
  destruct (Py.int_rstrip (Py.int_lstrip s)) as [|c d]; [done|].
  destruct (Ascii.eqb c "+") eqn:Hplus.
  { apply Ascii.eqb_eq in Hplus as ->. simpl. by eapply parse_digits_nocomma. }
  destruct (Ascii.eqb c "-") eqn:Hminus.
  { apply Ascii.eqb_eq in Hminus as ->. simpl.
    destruct (Py.parse_digits d) eqn:Hd; [|done]. by eapply parse_digits_nocomma. }
  by eapply parse_digits_nocomma.
Qed.

Lemma split_comma_None s :
  Py.split_comma s = None ↔ all_chars nocomma s = true.
Proof.
  induction s as [|c s IH]; simpl; [done|]. unfold nocomma at 1.
  destruct (Ascii.eqb c ","); simpl; [done|].
  rewrite <- IH. destruct (Py.split_comma s) as [[??]|]; done.
Qed.

Lemma split_all_single s : Py.split_comma s = None → Py.split_all s = [s].
Proof.
  induction s as [|c s IH]; simpl; [done|].
  destruct (Ascii.eqb c ","); [done|].
  destruct (Py.split_comma s) as [[??]|]; [done|]. intros _. by rewrite IH.
Qed.

Lemma split_all_cons s a b :
  Py.split_comma s = Some (a, b) → Py.split_all s = a :: Py.split_all b.
Proof.
  revert a. induction s as [|c s IH]; intros a; simpl; [done|].
  destruct (Ascii.eqb c ","); [by intros [= <- <-]|].
  destruct (Py.split_comma s) as [[a' b']|]; [|done].
  intros [= <- <-]. by rewrite (IH a').
Qed.

Lemma split_all_nonempty s : Py.split_all s ≠ [].
Proof.
  destruct s as [|c s]; simpl; [done|].
  destruct (Ascii.eqb c ","); [done|]. by destruct (Py.split_all s).
Qed.

(** ** Facts about the Redis model *)

Global Instance zle_trans : Transitive zle.
Proof.
  intros [m1 s1] [m2 s2] [m3 s3]. unfold zle; simpl.
  intros [?|[-> H12]] [?|[-> H23]]; try (left; lia).
  right. split; [done|]. by etrans.
Qed.

Global Instance zle_refl : Reflexive zle.
Proof. intros [m s]. right. by split. Qed.

Global Instance zle_total : Total zle.
Proof.
  intros [m1 s1] [m2 s2]. unfold zle; simpl.
  destruct (Z.lt_total s1 s2) as [?|[->|?]]; [by left; left| |by right; left].
  destruct (total String.le m1 m2); [left|right]; right; done.
Qed.

Global Instance zle_antisymm : AntiSymm (=) zle.
Proof.
  intros [m1 s1] [m2 s2]. unfold zle; simpl.
  intros [?|[-> H12]] [?|[? H21]]; try lia.
  f_equal. by apply (anti_symm String.le).
Qed.

Lemma zrange_all_perm (z : gmap string Z) : zrange_all z ≡ₚ map_to_list z.
Proof. apply merge_sort_Permutation. Qed.

Lemma zrange_all_sorted (z : gmap string Z) : StronglySorted zle (zrange_all z).
Proof. apply StronglySorted_merge_sort; apply _. Qed.

Lemma zrange_all_NoDup (z : gmap string Z) : NoDup (zrange_all z).*1.
Proof. rewrite zrange_all_perm. apply NoDup_fst_map_to_list. Qed.

Lemma zrange_all_length (z : gmap string Z) : length (zrange_all z) = size z.
Proof. by rewrite zrange_all_perm, length_map_to_list. Qed.

Lemma elem_of_zrange_all (z : gmap string Z) m s :
  (m, s) ∈ zrange_all z ↔ z !! m = Some s.
Proof. by rewrite zrange_all_perm, elem_of_map_to_list. Qed.

Lemma list_to_map_zrange_all (z : gmap string Z) : list_to_map (zrange_all z) = z.
Proof.
  apply map_eq. intros m. apply option_eq. intros s.
  rewrite <- elem_of_list_to_map by apply zrange_all_NoDup.
  apply elem_of_zrange_all.
Qed.

(** A sorted list without repeated members is the rank order of the sorted
    set it denotes. *)
Lemma zrange_all_list_to_map (l : list (string * Z)) :
  StronglySorted zle l → NoDup l.*1 → zrange_all (list_to_map l) = l.
Proof.
  intros Hsorted Hnodup. apply (StronglySorted_unique zle).
  - apply zrange_all_sorted.
  - done.
  - rewrite zrange_all_perm. by apply map_to_list_to_map.
Qed.

Lemma put_lookup `{Empty V, EqDecision V} (key key' : string) (v : V)
    (m : gmap string V) :
  default ∅ (put key v m !! key') =
  if decide (key = key') then v else default ∅ (m !! key').
Proof.
  unfold put. destruct (decide (v = ∅)) as [->|?].
  - rewrite lookup_delete. by case_decide.
  - rewrite lookup_insert. by case_decide.
Qed.

Ltac case_cmp :=
  repeat match goal with
  | |- context [Z.ltb ?a ?b] => destruct (Z.ltb_spec a b)
  | |- context [Z.leb ?a ?b] => destruct (Z.leb_spec a b)
  end.

Lemma rank_range_trim (len k : Z) :
  0 ≤ k →
  rank_range len 0 (- k - 1) = if len <=? k then None else Some (0, len - k - 1).
Proof.
  intros Hk. unfold rank_range. case_cmp; simpl; try lia; try done.
  do 2 f_equal; lia.
Qed.

Lemma zremrangebyrank_val_top (z : gmap string Z) (k : Z) :
  0 ≤ k → zremrangebyrank_val z 0 (- k - 1) = top (Z.to_nat k) z.
Proof.
  intros Hk. unfold zremrangebyrank_val, top, unslice.
  rewrite rank_range_trim, zrange_all_length by done.
  destruct (Z.leb_spec (Z.of_nat (size z)) k).
  - by replace (size z - Z.to_nat k)%nat with 0%nat by lia.
  - simpl. do 2 f_equal. lia.
Qed.

Lemma drop_zrange_all_sorted n (z : gmap string Z) :
  StronglySorted zle (drop n (zrange_all z)) ∧ NoDup (drop n (zrange_all z)).*1.
Proof.
  pose proof (zrange_all_sorted z) as Hs. pose proof (zrange_all_NoDup z) as Hn.
  rewrite <- (take_drop n (zrange_all z)) in Hs, Hn.
  apply StronglySorted_app_1_r in Hs. rewrite fmap_app in Hn.
  apply NoDup_app in Hn as (_ & _ & Hn). done.
Qed.

Lemma zrange_all_top k (z : gmap string Z) :
  zrange_all (top k z) = drop (size z - k) (zrange_all z).
Proof. apply zrange_all_list_to_map; apply drop_zrange_all_sorted. Qed.

Lemma size_top k (z : gmap string Z) : (size (top k z) ≤ k)%nat.
Proof.
  rewrite <- zrange_all_length, zrange_all_top, length_drop, zrange_all_length. lia.
Qed.

Lemma top_small k (z : gmap string Z) : (size z ≤ k)%nat → top k z = z.
Proof.
  intros Hk. unfold top. replace (size z - k)%nat with 0%nat by lia.
  apply list_to_map_zrange_all.
Qed.

Lemma elem_of_drop_weaken {A} (x : A) n l : x ∈ drop n l → x ∈ l.
Proof. intros Hx. rewrite <- (take_drop n l). apply elem_of_app. by right. Qed.

Lemma top_lookup_Some k (z : gmap string Z) m s :
  top k z !! m = Some s → z !! m = Some s.
Proof.
  rewrite <- !elem_of_zrange_all, zrange_all_top. apply elem_of_drop_weaken.
Qed.

(** What the trim drops ranks below what it keeps. *)
Lemma top_dropped_below k (z : gmap string Z) m s m' s' :
  z !! m = Some s → top k z !! m = None → top k z !! m' = Some s' →
  zle (m, s) (m', s').
Proof.
  intros Hz Hm Hm'. apply elem_of_zrange_all in Hz, Hm'.
  rewrite zrange_all_top in Hm'.
  pose proof (zrange_all_sorted z) as Hs.
  rewrite <- (take_drop (size z - k) (zrange_all z)) in Hs, Hz.
  apply elem_of_app in Hz as [Hz|Hz].
  - by eapply StronglySorted_app_1_elem_of.
  - rewrite <- zrange_all_top in Hz. apply elem_of_zrange_all in Hz. congruence.
Qed.

Lemma size_top_dropped k (z : gmap string Z) m s :
  z !! m = Some s → top k z !! m = None → size (top k z) = k.
Proof.
  intros Hz Hm.
  destruct (decide (size z ≤ k)%nat) as [Hle|Hgt].
  { rewrite top_small in Hm by done. congruence. }
  rewrite <- zrange_all_length, zrange_all_top, length_drop, zrange_all_length. lia.
Qed.

(** Writing an entry and trimming, twice, is the same as once. *)
Lemma top_insert_idemp k (z : gmap string Z) m s :
  top k (<[m := s]> (top k (<[m := s]> z))) = top k (<[m := s]> z).
Proof.
  set (z1 := top k (<[m := s]> z)).
  destruct (z1 !! m) as [s'|] eqn:Hm.
  - assert (s' = s) as ->.
    { apply top_lookup_Some in Hm. rewrite lookup_insert_eq in Hm. congruence. }
    rewrite insert_id by done. apply top_small, size_top.
  - assert (size z1 = k) as Hsize.
    { eapply size_top_dropped; [apply lookup_insert_eq|done]. }
    assert (zrange_all (<[m := s]> z1) = (m, s) :: zrange_all z1) as Hr.
    { apply (StronglySorted_unique zle).
      - apply zrange_all_sorted.
      - constructor; [apply zrange_all_sorted|].
        apply Forall_forall. intros [m' s'] Hin%elem_of_zrange_all.
        eapply top_dropped_below; [apply lookup_insert_eq|done..].
      - rewrite !zrange_all_perm. by apply map_to_list_insert. }
    unfold top at 1. rewrite Hr, map_size_insert_None, Hsize by done.
    replace (S k - k)%nat with 1%nat by lia. simpl.
    apply list_to_map_zrange_all.
Qed.

(** ** Keys and single commands *)

Lemma timeline_key_inj : Inj (=) (=) _timeline_key.
Proof. intros a b Hab. unfold _timeline_key in Hab. by simplify_eq. Qed.
Lemma tweet_key_inj : Inj (=) (=) _tweet_key.
Proof. intros a b Hab. unfold _tweet_key in Hab. by simplify_eq. Qed.
Lemma followers_key_inj : Inj (=) (=) _followers_key.
Proof. intros a b Hab. unfold _followers_key in Hab. by simplify_eq. Qed.
Lemma following_key_inj : Inj (=) (=) _following_key.
Proof. intros a b Hab. unfold _following_key in Hab. by simplify_eq. Qed.

(** The six kinds of keys never collide, which is what lets the model keep
    one map per value type. *)
Lemma keys_disjoint (a b c d : Z) :
  NoDup [_tweet_key a; _followers_key b; _following_key c; _timeline_key d;
         "all_followers"; "next_tweet_id"].
Proof.
  unfold _tweet_key, _followers_key, _following_key, _timeline_key.
  repeat (constructor; [rewrite ?elem_of_cons, elem_of_nil; simpl; intuition discriminate|]).
  constructor.
Qed.

Lemma followers_key_ne_all k : _followers_key k ≠ "all_followers".
Proof. done. Qed.
Lemma following_key_ne_all k : _following_key k ≠ "all_followers".
Proof. done. Qed.
Lemma followers_key_ne_following k k' : _followers_key k ≠ _following_key k'.
Proof. done. Qed.

(** *** One command *)

Lemma exec_ZADD key m s r :
  let r' := (exec (ZADD key m s) r).1 in
  counters r' = counters r ∧ hashes r' = hashes r ∧ sets r' = sets r ∧
  ∀ k, zset_at r' k = if decide (k = key) then <[m := s]> (zset_at r key)
                      else zset_at r k.
Proof.
  simpl. repeat split. intros k. unfold zset_at at 1. simpl.
  rewrite lookup_insert. repeat case_decide; by simplify_eq.
Qed.

Lemma exec_ZREMRANGEBYRANK key a b r :
  let r' := (exec (ZREMRANGEBYRANK key a b) r).1 in
  counters r' = counters r ∧ hashes r' = hashes r ∧ sets r' = sets r ∧
  ∀ k, zset_at r' k = if decide (k = key)
                      then zremrangebyrank_val (zset_at r key) a b
                      else zset_at r k.
Proof.
  simpl. repeat split. intros k. unfold zset_at at 1. simpl.
  rewrite put_lookup. repeat case_decide; by simplify_eq.
Qed.

Lemma exec_SADD key m r :
  let r' := (exec (SADD key m) r).1 in
  counters r' = counters r ∧ hashes r' = hashes r ∧ zsets r' = zsets r ∧
  (exec (SADD key m) r).2 = Int (if decide (m ∈ set_at r key) then 0 else 1) ∧
  ∀ k, set_at r' k = if decide (k = key) then {[m]} ∪ set_at r key
                     else set_at r k.
Proof.
  simpl. repeat split. intros k. unfold set_at at 1. simpl.
  rewrite lookup_insert. repeat case_decide; by simplify_eq.
Qed.

Lemma exec_HSET key mapping r :
  let r' := (exec (HSET key mapping) r).1 in
  counters r' = counters r ∧ sets r' = sets r ∧ zsets r' = zsets r ∧
  ∀ k, hash_at r' k = if decide (k = key)
                      then list_to_map mapping ∪ hash_at r key
                      else hash_at r k.
Proof.
  simpl. repeat split. intros k. unfold hash_at at 1. simpl.
  rewrite put_lookup. repeat case_decide; simplify_eq; reflexivity.
Qed.

Lemma execute_app p1 p2 r :
  execute (p1 ++ p2) r =
  ((execute p2 (execute p1 r).1).1, (execute p1 r).2 ++ (execute p2 (execute p1 r).1).2).
Proof.
  revert r. induction p1 as [|c p1 IH]; intros r; simpl.
  { by destruct (execute p2 r). }
  destruct (exec c r) as [r1 x]. rewrite IH.
  destruct (execute p1 r1) as [r2 xs]. simpl.
  by destruct (execute p2 r2).
Qed.

Lemma execute_cons c p r :
  execute (c :: p) r =
  ((execute p (exec c r).1).1, (exec c r).2 :: (execute p (exec c r).1).2).
Proof.
  change (execute (c :: p) r)
    with (let '(r1, x) := exec c r in
          let '(r2, xs) := execute p r1 in (r2, x :: xs)).
  destruct (exec c r) as [r1 x]. simpl. by destruct (execute p r1).
Qed.

(** ** Posting *)

Section post_facts.
Context (sscan_iter : gset string → list string).
Context (self : api).

(** *** The timeline write *)

Lemma execute_write key m s r :
  let r' := (execute (ZADD key m s :: trim self key) r).1 in
  counters r' = counters r ∧ hashes r' = hashes r ∧ sets r' = sets r ∧
  ∀ k, zset_at r' k = if decide (k = key) then deliver self m s (zset_at r key)
                      else zset_at r k.
Proof.
  intros r'. subst r'. rewrite execute_cons. cbn [fst].
  destruct (exec_ZADD key m s r) as (Hc & Hh & Hs & Hz).
  unfold trim, deliver. destruct (timeline_max_size self) as [size|].
  - rewrite execute_cons. cbn [fst execute].
    destruct (exec_ZREMRANGEBYRANK key 0 (- size - 1) (exec (ZADD key m s) r).1)
      as (Hc' & Hh' & Hs' & Hz').
    repeat split; [congruence..|].
    intros k. rewrite Hz', !Hz. by repeat case_decide.
  - cbn [fst execute]. done.
Qed.

Lemma deliver_idemp m s z :
  cap_ok self → deliver self m s (deliver self m s z) = deliver self m s z.
Proof.
  unfold cap_ok, deliver. intros Hcap.
  destruct (timeline_max_size self) as [size|].
  - rewrite !zremrangebyrank_val_top by auto. apply top_insert_idemp.
  - apply insert_insert_eq.
Qed.

Lemma deliver_lookup_Some m s z m' s' :
  cap_ok self → deliver self m s z !! m' = Some s' → <[m := s]> z !! m' = Some s'.
Proof.
  unfold cap_ok, deliver. intros Hcap.
  destruct (timeline_max_size self) as [size|]; [|done].
  rewrite zremrangebyrank_val_top by auto. apply top_lookup_Some.
Qed.

Lemma execute_fanout m s ids r :
  cap_ok self →
  let r' := (execute (fanout_cmds self m s ids) r).1 in
  counters r' = counters r ∧ hashes r' = hashes r ∧ sets r' = sets r ∧
  ∀ k, zset_at r' k = if decide (k ∈ _timeline_key <$> ids)
                      then deliver self m s (zset_at r k)
                      else zset_at r k.
Proof.
  intros Hcap. revert r. induction ids as [|f ids IH]; intros r.
  { simpl. by repeat split. }
  cbv zeta. unfold fanout_cmds. rewrite bind_cons. fold (fanout_cmds self m s ids).
  rewrite execute_app. cbn [fst].
  destruct (execute_write (_timeline_key f) m s r) as (Hc & Hh & Hs & Hz).
  destruct (IH (execute (ZADD (_timeline_key f) m s :: trim self (_timeline_key f)) r).1)
    as (Hc' & Hh' & Hs' & Hz').
  repeat split; [congruence..|].
  intros k. rewrite Hz', Hz, fmap_cons.
  destruct (decide (k = _timeline_key f)) as [->|Hne].
  - rewrite (decide_True (P := _ ∈ _ :: _)) by apply list_elem_of_here.
    case_decide; [by apply deliver_idemp|done].
  - destruct (decide (k ∈ _timeline_key <$> ids)) as [Hin|Hnin].
    + by rewrite decide_True by by apply list_elem_of_further.
    + rewrite decide_False; [done|]. rewrite elem_of_cons. by intros [?|?].
Qed.

(** *** The fan-out loop: chunked flushing is the same as one batch *)

Lemma fanout_step_skip tweet_id ts_ms st m :
  Py.int m = None → fanout_step self tweet_id ts_ms st m = st.
Proof. intros Hm. unfold fanout_step. destruct st as [[r pipe] ops]. by rewrite Hm. Qed.

Lemma fanout_step_queue tweet_id ts_ms r pipe ops m f :
  Py.int m = Some f →
  fanout_step self tweet_id ts_ms (r, pipe, ops) m =
  let pipe := pipe ++ ZADD (_timeline_key f) (Py.str tweet_id) ts_ms
                      :: trim self (_timeline_key f) in
  if (ops + 1) `mod` 1000 =? 0
  then ((execute pipe r).1, [], ops + 1)
  else (r, pipe, ops + 1).
Proof. intros Hm. unfold fanout_step. by rewrite Hm. Qed.

Lemma fanout_loop tweet_id ts_ms scan r pipe ops :
  (ops `mod` 1000 = 0 → pipe = []) →
  let '(r', pipe', ops') := foldl (fanout_step self tweet_id ts_ms) (r, pipe, ops) scan in
  (ops' `mod` 1000 = 0 → pipe' = []) ∧
  (execute pipe' r').1 =
  (execute (pipe ++ fanout_cmds self (Py.str tweet_id) ts_ms (omap Py.int scan)) r).1.
Proof.
  revert r pipe ops. induction scan as [|m scan IH]; intros r pipe ops Hinv.
  { simpl. split; [done|]. unfold fanout_cmds. simpl. by rewrite app_nil_r. }
  cbn [foldl].
  destruct (Py.int m) as [f|] eqn:Hm; simpl omap; rewrite Hm.
  - rewrite (fanout_step_queue _ _ _ _ _ _ f) by done. cbv zeta.
    unfold fanout_cmds. rewrite bind_cons. fold (fanout_cmds self (Py.str tweet_id) ts_ms (omap Py.int scan)).
    set (w := ZADD (_timeline_key f) (Py.str tweet_id) ts_ms :: trim self (_timeline_key f)).
    destruct ((ops + 1) `mod` 1000 =? 0) eqn:Hflush.
    + specialize (IH (execute (pipe ++ w) r).1 [] (ops + 1) (λ _, eq_refl)).
      destruct (foldl _ _ scan) as [[r' pipe'] ops']. destruct IH as [Hinv' IH].
      split; [done|]. rewrite IH, app_nil_l, (assoc_L (++)).
      by rewrite (execute_app (pipe ++ w)).
    + specialize (IH r (pipe ++ w) (ops + 1)).
      destruct (foldl _ _ scan) as [[r' pipe'] ops']. destruct IH as [Hinv' IH]; [lia|].
      split; [done|]. by rewrite IH, (assoc_L (++)).
  - rewrite fanout_step_skip by done. specialize (IH r pipe ops Hinv).
    by destruct (foldl _ _ scan) as [[r' pipe'] ops'].
Qed.
(** *** What a post does to the store *)

(** A post that gets its id runs its two pipelines as one batch. *)
Lemma post_tweet_exec t user text r :
  counter r < int64_max →
  post_tweet sscan_iter self t user text r =
  (Return (counter r + 1),
   (execute
      (fanout_cmds self (Py.str (counter r + 1)) (ts_ms t)
         (omap Py.int (sscan_iter (set_at r (_followers_key user)))))
      (execute
         (ZADD (_timeline_key user) (Py.str (counter r + 1)) (ts_ms t)
          :: trim self (_timeline_key user))
         (exec (HSET (_tweet_key (counter r + 1)) (tweet_fields t user text))
               (incremented r)).1).1).1).
Proof.
  intros Hmax. unfold post_tweet, incr. fold (counter r).
  assert ((counter r <? int64_max) = true) as -> by lia.
  fold (incremented r). fold (tweet_fields t user text).
  set (id := counter r + 1). rewrite execute_cons. cbn [fst].
  set (r0 := (exec _ (incremented r)).1).
  set (r1 := (execute (ZADD _ _ _ :: _) r0).1).
  assert (set_at r1 (_followers_key user) = set_at r (_followers_key user)) as ->.
  { destruct (execute_write (_timeline_key user) (Py.str id) (ts_ms t) r0)
      as (_ & _ & Hs & _).
    unfold set_at. fold r1 in Hs. by rewrite Hs. }
  pose proof (fanout_loop id (ts_ms t)
                (sscan_iter (set_at r (_followers_key user))) r1 [] 0 (λ _, eq_refl))
    as Hloop.
  destruct (foldl _ _ _) as [[r2 pipe2] ops2]. destruct Hloop as [Hinv Hloop].
  rewrite app_nil_l in Hloop. rewrite <- Hloop. f_equal.
  destruct (Z.eqb_spec (ops2 `mod` 1000) 0) as [H0|]; [|done]. by rewrite (Hinv H0).
Qed.

Lemma post_tweet_overflow t user text r :
  ¬ counter r < int64_max →
  post_tweet sscan_iter self t user text r = (Raise ResponseError, r).
Proof.
  intros Hmax. unfold post_tweet, incr. fold (counter r).
  by assert ((counter r <? int64_max) = false) as -> by lia.
Qed.

Lemma post_tweet_spec t user text r :
  cap_ok self → counter r < int64_max →
  ∃ r', post_tweet sscan_iter self t user text r = (Return (counter r + 1), r') ∧
    counters r' = <["next_tweet_id" := counter r + 1]> (counters r) ∧
    sets r' = sets r ∧
    (∀ k, hash_at r' k =
          if decide (k = _tweet_key (counter r + 1))
          then list_to_map (tweet_fields t user text) ∪ hash_at r k
          else hash_at r k) ∧
    (∀ k, zset_at r' k =
          if decide (k ∈ _timeline_key <$> fanout_targets sscan_iter user r)
          then deliver self (Py.str (counter r + 1)) (ts_ms t) (zset_at r k)
          else zset_at r k).
Proof.
  intros Hcap Hmax. rewrite post_tweet_exec by done.
  eexists. split; [reflexivity|].
  set (id := counter r + 1).
  destruct (exec_HSET (_tweet_key id) (tweet_fields t user text) (incremented r))
    as (Hc0 & Hs0 & Hz0 & Hh0).
  set (r0 := (exec (HSET _ _) _).1) in *.
  destruct (execute_write (_timeline_key user) (Py.str id) (ts_ms t) r0)
    as (Hc1 & Hh1 & Hs1 & Hz1).
  set (r1 := (execute (ZADD _ _ _ :: _) r0).1) in *.
  destruct (execute_fanout (Py.str id) (ts_ms t)
              (omap Py.int (sscan_iter (set_at r (_followers_key user)))) r1 Hcap)
    as (Hc2 & Hh2 & Hs2 & Hz2).
  repeat split.
  - by rewrite Hc2, Hc1, Hc0.
  - by rewrite Hs2, Hs1, Hs0.
  - intros k. unfold hash_at at 1. rewrite Hh2, Hh1. fold (hash_at r0 k).
    rewrite (Hh0 k). case_decide; by subst.
  - intros k. rewrite Hz2, Hz1. unfold fanout_targets. rewrite fmap_cons.
    unfold zset_at at 2 4. rewrite Hz0. fold (zset_at r (_timeline_key user)).
    fold (zset_at r k).
    destruct (decide (k = _timeline_key user)) as [->|Hne].
    + rewrite (decide_True (P := _ ∈ _ :: _)) by apply list_elem_of_here.
      case_decide; [by apply deliver_idemp|done].
    + destruct (decide (k ∈ _timeline_key <$> _)) as [Hin|Hnin].
      * by rewrite decide_True by by apply list_elem_of_further.
      * rewrite decide_False; [done|]. rewrite elem_of_cons. by intros [?|?].
Qed.

End post_facts.

(** ** Loading *)

Ltac key_contra :=
  exfalso;
  match goal with
  | H : _followers_key _ = _following_key _ |- _ =>
      exact (followers_key_ne_following _ _ H)
  | H : _following_key _ = _followers_key _ |- _ =>
      exact (followers_key_ne_following _ _ (eq_sym H))
  | H : _followers_key _ = "all_followers" |- _ => exact (followers_key_ne_all _ H)
  | H : "all_followers" = _followers_key _ |- _ =>
      exact (followers_key_ne_all _ (eq_sym H))
  | H : _following_key _ = "all_followers" |- _ => exact (following_key_ne_all _ H)
  | H : "all_followers" = _following_key _ |- _ =>
      exact (following_key_ne_all _ (eq_sym H))
  | H : _followers_key _ = _followers_key _ |- _ =>
      apply followers_key_inj in H; congruence
  | H : _following_key _ = _following_key _ |- _ =>
      apply following_key_inj in H; congruence
  | H : ?x ≠ ?x |- _ => exact (H eq_refl)
  | H : _ ≠ _ |- _ => apply H; congruence
  end.

(** Settles the tests on key equality in the goal. *)
Ltac key_decide :=
  repeat match goal with
  | |- context [decide (?a = ?b)] =>
      first [ rewrite (decide_True (P := a = b)) by reflexivity
            | rewrite (decide_False (P := a = b)) by (intros ?; key_contra) ]
  end.

Lemma execute_edge e r :
  let r' := (execute (edge_cmds e) r).1 in
  counters r' = counters r ∧ hashes r' = hashes r ∧ zsets r' = zsets r ∧
  (execute (edge_cmds e) r).2 =
    [Int (if decide (edge_stored r e) then 0 else 1);
     Int (if decide (Py.str e.2 ∈ set_at r (_following_key e.1)) then 0 else 1);
     Int (if decide (Py.str e.1 ∈ set_at r "all_followers") then 0 else 1)] ∧
  (∀ k, set_at r' (_followers_key k) =
        if decide (k = e.2) then {[Py.str e.1]} ∪ set_at r (_followers_key k)
        else set_at r (_followers_key k)) ∧
  (∀ k, set_at r' (_following_key k) =
        if decide (k = e.1) then {[Py.str e.2]} ∪ set_at r (_following_key k)
        else set_at r (_following_key k)) ∧
  set_at r' "all_followers" = {[Py.str e.1]} ∪ set_at r "all_followers".
Proof.
  destruct e as [f e]. unfold edge_cmds, edge_stored. cbn [fst snd].
  rewrite !execute_cons.
  change (execute [] ?x) with (x, @nil reply). cbn [fst snd].
  destruct (exec_SADD (_followers_key e) (Py.str f) r) as (Hc1 & Hh1 & Hz1 & Hx1 & Hs1).
  set (r1 := (exec (SADD (_followers_key e) _) r).1) in *.
  destruct (exec_SADD (_following_key f) (Py.str e) r1) as (Hc2 & Hh2 & Hz2 & Hx2 & Hs2).
  set (r2 := (exec (SADD (_following_key f) _) r1).1) in *.
  destruct (exec_SADD "all_followers" (Py.str f) r2) as (Hc3 & Hh3 & Hz3 & Hx3 & Hs3).
  set (r3 := (exec (SADD "all_followers" _) r2).1) in *.
  pose proof (followers_key_ne_following e f) as Hne1.
  pose proof (followers_key_ne_all e) as Hne2.
  pose proof (following_key_ne_all f) as Hne3.
  split_and!; [congruence..| | | |].
  - rewrite Hx1, Hx2, Hx3, !Hs2, !Hs1. by key_decide.
  - intros k. rewrite Hs3; key_decide. rewrite Hs2; key_decide. rewrite Hs1.
    destruct (decide (k = e)) as [->|Hne]; by key_decide.
  - intros k. rewrite Hs3; key_decide. rewrite Hs2, Hs1.
    destruct (decide (k = f)) as [->|Hne]; by key_decide.
  - rewrite Hs3; key_decide. rewrite Hs2; key_decide. rewrite Hs1. by key_decide.
Qed.

Lemma edge_stored_execute_edge e0 r e :
  edge_stored (execute (edge_cmds e0) r).1 e ↔ edge_stored r e ∨ e = e0.
Proof.
  destruct (execute_edge e0 r) as (_ & _ & _ & _ & Hs & _ & _).
  destruct e as [f k], e0 as [f0 k0]. unfold edge_stored. cbn [fst snd] in *.
  rewrite Hs. destruct (decide (k = k0)) as [->|Hne].
  - rewrite elem_of_union, elem_of_singleton. split.
    + intros [Heq%(inj Py.str)|?]; [right; congruence|by left].
    + intros [?|[= ->]]; auto.
  - split; [by left|]. intros [?|[= ]]; [done|congruence].
Qed.

Lemma edges_cmds_app es1 es2 :
  edges_cmds (es1 ++ es2) = edges_cmds es1 ++ edges_cmds es2.
Proof. apply bind_app. Qed.

Lemma edges_cmds_cons e es : edges_cmds (e :: es) = edge_cmds e ++ edges_cmds es.
Proof. apply bind_cons. Qed.

Lemma edges_cmds_snoc es e :
  edges_cmds es ++ edge_cmds e = edges_cmds (es ++ [e]).
Proof. rewrite edges_cmds_app. by f_equal. Qed.

Lemma count_added_cons r e es :
  count_added r (e :: es) =
  (if decide (edge_stored r e) then 0 else 1)
  + count_added (execute (edge_cmds e) r).1 es.
Proof. reflexivity. Qed.

Lemma count_added_app r es1 es2 :
  count_added r (es1 ++ es2) =
  count_added r es1 + count_added (execute (edges_cmds es1) r).1 es2.
Proof.
  revert r. induction es1 as [|e es1 IH]; intros r; [done|].
  rewrite edges_cmds_cons, execute_app. cbn [fst].
  rewrite <- app_comm_cons, !count_added_cons, IH. lia.
Qed.

Lemma sum_ints_edges es r :
  sum_ints (every_third (execute (edges_cmds es) r).2) = Some (count_added r es).
Proof.
  revert r. induction es as [|e es IH]; intros r; [done|].
  rewrite edges_cmds_cons, execute_app. cbn [snd].
  destruct (execute_edge e r) as (_ & _ & _ & -> & _).
  simpl. by rewrite IH.
Qed.

Lemma flush_edges es inserted r :
  flush (edges_cmds es) inserted r =
  (Return (inserted + count_added r es), (execute (edges_cmds es) r).1).
Proof.
  unfold flush. pose proof (sum_ints_edges es r) as Hsum.
  destruct (execute (edges_cmds es) r) as [r' results]. cbn [snd] in Hsum.
  by rewrite Hsum.
Qed.

(** *** One iteration of the loader's loop *)

Lemma load_loop_blank line lines pipe ops inserted r :
  parse_line line = Some None →
  load_loop (line :: lines) pipe ops inserted r = load_loop lines pipe ops inserted r.
Proof.
  unfold parse_line. simpl. case_decide; [done|].
  destruct (Py.split_comma _) as [[a b]|]; [|done].
  destruct (Py.int a); [|done]. by destruct (Py.int b).
Qed.

Lemma load_loop_bad line lines pipe ops inserted r :
  parse_line line = None →
  load_loop (line :: lines) pipe ops inserted r = (Raise ValueError, r).
Proof.
  unfold parse_line. simpl. case_decide; [done|].
  destruct (Py.split_comma _) as [[a b]|]; [|done].
  destruct (Py.int a); [|done]. by destruct (Py.int b).
Qed.

Lemma load_loop_edge line lines pipe ops inserted r e :
  parse_line line = Some (Some e) →
  load_loop (line :: lines) pipe ops inserted r =
  if 3000 <=? ops + 3
  then match flush (pipe ++ edge_cmds e) inserted r with
       | (Return inserted, r) => load_loop lines [] 0 inserted r
       | (Raise e, r) => (Raise e, r)
       end
  else load_loop lines (pipe ++ edge_cmds e) (ops + 3) inserted r.
Proof.
  unfold parse_line. simpl. case_decide; [done|].
  destruct (Py.split_comma _) as [[a b]|]; [|done].
  destruct (Py.int a); [|done]. destruct (Py.int b); [|done].
  by intros [= <-].
Qed.

(** A load whose lines all parse writes every edge, whatever the chunking,
    and counts the edges that were new. *)
Lemma load_loop_ok lines es pending inserted r :
  parse_lines lines = Some es →
  load_loop lines (edges_cmds pending) (3 * Z.of_nat (length pending)) inserted r =
  (Return (inserted + count_added r (pending ++ es)),
   (execute (edges_cmds (pending ++ es)) r).1).
Proof.
  revert es pending inserted r.
  induction lines as [|line lines IH]; intros es pending inserted r Hparse.
  { injection Hparse as <-. rewrite app_nil_r. simpl.
    destruct pending as [|e pending].
    - simpl. by rewrite Z.add_0_r.
    - destruct (Z.eqb_spec (3 * Z.of_nat (length (e :: pending))) 0) as [H0|_].
      { rewrite length_cons in H0. lia. }
      apply flush_edges. }
  simpl in Hparse. destruct (parse_line line) as [[e|]|] eqn:Hline; [| |done].
  - destruct (parse_lines lines) as [es'|] eqn:Hlines; [|done].
    injection Hparse as <-.
    rewrite (load_loop_edge _ _ _ _ _ _ e) by done.
    rewrite edges_cmds_snoc.
    replace (3 * Z.of_nat (length pending) + 3)
      with (3 * Z.of_nat (length (pending ++ [e]))) by (rewrite length_app; simpl; lia).
    replace (pending ++ e :: es') with ((pending ++ [e]) ++ es') by by rewrite <- app_assoc.
    destruct (3000 <=? _).
    + rewrite flush_edges.
      rewrite (IH es' [] _ _ eq_refl), !app_nil_l.
      rewrite (count_added_app r (pending ++ [e]) es').
      rewrite (edges_cmds_app (pending ++ [e]) es'), execute_app. cbn [fst].
      by rewrite Z.add_assoc.
    + by apply IH.
  - rewrite load_loop_blank by done. by apply IH.
Qed.

(** A line that does not parse makes the load fail. *)
Lemma load_loop_err lines pending inserted r :
  parse_lines lines = None →
  ∃ r', load_loop lines (edges_cmds pending) (3 * Z.of_nat (length pending)) inserted r
        = (Raise ValueError, r').
Proof.
  revert pending inserted r.
  induction lines as [|line lines IH]; intros pending inserted r Hparse; [done|].
  simpl in Hparse. destruct (parse_line line) as [[e|]|] eqn:Hline.
  - destruct (parse_lines lines) as [es'|] eqn:Hlines; [done|].
    rewrite (load_loop_edge _ _ _ _ _ _ e) by done.
    rewrite edges_cmds_snoc.
    replace (3 * Z.of_nat (length pending) + 3)
      with (3 * Z.of_nat (length (pending ++ [e]))) by (rewrite length_app; simpl; lia).
    destruct (3000 <=? _).
    + rewrite flush_edges. apply (IH [] _ _ eq_refl).
    + by apply IH.
  - rewrite load_loop_blank by done. by apply IH.
  - rewrite load_loop_bad by done. eauto.
Qed.

(** Whatever the outcome, the store after a load is the store in which the
    writes of some edges have run. *)
Lemma load_loop_store lines pending inserted r :
  ∃ es, (load_loop lines (edges_cmds pending) (3 * Z.of_nat (length pending))
                   inserted r).2
        = (execute (edges_cmds es) r).1.
Proof.
  revert pending inserted r.
  induction lines as [|line lines IH]; intros pending inserted r.
  { simpl. destruct (_ =? 0).
    - by exists [].
    - exists pending. by rewrite flush_edges. }
  destruct (parse_line line) as [[e|]|] eqn:Hline.
  - rewrite (load_loop_edge _ _ _ _ _ _ e) by done.
    rewrite edges_cmds_snoc.
    replace (3 * Z.of_nat (length pending) + 3)
      with (3 * Z.of_nat (length (pending ++ [e]))) by (rewrite length_app; simpl; lia).
    destruct (3000 <=? _).
    + rewrite flush_edges.
      destruct (IH [] (inserted + count_added r (pending ++ [e]))
                  (execute (edges_cmds (pending ++ [e])) r).1) as [es Hes].
      exists ((pending ++ [e]) ++ es).
      rewrite (edges_cmds_app (pending ++ [e]) es), execute_app. cbn [fst].
      apply Hes.
    + apply IH.
  - rewrite load_loop_blank by done. apply IH.
  - rewrite load_loop_bad by done. by exists [].
Qed.

Lemma elem_of_fresh_edges r es e :
  e ∈ fresh_edges r es ↔ e ∈ es ∧ ¬ edge_stored r e.
Proof. unfold fresh_edges. rewrite elem_of_list_to_set, list_elem_of_filter. tauto. Qed.

Lemma count_added_fresh r es :
  count_added r es = Z.of_nat (size (fresh_edges r es)).
Proof.
  revert r. induction es as [|e es IH]; intros r; [done|].
  rewrite count_added_cons, IH.
  destruct (decide (edge_stored r e)) as [Hin|Hnin].
  - rewrite Z.add_0_l. do 2 f_equal. apply set_eq. intros x.
    rewrite !elem_of_fresh_edges, elem_of_cons, edge_stored_execute_edge.
    split; [tauto|]. intros [[->|Hx] Hs]; [done|].
    split; [done|]. by intros [?| ->].
  - assert (fresh_edges r (e :: es)
            = {[e]} ∪ fresh_edges (execute (edge_cmds e) r).1 es) as ->.
    { apply set_eq. intros x.
      rewrite elem_of_union, elem_of_singleton, !elem_of_fresh_edges, elem_of_cons,
        edge_stored_execute_edge.
      destruct (decide (x = e)) as [->|Hne]; [tauto|]. tauto. }
    rewrite size_union, size_singleton; [lia|].
    apply disjoint_singleton_l. rewrite elem_of_fresh_edges, edge_stored_execute_edge.
    tauto.
Qed.

Lemma fresh_edges_none_stored r es :
  (∀ e, e ∈ es → ¬ edge_stored r e) → fresh_edges r es = list_to_set es.
Proof.
  intros Hes. apply set_eq. intros x.
  rewrite elem_of_fresh_edges, elem_of_list_to_set. split; [tauto|]. auto.
Qed.

Lemma size_list_to_set_le (es : list (Z * Z)) :
  (size (list_to_set es : gset (Z * Z)) ≤ length es)%nat.
Proof.
  induction es as [|e es IH]; [done|].
  rewrite list_to_set_cons, size_union_alt, size_singleton, length_cons.
  assert (size (list_to_set es ∖ {[e]} : gset (Z * Z)) ≤ size (list_to_set es : gset (Z * Z)))%nat
    by (apply subseteq_size; set_solver).
  lia.
Qed.

Lemma size_list_to_set_dup (es : list (Z * Z)) :
  ¬ NoDup es → (size (list_to_set es : gset (Z * Z)) < length es)%nat.
Proof.
  induction es as [|e es IH]; intros Hdup.
  { destruct Hdup. constructor. }
  rewrite list_to_set_cons, length_cons.
  destruct (decide (e ∈ es)) as [Hin|Hnin].
  - replace ({[e]} ∪ list_to_set es) with (list_to_set es : gset (Z * Z)).
    2: { apply set_eq. intros x. rewrite elem_of_union, elem_of_singleton,
           elem_of_list_to_set. split; [tauto|]. by intros [->|?]. }
    pose proof (size_list_to_set_le es). lia.
  - rewrite size_union, size_singleton.
    2: { apply disjoint_singleton_l. by rewrite elem_of_list_to_set. }
    assert (¬ NoDup es) as Hdup' by (intros ?; apply Hdup; by constructor).
    specialize (IH Hdup'). lia.
Qed.

(** ** The store invariant *)

Lemma store_ok_empty : store_ok Redis.empty.
Proof. by split. Qed.

(** *** Trimming only removes entries *)

Lemma elem_of_unslice {A} (x : A) l a b : x ∈ unslice l a b → x ∈ l.
Proof.
  unfold unslice. destruct (rank_range _ _ _) as [[a' b']|]; [|done].
  rewrite elem_of_app. intros [Hx|Hx].
  - rewrite <- (take_drop (Z.to_nat a') l). apply elem_of_app. by left.
  - by eapply elem_of_drop_weaken.
Qed.

Lemma zremrangebyrank_val_lookup (z : gmap string Z) a b m s :
  zremrangebyrank_val z a b !! m = Some s → z !! m = Some s.
Proof.
  unfold zremrangebyrank_val. intros Hm%elem_of_list_to_map_2.
  by apply elem_of_unslice, elem_of_zrange_all in Hm.
Qed.

Section frames.
Context (sscan_iter : gset string → list string).
Context (self : api).

Lemma deliver_lookup m s z m' s' :
  deliver self m s z !! m' = Some s' → z !! m' = Some s' ∨ m' = m.
Proof.
  unfold deliver. intros Hm.
  assert (<[m := s]> z !! m' = Some s') as Hin.
  { destruct (timeline_max_size self); [|done]. by eapply zremrangebyrank_val_lookup. }
  destruct (decide (m = m')) as [->|Hne]; [by right|].
  left. by rewrite lookup_insert_ne in Hin.
Qed.

Lemma execute_fanout_frame m s ids r :
  let r' := (execute (fanout_cmds self m s ids) r).1 in
  counters r' = counters r ∧ hashes r' = hashes r ∧ sets r' = sets r ∧
  ∀ k m' s', zset_at r' k !! m' = Some s' → zset_at r k !! m' = Some s' ∨ m' = m.
Proof.
  revert r. induction ids as [|f ids IH]; intros r.
  { simpl. repeat split; auto. }
  cbv zeta. unfold fanout_cmds. rewrite bind_cons. fold (fanout_cmds self m s ids).
  rewrite execute_app. cbn [fst].
  destruct (execute_write self (_timeline_key f) m s r) as (Hc & Hh & Hs & Hz).
  destruct (IH (execute (ZADD (_timeline_key f) m s :: trim self (_timeline_key f)) r).1)
    as (Hc' & Hh' & Hs' & Hz').
  repeat split; [congruence..|].
  intros k m' s' Hk. apply Hz' in Hk as [Hk|?]; [|by right].
  rewrite Hz in Hk. case_decide; [subst|by left]. by apply deliver_lookup in Hk.
Qed.

(** What a post leaves unchanged, whatever the cap. *)
Lemma post_tweet_frame t user text r :
  counter r < int64_max →
  let r' := (post_tweet sscan_iter self t user text r).2 in
  counter r' = counter r + 1 ∧ sets r' = sets r ∧
  (∀ k, hash_at r' k =
        if decide (k = _tweet_key (counter r + 1))
        then list_to_map (tweet_fields t user text) ∪ hash_at r k
        else hash_at r k) ∧
  ∀ k m s, zset_at r' k !! m = Some s →
           zset_at r k !! m = Some s ∨ m = Py.str (counter r + 1).
Proof.
  intros Hmax. cbv zeta. rewrite post_tweet_exec by done. cbn [snd].
  set (id := counter r + 1).
  destruct (exec_HSET (_tweet_key id) (tweet_fields t user text) (incremented r))
    as (Hc0 & Hs0 & Hz0 & Hh0).
  set (r0 := (exec (HSET _ _) _).1) in *.
  destruct (execute_write self (_timeline_key user) (Py.str id) (ts_ms t) r0)
    as (Hc1 & Hh1 & Hs1 & Hz1).
  set (r1 := (execute (ZADD _ _ _ :: _) r0).1) in *.
  destruct (execute_fanout_frame (Py.str id) (ts_ms t)
              (omap Py.int (sscan_iter (set_at r (_followers_key user)))) r1)
    as (Hc2 & Hh2 & Hs2 & Hz2).
  repeat split.
  - unfold counter at 1. rewrite Hc2, Hc1, Hc0. simpl. by rewrite lookup_insert_eq.
  - by rewrite Hs2, Hs1, Hs0.
  - intros k. unfold hash_at at 1. rewrite Hh2, Hh1. fold (hash_at r0 k).
    rewrite (Hh0 k). case_decide; by subst.
  - intros k m s Hk. apply Hz2 in Hk as [Hk|?]; [|by right].
    rewrite Hz1 in Hk. unfold zset_at in Hk at 1 2. rewrite Hz0 in Hk.
    case_decide; [subst|by left]. by apply deliver_lookup in Hk.
Qed.

Lemma post_tweet_store_ok t user text r :
  store_ok r → store_ok (post_tweet sscan_iter self t user text r).2.
Proof.
  intros [Hc Hm Hh Hf He Hsm].
  destruct (decide (counter r < int64_max)) as [Hmax|Hmax].
  2: { rewrite post_tweet_overflow by done. by split. }
  destruct (post_tweet_frame t user text r Hmax) as (Hc' & Hs' & Hh' & Hz').
  set (r' := (post_tweet _ _ _ _ _ _).2) in *.
  assert (∀ k, set_at r' k = set_at r k) as Hset.
  { intros k. unfold set_at. by rewrite Hs'. }
  split.
  - lia.
  - intros k m s Hk. apply Hz' in Hk as [Hk| ->]; eauto.
  - intros k. rewrite Hh'. case_decide; [|apply Hh].
    intros _. exists user. apply lookup_union_Some_l. by simpl.
  - intros m. rewrite Hset. apply Hf.
  - intros k m. rewrite !Hset. apply He.
  - intros m. rewrite Hset. intros [k Hk]%Hsm. exists k. by rewrite Hset.
Qed.

End frames.

(** *** The loader *)

Lemma execute_edges_store_ok es r :
  store_ok r → store_ok (execute (edges_cmds es) r).1.
Proof.
  revert r. induction es as [|e es IH]; intros r Hok; [done|].
  rewrite edges_cmds_cons, execute_app. cbn [fst]. apply IH.
  destruct Hok as [Hc Hm Hh Hf He Hsm].
  destruct (execute_edge e r) as (Hc' & Hh' & Hz' & _ & Hfo & _ & Hall).
  set (r' := (execute (edge_cmds e) r).1) in *.
  split.
  - unfold counter. by rewrite Hc'.
  - intros k m s. unfold zset_at. rewrite Hz'. apply Hm.
  - intros k. unfold hash_at. rewrite Hh'. apply Hh.
  - intros m. rewrite Hall, elem_of_union, elem_of_singleton. intros [-> |?]; eauto.
  - intros k m. rewrite Hfo, Hall. case_decide; set_solver.
  - intros m. rewrite Hall, elem_of_union, elem_of_singleton. intros [-> |Hin].
    + exists e.2. rewrite Hfo, decide_True by done. set_solver.
    + apply Hsm in Hin as [k Hk]. exists k. rewrite Hfo. case_decide; set_solver.
Qed.

Lemma load_follows_csv_store lines has_header r :
  ∃ es, (load_follows_csv lines has_header r).2 = (execute (edges_cmds es) r).1.
Proof. unfold load_follows_csv. apply (load_loop_store _ []). Qed.

Lemma load_follows_csv_store_ok lines has_header r :
  store_ok r → store_ok (load_follows_csv lines has_header r).2.
Proof.
  intros Hok. destruct (load_follows_csv_store lines has_header r) as [es ->].
  by apply execute_edges_store_ok.
Qed.

Section histories.
Context (sscan_iter : gset string → list string).
Context (self : api).

Lemma step_store_ok c r :
  store_ok r → store_ok (step sscan_iter self c r).2.
Proof.
  destruct c; simpl.
  - apply post_tweet_store_ok.
  - apply load_follows_csv_store_ok.
Qed.

Lemma run_store_ok calls r :
  store_ok r → store_ok (run sscan_iter self calls r).
Proof.
  revert r. induction calls as [|c calls IH]; intros r Hok; [done|].
  simpl. apply IH. by apply step_store_ok.
Qed.

Lemma reachable_store_ok r : reachable sscan_iter self r → store_ok r.
Proof. intros [calls ->]. apply run_store_ok, store_ok_empty. Qed.

End histories.

(** ** Reading *)

Lemma rank_range_head (len n : Z) :
  0 ≤ n →
  rank_range len 0 n =
  if len <=? 0 then None else Some (0, if len <=? n then len - 1 else n).
Proof. intros Hn. unfold rank_range. case_cmp; simpl; try lia; done. Qed.

Lemma slice_0 {A} (l : list A) (n : Z) :
  0 ≤ n → slice l 0 n = take (Z.to_nat (n + 1)) l.
Proof.
  intros Hn. unfold slice. rewrite rank_range_head by done.
  destruct (Z.leb_spec (Z.of_nat (length l)) 0) as [Hlen|Hlen].
  { destruct l; [by rewrite take_nil|simpl in Hlen; lia]. }
  rewrite drop_0. destruct (Z.leb_spec (Z.of_nat (length l)) n) as [Hle|Hgt].
  - rewrite !take_ge by lia. done.
  - by rewrite Z.sub_0_r.
Qed.

Lemma zrevrange_top10 r key : zrevrange r key 0 9 = (top10 (zset_at r key)).*1.
Proof. unfold zrevrange. by rewrite slice_0. Qed.

Lemma elem_of_top10 z m s : (m, s) ∈ top10 z → z !! m = Some s.
Proof.
  unfold top10. intros Hin. apply elem_of_zrange_all, elem_of_reverse.
  rewrite <- (take_drop 10 (reverse _)). apply elem_of_app. by left.
Qed.

Lemma execute_hgetall (ids : list Z) r :
  execute ((λ tid, HGETALL (_tweet_key tid)) <$> ids) r =
  (r, (λ tid, Dict (hash_at r (_tweet_key tid))) <$> ids).
Proof.
  induction ids as [|id ids IH]; [done|].
  rewrite !fmap_cons, execute_cons. cbn [exec fst snd]. by rewrite IH.
Qed.

Lemma collect_cons m h rows :
  collect ((m, Dict h) :: rows) =
  if decide (h = ∅) then collect rows
  else match Py.int m, Py.int (default "0" (h !! "user_id")) with
       | Some tweet_id, Some user_id =>
           match collect rows with
           | Return out =>
               Return (mkTweet tweet_id user_id (default "" (h !! "tweet_ts"))
                               (default "" (h !! "tweet_text")) :: out)
           | Raise e => Raise e
           end
       | _, _ => Raise ValueError
       end.
Proof. reflexivity. Qed.

Lemma resolve_str r id :
  resolve r (Py.str id) =
  let h := hash_at r (_tweet_key id) in
  if decide (h = ∅) then None
  else Some (mkTweet id (default 0 (Py.int (default "0" (h !! "user_id"))))
                     (default "" (h !! "tweet_ts")) (default "" (h !! "tweet_text"))).
Proof. unfold resolve. by rewrite int_str. Qed.

Lemma collect_resolve r (ms : list string) :
  store_ok r → (∀ m, m ∈ ms → ∃ id, m = Py.str id) →
  ∃ ids, mapM Py.int ms = Some ids ∧
         collect (zip ms ((λ tid, Dict (hash_at r (_tweet_key tid))) <$> ids))
         = Return (omap (resolve r) ms).
Proof.
  intros Hok. induction ms as [|m ms IH]; intros Hms.
  { by exists []. }
  destruct (Hms m) as [id ->]; [by left|].
  destruct IH as (ids & Hids & Hcollect).
  { intros m' Hm'. apply Hms. by right. }
  exists (id :: ids). split.
  { simpl. rewrite int_str. simpl. by rewrite Hids. }
  rewrite fmap_cons.
  change (zip (?a :: ?l) (?b :: ?k)) with ((a, b) :: zip l k).
  rewrite collect_cons, Hcollect.
  change (omap (resolve r) (Py.str id :: ms))
    with (match resolve r (Py.str id) with
          | Some y => y :: omap (resolve r) ms
          | None => omap (resolve r) ms
          end).
  rewrite resolve_str. cbv zeta.
  destruct (decide (hash_at r (_tweet_key id) = ∅)) as [Hempty|Hne]; [done|].
  destruct (ok_hashes r Hok _ Hne) as [u Hu].
  rewrite Hu. simpl. by rewrite !int_str.
Qed.

(** On a store of the API the reader returns, and its result is the tweets
    of the ten best entries whose records exist. *)
Lemma get_home_timeline_ok user r :
  store_ok r →
  get_home_timeline user r =
  Return (omap (resolve r) (top10 (zset_at r (_timeline_key user))).*1).
Proof.
  intros Hok. unfold get_home_timeline. rewrite zrevrange_top10.
  set (ms := (top10 _).*1).
  destruct (collect_resolve r ms Hok) as (ids & Hids & Hcollect).
  { intros m [[m' s] [-> Hin]]%list_elem_of_fmap.
    apply elem_of_top10 in Hin. by eapply ok_members. }
  destruct ms as [|m ms]; [done|].
  rewrite Hids, execute_hgetall. done.
Qed.

(** *** Where an entry ranks *)

Lemma zrange_all_split (z : gmap string Z) m s :
  z !! m = Some s →
  ∃ a b, zrange_all z = a ++ (m, s) :: b ∧
         Forall (λ y, ¬ zle y (m, s)) b.
Proof.
  intros Hm%elem_of_zrange_all.
  apply list_elem_of_split in Hm as (a & b & Hab). exists a, b. split; [done|].
  pose proof (zrange_all_sorted z) as Hs. pose proof (zrange_all_NoDup z) as Hn.
  rewrite Hab in Hs, Hn. apply StronglySorted_app_1_r in Hs.
  rewrite fmap_app, fmap_cons in Hn. apply NoDup_app in Hn as (_ & _ & Hn).
  apply NoDup_cons in Hn as [Hn _]. apply StronglySorted_cons in Hs as [Hs _].
  rewrite Forall_forall in Hs |- *. intros [m' s'] Hin Hle.
  assert ((m', s') = (m, s)) as [= -> ->] by (apply (anti_symm zle); auto).
  apply Hn. apply list_elem_of_fmap. by exists (m, s).
Qed.

Lemma rank_above_insert (z : gmap string Z) m s b :
  NoDup b → (∀ y, y ∈ b → <[m := s]> z !! y.1 = Some y.2 ∧ ¬ zle y (m, s)) →
  (length b ≤ rank_above (m, s) z)%nat.
Proof.
  intros Hnodup Hb. unfold rank_above. apply submseteq_length, NoDup_submseteq; [done|].
  intros [m' s'] Hin. destruct (Hb _ Hin) as [Hz Hnle]. simpl in Hz.
  apply list_elem_of_filter. split; [done|]. apply elem_of_map_to_list.
  rewrite lookup_insert in Hz. case_decide as Hm; [|done].
  destruct Hnle. injection Hz as <-. subst. reflexivity.
Qed.

Lemma top10_elem_of (z : gmap string Z) a x b :
  zrange_all z = a ++ x :: b → (length b < 10)%nat → x ∈ top10 z.
Proof.
  intros Hz Hb. unfold top10. rewrite Hz, reverse_app, reverse_cons, <- app_assoc.
  apply elem_of_take. exists (length b). split; [|done].
  rewrite lookup_app_r by by rewrite length_reverse.
  by rewrite length_reverse, Nat.sub_diag.
Qed.

Lemma top10_head (z : gmap string Z) a x :
  zrange_all z = a ++ [x] → top10 z = x :: take 9 (reverse a).
Proof. intros Hz. unfold top10. by rewrite Hz, reverse_app. Qed.

Section deliver_rank.
Context (self : api).

(** After the write the new entry has at most as many entries above it as
    the timeline had before, provided the cap leaves room for it. *)
Lemma deliver_rank m s (z : gmap string Z) :
  cap_ok self →
  (∀ cap, timeline_max_size self = Some cap →
           Z.of_nat (rank_above (m, s) z) < cap) →
  ∃ a b, zrange_all (deliver self m s z) = a ++ (m, s) :: b ∧
         (length b ≤ rank_above (m, s) z)%nat.
Proof.
  intros Hcap Hroom.
  destruct (zrange_all_split (<[m := s]> z) m s) as (a & b & Hab & Hb);
    [apply lookup_insert_eq|].
  assert (length b ≤ rank_above (m, s) z)%nat as Hlen.
  { apply rank_above_insert.
    - pose proof (zrange_all_NoDup (<[m := s]> z)) as Hn. rewrite Hab in Hn.
      apply NoDup_fmap_1 in Hn. apply NoDup_app in Hn as (_ & _ & Hn).
      by apply NoDup_cons in Hn as [_ Hn].
    - intros [m' s'] Hin. split.
      + apply elem_of_zrange_all. rewrite Hab. apply elem_of_app. right. by right.
      + rewrite Forall_forall in Hb. by apply Hb. }
  unfold deliver. destruct (timeline_max_size self) as [cap|] eqn:Hsize.
  - rewrite zremrangebyrank_val_top by auto. rewrite zrange_all_top, Hab.
    specialize (Hroom cap eq_refl).
    assert (size (<[m := s]> z) = length a + S (length b))%nat as ->.
    { by rewrite <- zrange_all_length, Hab, length_app. }
    exists (drop (length a + S (length b) - Z.to_nat cap) a), b.
    split; [|done]. apply drop_app_le. lia.
  - by exists a, b.
Qed.

End deliver_rank.

(** ** A post, then a read *)

Section post_read.
Context (sscan_iter : gset string → list string).
Context (sscan_iter_spec : ∀ (s : gset string) x, x ∈ sscan_iter s ↔ x ∈ s).
Context (self : api).

Lemma elem_of_fanout_targets user r u :
  u ∈ fanout_targets sscan_iter user r ↔
  u = user ∨ ∃ m, m ∈ set_at r (_followers_key user) ∧ Py.int m = Some u.
Proof.
  unfold fanout_targets. rewrite elem_of_cons, list_elem_of_omap.
  by setoid_rewrite sscan_iter_spec.
Qed.

Lemma timeline_key_elem_of (u : Z) (ids : list Z) :
  _timeline_key u ∈ _timeline_key <$> ids ↔ u ∈ ids.
Proof.
  rewrite list_elem_of_fmap. split.
  - by intros (u' & ->%timeline_key_inj & ?).
  - intros ?. by exists u.
Qed.

(** The record that a post stores resolves to the posted tweet. *)
Lemma resolve_posted t user text r r' :
  (∀ k, hash_at r' k =
        if decide (k = _tweet_key (counter r + 1))
        then list_to_map (tweet_fields t user text) ∪ hash_at r k
        else hash_at r k) →
  resolve r' (Py.str (counter r + 1))
  = Some (mkTweet (counter r + 1) user (ts_str t) text).
Proof.
  intros Hh. rewrite resolve_str. cbv zeta.
  rewrite Hh, (decide_True (P := _tweet_key _ = _)) by done.
  set (h := list_to_map _ ∪ _).
  assert (h !! "user_id" = Some (Py.str user)) as Hu
    by by apply lookup_union_Some_l.
  assert (h !! "tweet_ts" = Some (ts_str t)) as Hts
    by by apply lookup_union_Some_l.
  assert (h !! "tweet_text" = Some text) as Htext
    by by apply lookup_union_Some_l.
  rewrite decide_False.
  2: { intros Hempty. by rewrite Hempty in Hu. }
  by rewrite Hu, Hts, Htext; simpl; rewrite int_str.
Qed.

(** A post, then a read by one of the users it writes to: the reader
    returns, and shows the post when fewer than ten entries (and fewer than
    the cap) rank above it. *)
Lemma post_then_read t user text r u :
  store_ok r → cap_ok self → counter r < int64_max →
  u ∈ fanout_targets sscan_iter user r →
  let x := (Py.str (counter r + 1), ts_ms t) in
  let z := zset_at r (_timeline_key u) in
  (rank_above x z < 10)%nat →
  (∀ cap, timeline_max_size self = Some cap → Z.of_nat (rank_above x z) < cap) →
  ∃ r' out,
    post_tweet sscan_iter self t user text r = (Return (counter r + 1), r') ∧
    get_home_timeline u r' = Return out ∧
    mkTweet (counter r + 1) user (ts_str t) text ∈ out ∧
    (rank_above x z = 0%nat →
     head out = Some (mkTweet (counter r + 1) user (ts_str t) text)).
Proof.
  intros Hok Hcap Hmax Hu x z Hten Hroom. subst x z.
  destruct (post_tweet_spec sscan_iter self t user text r Hcap Hmax)
    as (r' & Hpost & Hc & Hs & Hh & Hz).
  exists r'. eexists. split; [done|].
  assert (store_ok r') as Hok'.
  { replace r' with (post_tweet sscan_iter self t user text r).2 by by rewrite Hpost.
    by apply post_tweet_store_ok. }
  rewrite get_home_timeline_ok by done. split; [done|].
  rewrite Hz, decide_True by by apply timeline_key_elem_of.
  destruct (deliver_rank self _ _ _ Hcap Hroom) as (a & b & Hab & Hb).
  pose proof (resolve_posted t user text r r' Hh) as Hres.
  split.
  - apply list_elem_of_omap. exists (Py.str (counter r + 1)). split; [|done].
    apply list_elem_of_fmap. exists (Py.str (counter r + 1), ts_ms t).
    split; [done|]. eapply top10_elem_of; [done|]. lia.
  - intros H0. destruct b as [|y b]; [|simpl in Hb; lia].
    rewrite (top10_head _ _ _ Hab). simpl. by rewrite Hres.
Qed.

End post_read.

Lemma rank_above_0 x (z : gmap string Z) :
  (∀ m s, z !! m = Some s → zle (m, s) x) → rank_above x z = 0%nat.
Proof.
  intros Hz. unfold rank_above.
  destruct (filter _ (map_to_list z)) as [|[m s] l] eqn:Hf; [done|].
  assert ((m, s) ∈ filter (λ y, ¬ zle y x) (map_to_list z)) as Hin
    by (rewrite Hf; left).
  apply list_elem_of_filter in Hin as [Hn Hin%elem_of_map_to_list].
  destruct Hn. by apply Hz.
Qed.

Section claims.
Context (sscan_iter : gset string → list string).
Context (sscan_iter_spec : ∀ (s : gset string) x, x ∈ sscan_iter s ↔ x ∈ s).
Context (self : api).

(** C3, amended: after [post_tweet] returns [post_id], the first element of
    the author's home timeline is the tweet with that id, the author and the
    text, provided that no entry already in the author's timeline ranks
    above the new one (each has a lower score, or the same score and a
    member string that does not sort after the new id's) and that the cap,
    when one is configured, is at least 1. *)
Theorem C3_own_timeline_head t user text r :
  reachable sscan_iter self r →
  counter r < int64_max →
  (∀ cap, timeline_max_size self = Some cap → 1 ≤ cap) →
  (∀ m s, zset_at r (_timeline_key user) !! m = Some s →
          zle (m, s) (Py.str (counter r + 1), ts_ms t)) →
  ∃ r' rest,
    post_tweet sscan_iter self t user text r = (Return (counter r + 1), r') ∧
    get_home_timeline user r' =
      Return (mkTweet (counter r + 1) user (ts_str t) text :: rest).
Proof.
  intros Hreach Hmax Hcap Hnewest.
  pose proof (rank_above_0 _ _ Hnewest) as H0.
  destruct (post_then_read sscan_iter self t user text r user)
    as (r' & out & Hpost & Hread & _ & Hhead).
  - by eapply reachable_store_ok.
  - intros cap Hc. specialize (Hcap cap Hc). lia.
  - done.
  - apply list_elem_of_here.
  - rewrite H0. lia.
  - intros cap Hc. specialize (Hcap cap Hc). rewrite H0. lia.
  - specialize (Hhead H0). destruct out as [|tw rest]; [done|].
    injection Hhead as ->. by exists r', rest.
Qed.

End claims.

Lemma C3_own_timeline_head_witness :
  ∃ r' rest,
    post_tweet elements (Api (Some 5)) (Now 1000 "t") 2 "third" posted_store
      = (Return (counter posted_store + 1), r') ∧
    get_home_timeline 2 r'
      = Return (mkTweet (counter posted_store + 1) 2 (ts_str (Now 1000 "t")) "third"
                :: rest).
Proof.
  apply (C3_own_timeline_head elements (Api (Some 5)) (Now 1000 "t") 2 "third"
           posted_store).
  - exists [PostTweet (Now 1000 "t") 2 "first"; PostTweet (Now 1000 "t") 2 "second"].
    reflexivity.
  - vm_compute. reflexivity.
  - intros cap [= <-]. lia.
  - intros m s Hm.
    assert (zset_at posted_store (_timeline_key 2) = <["1" := 1000]> (<["2" := 1000]> ∅))
      as Hz by (vm_compute; reflexivity).
    rewrite Hz in Hm.
    apply lookup_insert_Some in Hm as [[<- <-]|[_ Hm]].
    { right. split; [reflexivity|]. vm_compute. exact I. }
    apply lookup_insert_Some in Hm as [[<- <-]|[_ Hm]].
    { right. split; [reflexivity|]. vm_compute. exact I. }
    discriminate Hm.
Defined.

(** C3 as stated fails: the tenth of ten posts made by one author within a
    millisecond gets id 10, and the author's home timeline then starts with
    tweet 9, because equal scores are ordered by member string. *)
Lemma C3_counterexample :
  ∃ r' tw rest,
    post_tweet elements (Api None) (Now 1000 "t") 2 "x" same_ms_store
      = (Return 10, r') ∧
    get_home_timeline 2 r' = Return (tw :: rest) ∧
    tweet_id tw = 9 ∧ tweet_id tw ≠ 10.
Proof.
  do 3 eexists. split; [vm_compute; reflexivity|].
  split; [vm_compute; reflexivity|]. done.
Qed.

Lemma scenario_store_reachable sscan_iter self :
  reachable sscan_iter self scenario_store.
Proof. exists [LoadFollowsCsv ["1,2"; "1,2"; "3,2"] false]. reflexivity. Qed.

Lemma scenario_store_counter : counter scenario_store = 0.
Proof. vm_compute. reflexivity. Qed.

Lemma scenario_store_timelines key : zset_at scenario_store key = ∅.
Proof. vm_compute. reflexivity. Qed.

Lemma scenario_store_followers :
  set_at scenario_store (_followers_key 2) = {["1"; "3"]}.
Proof. vm_compute. reflexivity. Qed.

Section claim_C1.
Context (sscan_iter : gset string → list string).
Context (sscan_iter_spec : ∀ (s : gset string) x, x ∈ sscan_iter s ↔ x ∈ s).
Context (self : api).

(** C1, amended: for the author and for every follower [u] whose id is in
    the author's follower set at the time of posting, [home_timeline u]
    after the post contains the new post provided that fewer than ten
    entries of [u]'s timeline, and fewer than the cap when one is
    configured, rank above it ([home_timeline] shows the ten best entries
    only); when none ranks above it, it is the first entry.  In the
    scenario with the edges (1,2), (1,2), (3,2) loaded and no cap or a cap
    of at least 1, [post(2, "hello")] makes the home timelines of 1, 3 and
    2 start with the new post. *)
Theorem C1_fanout_reaches_followers :
  cap_ok self →
  (∀ t user text r u,
     reachable sscan_iter self r →
     counter r < int64_max →
     u = user ∨ Py.str u ∈ set_at r (_followers_key user) →
     let x := (Py.str (counter r + 1), ts_ms t) in
     let z := zset_at r (_timeline_key u) in
     (rank_above x z < 10)%nat →
     (∀ cap, timeline_max_size self = Some cap → Z.of_nat (rank_above x z) < cap) →
     ∃ r' out,
       post_tweet sscan_iter self t user text r = (Return (counter r + 1), r') ∧
       get_home_timeline u r' = Return out ∧
       mkTweet (counter r + 1) user (ts_str t) text ∈ out ∧
       (rank_above x z = 0%nat →
        head out = Some (mkTweet (counter r + 1) user (ts_str t) text))) ∧
  ((∀ cap, timeline_max_size self = Some cap → 1 ≤ cap) →
   ∀ t, ∃ r',
     post_tweet sscan_iter self t 2 "hello" scenario_store = (Return 1, r') ∧
     ∀ u, u ∈ [1; 3; 2] →
          ∃ rest, get_home_timeline u r'
                  = Return (mkTweet 1 2 (ts_str t) "hello" :: rest)).
Proof.
  intros Hcap.
  assert (∀ t user text r u,
     reachable sscan_iter self r →
     counter r < int64_max →
     u = user ∨ Py.str u ∈ set_at r (_followers_key user) →
     let x := (Py.str (counter r + 1), ts_ms t) in
     let z := zset_at r (_timeline_key u) in
     (rank_above x z < 10)%nat →
     (∀ cap, timeline_max_size self = Some cap → Z.of_nat (rank_above x z) < cap) →
     ∃ r' out,
       post_tweet sscan_iter self t user text r = (Return (counter r + 1), r') ∧
       get_home_timeline u r' = Return out ∧
       mkTweet (counter r + 1) user (ts_str t) text ∈ out ∧
       (rank_above x z = 0%nat →
        head out = Some (mkTweet (counter r + 1) user (ts_str t) text)))
    as Hgeneral.
  { intros t user text r u Hreach Hmax Hu x z Hten Hroom.
    apply (post_then_read sscan_iter self); try done.
    - by eapply reachable_store_ok.
    - apply elem_of_fanout_targets; [done|]. destruct Hu as [->|Hu]; [by left|].
      right. exists (Py.str u). split; [done|]. apply int_str. }
  split; [exact Hgeneral|].
  intros Hcap1 t.
  pose proof (scenario_store_reachable sscan_iter self) as Hreach.
  assert (∀ u x, rank_above x (zset_at scenario_store (_timeline_key u)) = 0%nat)
    as H0.
  { intros u x. by rewrite scenario_store_timelines. }
  assert (∀ cap, timeline_max_size self = Some cap → 0 < cap) as Hroom.
  { intros cap Hc. specialize (Hcap1 cap Hc). lia. }
  destruct (Hgeneral t 2 "hello" scenario_store 2 Hreach) as (r' & _ & Hpost & _).
  { rewrite scenario_store_counter. reflexivity. }
  { by left. }
  { rewrite H0. lia. }
  { intros cap Hc. rewrite H0. by apply Hroom. }
  rewrite scenario_store_counter in Hpost.
  exists r'. split; [exact Hpost|].
  intros u Hu.
  destruct (Hgeneral t 2 "hello" scenario_store u Hreach)
    as (r'' & out & Hpost' & Hread & _ & Hhead).
  { rewrite scenario_store_counter. reflexivity. }
  { rewrite scenario_store_followers, !elem_of_cons, elem_of_nil in *.
    destruct Hu as [->|[->|[->|[]]]]; [right|right|by left].
    - apply elem_of_union_l, elem_of_singleton. reflexivity.
    - apply elem_of_union_r, elem_of_singleton. reflexivity. }
  { rewrite H0. lia. }
  { intros cap Hc. rewrite H0. by apply Hroom. }
  rewrite scenario_store_counter in Hpost', Hhead.
  rewrite Hpost in Hpost'. injection Hpost' as <-.
  specialize (Hhead (H0 _ _)). destruct out as [|tw rest]; [done|].
  injection Hhead as ->. by exists rest.
Qed.

End claim_C1.

Lemma C1_fanout_reaches_followers_witness :
  ∃ r' out,
    post_tweet elements (Api None) (Now 1000 "t") 2 "hello" scenario_store
      = (Return (counter scenario_store + 1), r') ∧
    get_home_timeline 3 r' = Return out ∧
    mkTweet (counter scenario_store + 1) 2 "t" "hello" ∈ out.
Proof.
  destruct (C1_fanout_reaches_followers elements (λ s x, elem_of_elements s x)
              (Api None)) as [Hgeneral _].
  { intros cap Hc. discriminate Hc. }
  destruct (Hgeneral (Now 1000 "t") 2 "hello" scenario_store 3)
    as (r' & out & Hpost & Hread & Hin & _).
  - exists [LoadFollowsCsv ["1,2"; "1,2"; "3,2"] false]. reflexivity.
  - vm_compute. reflexivity.
  - right. vm_compute. reflexivity.
  - vm_compute. lia.
  - intros cap Hc. discriminate Hc.
  - exists r', out. split; [exact Hpost|]. split; [exact Hread|exact Hin].
Defined.

(** C1 as stated fails: user 1 follows users 2 and 3, no cap is configured,
    and user 3 has posted ten times with later time stamps; the post of
    user 2 reaches the timeline of user 1 but ranks eleventh there, and
    [home_timeline 1] does not show it. *)
Lemma C1_counterexample :
  Py.str 1 ∈ set_at busy_store (_followers_key 2) ∧
  ∃ r' out,
    post_tweet elements (Api None) (Now 1000 "t2") 2 "hello" busy_store
      = (Return 11, r') ∧
    get_home_timeline 1 r' = Return out ∧
    Forall (λ tw, tweet_id tw ≠ 11 ∧ tweet_text tw ≠ "hello") out.
Proof.
  split; [by vm_compute|].
  do 2 eexists. split; [vm_compute; reflexivity|].
  split; [vm_compute; reflexivity|].
  repeat constructor; done.
Qed.

(** *** Histories *)

Lemma execute_edges_frame es r :
  let r' := (execute (edges_cmds es) r).1 in
  counters r' = counters r ∧ hashes r' = hashes r ∧ zsets r' = zsets r.
Proof.
  revert r. induction es as [|e es IH]; intros r; [done|].
  cbv zeta. rewrite edges_cmds_cons, execute_app. cbn [fst].
  destruct (execute_edge e r) as (Hc & Hh & Hz & _).
  destruct (IH (execute (edge_cmds e) r).1) as (Hc' & Hh' & Hz').
  split_and!; congruence.
Qed.

Lemma load_follows_csv_frame lines has_header r :
  let r' := (load_follows_csv lines has_header r).2 in
  counters r' = counters r ∧ hashes r' = hashes r ∧ zsets r' = zsets r.
Proof.
  cbv zeta. destruct (load_follows_csv_store lines has_header r) as [es ->].
  apply execute_edges_frame.
Qed.

Section ids.
Context (sscan_iter : gset string → list string).
Context (self : api).

Lemma posted_ids_cons c calls r :
  posted_ids sscan_iter self (c :: calls) r =
  match c, step sscan_iter self c r with
  | PostTweet _ _ _, (Return tweet_id, r') =>
      tweet_id :: posted_ids sscan_iter self calls r'
  | _, (_, r') => posted_ids sscan_iter self calls r'
  end.
Proof. reflexivity. Qed.

Lemma posted_ids_above calls r :
  Forall (λ id, counter r < id) (posted_ids sscan_iter self calls r) ∧
  StronglySorted Z.lt (posted_ids sscan_iter self calls r).
Proof.
  revert r. induction calls as [|c calls IH]; intros r.
  { split; constructor. }
  rewrite posted_ids_cons. destruct c as [t user text|lines has_header].
  - cbn [step]. destruct (decide (counter r < int64_max)) as [Hmax|Hmax].
    + pose proof (post_tweet_frame sscan_iter self t user text r Hmax) as (Hc & _).
      pose proof (post_tweet_exec sscan_iter self t user text r Hmax) as Hexec.
      destruct (post_tweet sscan_iter self t user text r) as [o r'].
      injection Hexec as -> _. cbn [snd] in Hc.
      destruct (IH r') as [Habove Hsorted].
      rewrite Hc in Habove. split.
      * constructor; [lia|]. eapply Forall_impl; [done|]. simpl. lia.
      * constructor; [done|]. eapply Forall_impl; [done|]. simpl. lia.
    + rewrite post_tweet_overflow by done. apply IH.
  - cbn [step].
    destruct (load_follows_csv_frame lines has_header r) as (Hc & _).
    destruct (load_follows_csv lines has_header r) as [[n|e] r']; cbn [snd] in Hc.
    all: destruct (IH r') as [Habove Hsorted]; unfold counter in *;
      rewrite Hc in Habove; done.
Qed.

Lemma counter_step c r : counter r ≤ counter (step sscan_iter self c r).2.
Proof.
  destruct c as [t user text|lines has_header]; cbn [step].
  - destruct (decide (counter r < int64_max)) as [Hmax|Hmax].
    + destruct (post_tweet_frame sscan_iter self t user text r Hmax) as (-> & _). lia.
    + by rewrite post_tweet_overflow.
  - destruct (load_follows_csv_frame lines has_header r) as (Hc & _).
    unfold counter. by rewrite Hc.
Qed.

Lemma counter_run calls r : counter r ≤ counter (run sscan_iter self calls r).
Proof.
  revert r. induction calls as [|c calls IH]; intros r; [done|].
  simpl. etrans; [apply (counter_step c)|apply IH].
Qed.

(** Every post of a history returns an id, as long as the counter has room. *)
Lemma posted_ids_length calls r :
  0 ≤ counter r → counter r + Z.of_nat (posts calls) ≤ int64_max →
  length (posted_ids sscan_iter self calls r) = posts calls.
Proof.
  revert r. induction calls as [|c calls IH]; intros r Hpos Hroom; [done|].
  rewrite posted_ids_cons. destruct c as [t user text|lines has_header].
  - cbn [step posts] in *.
    assert (counter r < int64_max) as Hmax by lia.
    pose proof (post_tweet_frame sscan_iter self t user text r Hmax) as (Hc & _).
    pose proof (post_tweet_exec sscan_iter self t user text r Hmax) as Hexec.
    destruct (post_tweet sscan_iter self t user text r) as [o r'].
    injection Hexec as -> _. cbn [snd] in Hc.
    rewrite length_cons, IH; [done|lia..].
  - cbn [step posts] in *.
    destruct (load_follows_csv_frame lines has_header r) as (Hc & _).
    destruct (load_follows_csv lines has_header r) as [[n|e] r']; cbn [snd] in Hc.
    all: apply IH; unfold counter in *; by rewrite Hc.
Qed.

Lemma posted_ids_below calls r :
  Forall (λ id, id ≤ counter (run sscan_iter self calls r))
         (posted_ids sscan_iter self calls r).
Proof.
  revert r. induction calls as [|c calls IH]; intros r; [constructor|].
  rewrite posted_ids_cons.
  change (run sscan_iter self (c :: calls) r)
    with (run sscan_iter self calls (step sscan_iter self c r).2).
  pose proof (counter_run calls (step sscan_iter self c r).2) as Hle.
  specialize (IH (step sscan_iter self c r).2).
  destruct c as [t user text|lines has_header]; cbn [step] in *.
  - destruct (decide (counter r < int64_max)) as [Hmax|Hmax].
    + pose proof (post_tweet_frame sscan_iter self t user text r Hmax) as (Hc & _).
      pose proof (post_tweet_exec sscan_iter self t user text r Hmax) as Hexec.
      destruct (post_tweet sscan_iter self t user text r) as [o r'].
      injection Hexec as -> _. cbn [snd] in *.
      constructor; [lia|done].
    + rewrite post_tweet_overflow in * by done. done.
  - by destruct (load_follows_csv lines has_header r) as [[n|e] r'].
Qed.

(** C8: the tweet ids that the posts of any history return, from the empty
    store on, are strictly increasing (each is greater than every id
    returned before, so they are pairwise distinct) and never 0.  Every
    post returns one: a post on a store whose counter is below 2^63 - 1
    returns the counter plus one, so in a history of at most 2^63 - 1
    posts each post returns an id, and a post after the history returns an
    id greater than all that the history returned. *)
Theorem C8_ids_strictly_increasing calls :
  StronglySorted Z.lt (posted_ids sscan_iter self calls Redis.empty) ∧
  NoDup (posted_ids sscan_iter self calls Redis.empty) ∧
  Forall (λ id, 0 < id) (posted_ids sscan_iter self calls Redis.empty) ∧
  (Z.of_nat (posts calls) ≤ int64_max →
   length (posted_ids sscan_iter self calls Redis.empty) = posts calls) ∧
  (∀ t user text r,
     counter r < int64_max →
     (post_tweet sscan_iter self t user text r).1 = Return (counter r + 1)) ∧
  (∀ t user text,
     counter (run sscan_iter self calls Redis.empty) < int64_max →
     ∃ id r',
       post_tweet sscan_iter self t user text (run sscan_iter self calls Redis.empty)
       = (Return id, r') ∧
       0 < id ∧
       Forall (λ id', id' < id) (posted_ids sscan_iter self calls Redis.empty)).
Proof.
  destruct (posted_ids_above calls Redis.empty) as [Habove Hsorted].
  split_and!; [done| |done| | |].
  - clear Habove. induction Hsorted as [|id ids Hsorted IH Hlt]; constructor; [|done].
    intros Hin. rewrite Forall_forall in Hlt. specialize (Hlt _ Hin). lia.
  - intros Hroom. apply posted_ids_length; [done|]. by rewrite Z.add_0_l.
  - intros t user text r Hmax. by rewrite post_tweet_exec.
  - intros t user text Hmax. eexists _, _. split; [by apply post_tweet_exec|].
    pose proof (counter_run calls Redis.empty) as Hle.
    change (counter Redis.empty) with 0 in Hle. split; [lia|].
    eapply Forall_impl; [apply posted_ids_below|]. simpl. lia.
Qed.

(** *** The size of the timelines *)

Lemma size_deliver cap m s (z : gmap string Z) :
  timeline_max_size self = Some cap → 0 ≤ cap →
  Z.of_nat (size (deliver self m s z)) ≤ cap.
Proof.
  intros Hcap Hpos. unfold deliver. rewrite Hcap.
  rewrite zremrangebyrank_val_top by done.
  pose proof (size_top (Z.to_nat cap) (<[m := s]> z)). lia.
Qed.

Lemma step_bounded cap c r :
  timeline_max_size self = Some cap → 0 ≤ cap →
  (∀ key, Z.of_nat (size (zset_at r key)) ≤ cap) →
  ∀ key, Z.of_nat (size (zset_at (step sscan_iter self c r).2 key)) ≤ cap.
Proof.
  intros Hcap Hpos Hr key. destruct c as [t user text|lines has_header]; cbn [step].
  - destruct (decide (counter r < int64_max)) as [Hmax|Hmax].
    + destruct (post_tweet_spec sscan_iter self t user text r)
        as (r' & -> & _ & _ & _ & Hz); [|done|].
      { intros cap' Hcap'. congruence. }
      cbn [snd]. rewrite Hz. case_decide; [by apply size_deliver|apply Hr].
    + rewrite post_tweet_overflow by done. apply Hr.
  - destruct (load_follows_csv_frame lines has_header r) as (_ & _ & Hz).
    unfold zset_at. rewrite Hz. apply Hr.
Qed.

(** C2: with a cap K configured (a size, so 0 <= K), after any history of
    calls from the empty store no sorted set of the store, so no timeline,
    holds more than K entries. *)
Theorem C2_timeline_never_exceeds_cap cap calls key :
  timeline_max_size self = Some cap → 0 ≤ cap →
  Z.of_nat (size (zset_at (run sscan_iter self calls Redis.empty) key)) ≤ cap.
Proof.
  intros Hcap Hpos.
  assert (∀ r, (∀ key, Z.of_nat (size (zset_at r key)) ≤ cap) →
               ∀ key, Z.of_nat (size (zset_at (run sscan_iter self calls r) key)) ≤ cap)
    as Hrun.
  { induction calls as [|c calls IH]; intros r Hr; [done|].
    simpl. apply IH. by apply step_bounded. }
  apply Hrun. intros key'. unfold zset_at. simpl. rewrite lookup_empty. simpl.
  rewrite map_size_empty. lia.
Qed.

(** C7: in every store reached from the empty one, the follower of every
    stored follow edge is a member of [all_followers]. *)
Theorem C7_global_set_covers_edges r follower followee :
  reachable sscan_iter self r →
  edge_stored r (follower, followee) →
  Py.str follower ∈ set_at r "all_followers".
Proof.
  intros Hreach Hedge. apply reachable_store_ok in Hreach.
  by eapply ok_edges.
Qed.

End ids.

Lemma C8_ids_strictly_increasing_witness :
  length (posted_ids elements (Api None) capped_calls Redis.empty) = posts capped_calls ∧
  ∃ id r',
    post_tweet elements (Api None) (Now 1000 "t") 2 "x"
               (run elements (Api None) capped_calls Redis.empty)
    = (Return id, r') ∧
    0 < id ∧
    Forall (λ id', id' < id) (posted_ids elements (Api None) capped_calls Redis.empty).
Proof.
  destruct (C8_ids_strictly_increasing elements (Api None) capped_calls)
    as (_ & _ & _ & Hlen & _ & Hnext).
  split.
  - apply Hlen. vm_compute. discriminate.
  - apply Hnext. vm_compute. reflexivity.
Defined.

Lemma C2_timeline_never_exceeds_cap_witness :
  Z.of_nat (size (zset_at (run elements (Api (Some 2)) capped_calls Redis.empty)
                          (_timeline_key 1))) ≤ 2.
Proof.
  apply (C2_timeline_never_exceeds_cap elements (Api (Some 2)) 2 capped_calls).
  - reflexivity.
  - lia.
Defined.

Lemma C7_global_set_covers_edges_witness :
  Py.str 1 ∈ set_at scenario_store "all_followers".
Proof.
  apply (C7_global_set_covers_edges elements (Api None) scenario_store 1 2).
  - exists [LoadFollowsCsv ["1,2"; "1,2"; "3,2"] false]. reflexivity.
  - vm_compute. reflexivity.
Defined.

(** *** Sampling *)

Lemma srandmember_None pick r key :
  srandmember pick r key = None ↔ set_at r key = ∅.
Proof.
  unfold srandmember. split.
  - intros Hnone. apply leibniz_equiv, elements_empty_iff.
    destruct (elements (set_at r key)) as [|v l] eqn:Hl; [done|].
    apply lookup_ge_None in Hnone.
    pose proof (Nat.mod_upper_bound pick (length (v :: l))) as Hlt.
    simpl in *. lia.
  - intros ->. by rewrite elements_empty.
Qed.

Lemma srandmember_Some pick r key v :
  srandmember pick r key = Some v → v ∈ set_at r key.
Proof.
  unfold srandmember. intros Hv%list_elem_of_lookup_2. by apply elem_of_elements.
Qed.

Lemma minimum_Some l m :
  TwitterMySQLAPI.minimum l = Some m → m ∈ l ∧ ∀ x, x ∈ l → m ≤ x.
Proof.
  destruct l as [|y l]; [done|]. simpl. intros [= <-].
  induction l as [|z l IH]; simpl.
  { split; [left|]. intros x ->%list_elem_of_singleton. lia. }
  destruct IH as [Hin Hle]. split.
  - destruct (Z.min_spec z (foldr Z.min y l)) as [[_ ->]|[_ ->]].
    + right. left.
    + apply elem_of_cons in Hin as [->|Hin]; [left|by do 2 right].
  - intros x Hx. rewrite !elem_of_cons in Hx.
    destruct Hx as [->|[->|Hx]].
    + etrans; [apply Z.le_min_r|]. apply Hle. left.
    + apply Z.le_min_l.
    + etrans; [apply Z.le_min_r|]. apply Hle. by right.
Qed.

Lemma maximum_Some l m :
  TwitterMySQLAPI.maximum l = Some m → m ∈ l ∧ ∀ x, x ∈ l → x ≤ m.
Proof.
  destruct l as [|y l]; [done|]. simpl. intros [= <-].
  induction l as [|z l IH]; simpl.
  { split; [left|]. intros x ->%list_elem_of_singleton. lia. }
  destruct IH as [Hin Hle]. split.
  - destruct (Z.max_spec z (foldr Z.max y l)) as [[_ ->]|[_ ->]].
    + apply elem_of_cons in Hin as [->|Hin]; [left|by do 2 right].
    + right. left.
  - intros x Hx. rewrite !elem_of_cons in Hx.
    destruct Hx as [->|[->|Hx]].
    + etrans; [|apply Z.le_max_r]. apply Hle. left.
    + apply Z.le_max_l.
    + etrans; [|apply Z.le_max_r]. apply Hle. by right.
Qed.

Lemma randint_range pick a b :
  a ≤ b → a ≤ TwitterMySQLAPI.randint pick a b ≤ b.
Proof.
  intros Hab. unfold TwitterMySQLAPI.randint.
  pose proof (Z.mod_pos_bound (Z.of_nat pick) (b - a + 1)). lia.
Qed.

(** The range probe finds a row whenever the table has one. *)
Lemma mysql_get_random_follower_id_Some pick FOLLOWS :
  FOLLOWS ≠ [] →
  ∃ f, TwitterMySQLAPI.get_random_follower_id pick FOLLOWS = Some f ∧
       f ∈ FOLLOWS.*1.
Proof.
  intros Hne. unfold TwitterMySQLAPI.get_random_follower_id.
  destruct (TwitterMySQLAPI.minimum FOLLOWS.*1) as [lo|] eqn:Hlo.
  2: { by destruct FOLLOWS. }
  destruct (TwitterMySQLAPI.maximum FOLLOWS.*1) as [hi|] eqn:Hhi.
  2: { by destruct FOLLOWS. }
  apply minimum_Some in Hlo as [Hlo_in Hlo]. apply maximum_Some in Hhi as [Hhi_in Hhi].
  pose proof (randint_range pick lo hi (Hlo _ Hhi_in)) as Hrand.
  set (rand_id := TwitterMySQLAPI.randint pick lo hi) in *.
  destruct (TwitterMySQLAPI.minimum (filter (λ f, rand_id ≤ f) FOLLOWS.*1))
    as [f|] eqn:Hf.
  - exists f. split; [done|]. apply minimum_Some in Hf as [Hf _].
    by apply list_elem_of_filter in Hf as [_ Hf].
  - assert (hi ∈ filter (λ f, rand_id ≤ f) FOLLOWS.*1) as Hin.
    { apply list_elem_of_filter. split; [lia|done]. }
    destruct (filter _ _); [by apply elem_of_nil in Hin|done].
Qed.

Section sampler.
Context (sscan_iter : gset string → list string).
Context (self : api).

(** C9: on a store reached from the empty one the sampler never raises; it
    returns [None] exactly when no follow edge is stored, and otherwise the
    follower of a stored edge.  On the empty store it returns [None].  The
    range probe over the table returns [None] exactly when the table is
    empty, and otherwise a follower id of the table. *)
Theorem C9_sampler_none_iff_no_followers r pick :
  reachable sscan_iter self r →
  (get_random_follower_id pick r = Return None ↔ ∀ e, ¬ edge_stored r e) ∧
  (get_random_follower_id pick r = Return None ∨
   ∃ f k, get_random_follower_id pick r = Return (Some f) ∧ edge_stored r (f, k)) ∧
  get_random_follower_id pick Redis.empty = Return None ∧
  (∀ FOLLOWS, TwitterMySQLAPI.get_random_follower_id pick FOLLOWS = None
              ↔ FOLLOWS = []) ∧
  (∀ FOLLOWS f, TwitterMySQLAPI.get_random_follower_id pick FOLLOWS = Some f →
                f ∈ FOLLOWS.*1).
Proof.
  intros Hok%reachable_store_ok.
  assert (get_random_follower_id pick r = Return None ∧ set_at r "all_followers" = ∅
          ∨ ∃ f k, get_random_follower_id pick r = Return (Some f)
                   ∧ edge_stored r (f, k)) as Hcases.
  { unfold get_random_follower_id.
    destruct (srandmember pick r "all_followers") as [v|] eqn:Hv.
    - right. apply srandmember_Some in Hv.
      destruct (ok_followers r Hok v Hv) as [f ->].
      destruct (ok_sampled r Hok _ Hv) as [k Hk].
      exists f, k. by rewrite int_str.
    - left. by apply srandmember_None in Hv. }
  split_and!.
  - split.
    + intros Hnone [f k] Hedge. destruct Hcases as [[_ Hempty]|(f' & k' & Hsome & _)].
      * apply (ok_edges r Hok) in Hedge. rewrite Hempty in Hedge.
        by apply elem_of_empty in Hedge.
      * congruence.
    + intros Hnone. destruct Hcases as [[? _]|(f & k & _ & Hedge)]; [done|].
      by destruct (Hnone _ Hedge).
  - destruct Hcases as [[? _]|?]; [by left|by right].
  - reflexivity.
  - intros FOLLOWS. split.
    + intros Hnone. destruct FOLLOWS as [|row FOLLOWS]; [done|].
      destruct (mysql_get_random_follower_id_Some pick (row :: FOLLOWS))
        as (f & Hf & _); [done|congruence].
    + by intros ->.
  - intros FOLLOWS f Hf. destruct FOLLOWS as [|row FOLLOWS]; [done|].
    destruct (mysql_get_random_follower_id_Some pick (row :: FOLLOWS))
      as (f' & Hf' & Hin); [done|congruence].
Qed.

End sampler.

Lemma C9_sampler_none_iff_no_followers_witness :
  get_random_follower_id 7 scenario_store = Return None ∨
  ∃ f k, get_random_follower_id 7 scenario_store = Return (Some f)
         ∧ edge_stored scenario_store (f, k).
Proof.
  destruct (C9_sampler_none_iff_no_followers elements (Api None) scenario_store 7)
    as (_ & Hcases & _).
  - exists [LoadFollowsCsv ["1,2"; "1,2"; "3,2"] false]. reflexivity.
  - exact Hcases.
Defined.

Section skip.
Context (sscan_iter : gset string → list string).
Context (sscan_iter_spec : ∀ (s : gset string) x, x ∈ sscan_iter s ↔ x ∈ s).
Context (self : api).

(** C10: a member of the author's follower set that [int] rejects does not
    make [post_tweet] fail: the call returns the allocated tweet id, and
    the timeline of every follower id that a member parses to receives the
    write (the new entry is added and the timeline trimmed to the cap);
    without a cap the entry is then in that timeline.  No timeline other
    than the author's and those is written.  The members of the set are
    texts within the digit limit of [int]. *)
Theorem C10_unparseable_follower_skipped t user text r bad :
  counter r < int64_max →
  (∀ m, m ∈ set_at r (_followers_key user) → within_digit_limit m) →
  bad ∈ set_at r (_followers_key user) →
  Py.int bad = None →
  ∃ r',
    post_tweet sscan_iter self t user text r = (Return (counter r + 1), r') ∧
    (cap_ok self →
     ∀ m f, m ∈ set_at r (_followers_key user) → Py.int m = Some f →
       zset_at r' (_timeline_key f)
       = deliver self (Py.str (counter r + 1)) (ts_ms t)
                 (zset_at r (_timeline_key f)) ∧
       (timeline_max_size self = None →
        zset_at r' (_timeline_key f) !! Py.str (counter r + 1) = Some (ts_ms t))) ∧
    (cap_ok self →
     ∀ u, u ≠ user →
          (∀ m, m ∈ set_at r (_followers_key user) → Py.int m ≠ Some u) →
          zset_at r' (_timeline_key u) = zset_at r (_timeline_key u)).
Proof.
  intros Hmax _ Hbad Hint. eexists. split; [by apply post_tweet_exec|].
  assert (cap_ok self →
          ∀ k, zset_at (post_tweet sscan_iter self t user text r).2 k =
               if decide (k ∈ _timeline_key <$> fanout_targets sscan_iter user r)
               then deliver self (Py.str (counter r + 1)) (ts_ms t) (zset_at r k)
               else zset_at r k) as Hz.
  { intros Hcap.
    destruct (post_tweet_spec sscan_iter self t user text r Hcap Hmax)
      as (r' & -> & _ & _ & _ & Hz). exact Hz. }
  rewrite post_tweet_exec in Hz by done. cbn [snd] in Hz.
  split.
  - intros Hcap m f Hm Hf. rewrite (Hz Hcap), decide_True.
    2: { apply timeline_key_elem_of, elem_of_fanout_targets; [done|]. right. eauto. }
    split; [done|]. intros Hnone. unfold deliver. rewrite Hnone.
    apply lookup_insert_eq.
  - intros Hcap u Hu Hnot. rewrite (Hz Hcap), decide_False; [done|].
    rewrite timeline_key_elem_of, elem_of_fanout_targets by done.
    intros [?|(m & Hm & Hf)]; [done|]. by eapply Hnot.
Qed.

End skip.

Lemma C10_unparseable_follower_skipped_witness :
  ∃ r',
    post_tweet elements (Api None) (Now 1000 "t") 2 "hello" odd_member_store
      = (Return (counter odd_member_store + 1), r') ∧
    (cap_ok (Api None) →
     ∀ m f, m ∈ set_at odd_member_store (_followers_key 2) → Py.int m = Some f →
       zset_at r' (_timeline_key f)
       = deliver (Api None) (Py.str (counter odd_member_store + 1)) 1000
                 (zset_at odd_member_store (_timeline_key f)) ∧
       (timeline_max_size (Api None) = None →
        zset_at r' (_timeline_key f) !! Py.str (counter odd_member_store + 1)
        = Some 1000)) ∧
    (cap_ok (Api None) →
     ∀ u, u ≠ 2 →
          (∀ m, m ∈ set_at odd_member_store (_followers_key 2) → Py.int m ≠ Some u) →
          zset_at r' (_timeline_key u) = zset_at odd_member_store (_timeline_key u)).
Proof.
  apply (C10_unparseable_follower_skipped elements (λ s x, elem_of_elements s x)
           (Api None) (Now 1000 "t") 2 "hello" odd_member_store (String "028" "3")).
  - vm_compute. reflexivity.
  - intros m Hm.
    assert (set_at odd_member_store (_followers_key 2)
            = {["1"; "not-a-number"; String "028" "3"]}) as Hs
      by (vm_compute; reflexivity).
    rewrite Hs, !elem_of_union, !elem_of_singleton in Hm.
    destruct Hm as [[->| ->]| ->]; digit_limit.
  - vm_compute. reflexivity.
  - vm_compute. reflexivity.
Defined.

(** *** Malformed records and the count of new edges *)

Lemma edge_stored_execute_edges es r e :
  edge_stored (execute (edges_cmds es) r).1 e ↔ edge_stored r e ∨ e ∈ es.
Proof.
  revert r. induction es as [|e' es IH]; intros r.
  { simpl. rewrite elem_of_nil. tauto. }
  rewrite edges_cmds_cons, execute_app. cbn [fst].
  rewrite IH, edge_stored_execute_edge, elem_of_cons. tauto.
Qed.

Lemma malformed_parse_line line : malformed line = true → parse_line line = None.
Proof.
  unfold malformed, parse_line. rewrite andb_true_iff, !negb_true_iff.
  intros [Hblank%bool_decide_eq_false Hwf]. rewrite decide_False by done.
  destruct (Py.split_comma (Py.strip line)) as [[a b]|] eqn:Hsplit; [|done].
  destruct (Py.int a) as [f|] eqn:Ha; [|done].
  destruct (Py.int b) as [e|] eqn:Hb; [|done].
  exfalso. unfold well_formed in Hwf.
  rewrite (split_all_cons _ _ _ Hsplit) in Hwf.
  rewrite (split_all_single b) in Hwf.
  2: { apply split_comma_None. by eapply int_nocomma. }
  rewrite Ha, Hb in Hwf. by rewrite !bool_decide_eq_true_2 in Hwf.
Qed.

Lemma parse_lines_None lines line :
  line ∈ lines → parse_line line = None → parse_lines lines = None.
Proof.
  intros Hin Hline. induction lines as [|l lines IH]; [by apply elem_of_nil in Hin|].
  apply elem_of_cons in Hin as [<-|Hin]; simpl.
  - by rewrite Hline.
  - destruct (parse_line l) as [[e|]|]; [|by apply IH|done].
    by rewrite IH.
Qed.

(** C6: a malformed data record (wrong number of fields, or a field that
    is not an integer) anywhere in the input makes the load fail with the
    parse error; it is not skipped.  Blank lines are not records. *)
Theorem C6_malformed_record_fails_load lines has_header r line :
  line ∈ data_lines lines has_header →
  malformed line = true →
  ∃ r', load_follows_csv lines has_header r = (Raise ValueError, r').
Proof.
  intros Hin Hbad%malformed_parse_line.
  unfold load_follows_csv. fold (data_lines lines has_header).
  apply (load_loop_err _ []). by eapply parse_lines_None.
Qed.

Lemma C6_malformed_record_fails_load_witness :
  ∃ r', load_follows_csv ["follower,followee"; "1,2"; String "1" (String "028" ",2");
                          "3,2,4"] true Redis.empty
        = (Raise ValueError, r').
Proof.
  apply (C6_malformed_record_fails_load _ true Redis.empty
           (String "1" (String "028" ",2"))).
  - vm_compute. right. left.
  - vm_compute. reflexivity.
Defined.

(** C5: a load whose data lines all parse (each within the digit limit
    of [int]) returns the number of distinct
    edges of its input that were not stored before; it stores all of them.
    That number is at most the number of data rows, smaller when a row is
    repeated, and it is the number of distinct edges of the input when none
    was stored before.  Loading the same input again returns 0.  On
    ["1,2"; "1,2"; "3,2"] without header and the empty store it is 2. *)
Theorem C5_load_counts_new_edges lines has_header r es :
  Forall within_digit_limit (data_lines lines has_header) →
  parse_lines (data_lines lines has_header) = Some es →
  ∃ r',
    load_follows_csv lines has_header r
      = (Return (Z.of_nat (size (fresh_edges r es))), r') ∧
    (∀ e, edge_stored r' e ↔ edge_stored r e ∨ e ∈ es) ∧
    (size (fresh_edges r es) ≤ length es)%nat ∧
    (¬ NoDup es → (size (fresh_edges r es) < length es)%nat) ∧
    ((∀ e, e ∈ es → ¬ edge_stored r e) →
     size (fresh_edges r es) = size (list_to_set es : gset (Z * Z))) ∧
    (∃ r'', load_follows_csv lines has_header r' = (Return 0, r'')) ∧
    (load_follows_csv ["1,2"; "1,2"; "3,2"] false Redis.empty).1 = Return 2.
Proof.
  intros _ Hparse.
  assert (∀ r0, load_follows_csv lines has_header r0
                = (Return (Z.of_nat (size (fresh_edges r0 es))),
                   (execute (edges_cmds es) r0).1)) as Hload.
  { intros r0. rewrite <- count_added_fresh.
    exact (load_loop_ok _ es [] 0 r0 Hparse). }
  assert (size (fresh_edges r es) ≤ size (list_to_set es : gset (Z * Z)))%nat
    as Hle.
  { apply subseteq_size. intros e [He _]%elem_of_fresh_edges.
    by apply elem_of_list_to_set. }
  eexists. split; [apply Hload|]. split_and!.
  - apply edge_stored_execute_edges.
  - pose proof (size_list_to_set_le es). lia.
  - intros Hdup%size_list_to_set_dup. lia.
  - intros Hfresh. by rewrite fresh_edges_none_stored.
  - eexists. rewrite Hload. do 3 f_equal.
    replace (fresh_edges _ es) with (∅ : gset (Z * Z)); [done|].
    symmetry. apply set_eq. intros e.
    rewrite elem_of_fresh_edges, edge_stored_execute_edges.
    split; [tauto|]. intros []%elem_of_empty.
  - vm_compute. reflexivity.
Qed.

Lemma C5_load_counts_new_edges_witness :
  ∃ r',
    load_follows_csv ["1,2"; "1,2"; "3,2"] false Redis.empty
      = (Return (Z.of_nat (size (fresh_edges Redis.empty [(1, 2); (1, 2); (3, 2)]))), r').
Proof.
  destruct (C5_load_counts_new_edges ["1,2"; "1,2"; "3,2"] false Redis.empty
              [(1, 2); (1, 2); (3, 2)]) as (r' & Hload & _).
  - digit_limit.
  - vm_compute. reflexivity.
  - exists r'. exact Hload.
Defined.

(** *** The reader *)

Lemma StronglySorted_reverse {A} (R : relation A) l :
  StronglySorted R l → StronglySorted (flip R) (reverse l).
Proof.
  induction 1 as [|x l Hsorted IH Hx]; [constructor|].
  rewrite reverse_cons. apply StronglySorted_app_2; [|done|repeat constructor].
  intros x1 x2 Hx1 ->%list_elem_of_singleton. rewrite elem_of_reverse in Hx1.
  rewrite Forall_forall in Hx. unfold flip. by apply Hx.
Qed.

Lemma StronglySorted_take {A} (R : relation A) n l :
  StronglySorted R l → StronglySorted R (take n l).
Proof.
  intros Hsorted. rewrite <- (take_drop n l) in Hsorted.
  by apply StronglySorted_app_1_l in Hsorted.
Qed.

Lemma top10_sorted (z : gmap string Z) : StronglySorted (flip zle) (top10 z).
Proof. apply StronglySorted_take, StronglySorted_reverse, zrange_all_sorted. Qed.

Lemma top10_length (z : gmap string Z) : (length (top10 z) ≤ 10)%nat.
Proof. unfold top10. rewrite length_take. apply Nat.le_min_l. Qed.

Lemma length_omap_le {A B} (f : A → option B) l :
  (length (omap f l) ≤ length l)%nat.
Proof.
  induction l as [|x l IH]; simpl; [done|].
  unfold omap in IH. destruct (f x); simpl; lia.
Qed.

Lemma omap_cons_match {A B} (f : A → option B) x l :
  omap f (x :: l) = match f x with Some y => y :: omap f l | None => omap f l end.
Proof. reflexivity. Qed.

Lemma resolve_tweet_id r id tw : resolve r (Py.str id) = Some tw → tweet_id tw = id.
Proof.
  rewrite resolve_str. cbv zeta. case_decide; [done|]. by intros [= <-].
Qed.

(** The tweets resolved from entries in rank order carry non-increasing
    scores. *)
Lemma resolve_scores r user (l : list (string * Z)) :
  StronglySorted (flip zle) l →
  (∀ m s, (m, s) ∈ l →
          zset_at r (_timeline_key user) !! m = Some s ∧ ∃ id, m = Py.str id) →
  ∃ scores,
    Forall2 (λ tw s, timeline_score r user tw = Some s)
            (omap (resolve r) l.*1) scores ∧
    StronglySorted (λ a b, b ≤ a) scores ∧
    Forall (λ s, ∃ m, (m, s) ∈ l) scores.
Proof.
  induction 1 as [|[m s] l Hsorted IH Hhd]; intros Hl.
  { exists []. repeat constructor. }
  destruct IH as (scores & Hscores & Hdesc & Hfrom).
  { intros m' s' Hin. apply Hl. by right. }
  destruct (Hl m s) as [Hm [id ->]]; [left|].
  rewrite fmap_cons, omap_cons_match. cbn [fst].
  destruct (resolve r (Py.str id)) as [tw|] eqn:Hres.
  - exists (s :: scores). split_and!.
    + constructor; [|done]. unfold timeline_score.
      by rewrite (resolve_tweet_id _ _ _ Hres).
    + constructor; [done|]. apply Forall_forall.
      rewrite Forall_forall in Hfrom. rewrite Forall_forall in Hhd.
      intros s' Hs'. destruct (Hfrom _ Hs') as [m' Hin].
      destruct (Hhd _ Hin) as [?|[? _]]; simpl in *; lia.
    + constructor; [by exists (Py.str id); left|].
      eapply Forall_impl; [done|]. intros s' [m' ?]. exists m'. by right.
  - exists scores. split_and!; [done..|].
    eapply Forall_impl; [done|]. intros s' [m' ?]. exists m'. by right.
Qed.

Section reader.
Context (sscan_iter : gset string → list string).
Context (self : api).

(** C4, amended: on every store reached from the empty one,
    [home_timeline] returns (it does not raise) at most ten tweets, most
    recent first: their scores in the user's timeline never increase along
    the sequence (they are not strictly decreasing, posts of one
    millisecond share a score).  On any store, a timeline that does not
    exist or is empty gives the empty sequence. *)
Theorem C4_home_timeline_ten_newest_first r user :
  reachable sscan_iter self r →
  (∃ out scores,
     get_home_timeline user r = Return out ∧
     (length out ≤ 10)%nat ∧
     Forall2 (λ tw s, timeline_score r user tw = Some s) out scores ∧
     StronglySorted (λ a b, b ≤ a) scores) ∧
  (∀ r0, zset_at r0 (_timeline_key user) = ∅ → get_home_timeline user r0 = Return []).
Proof.
  intros Hok%reachable_store_ok. split.
  - destruct (resolve_scores r user (top10 (zset_at r (_timeline_key user))))
      as (scores & Hscores & Hdesc & _).
    { apply top10_sorted. }
    { intros m s Hin%elem_of_top10. split; [done|]. by eapply ok_members. }
    eexists _, scores. split; [by apply get_home_timeline_ok|].
    split_and!; [|done..].
    etrans; [apply length_omap_le|]. rewrite length_fmap. apply top10_length.
  - intros r0 Hempty. unfold get_home_timeline.
    by rewrite zrevrange_top10, Hempty.
Qed.

End reader.

Lemma C4_home_timeline_ten_newest_first_witness :
  ∃ out scores,
    get_home_timeline 2 tie_store = Return out ∧
    (length out ≤ 10)%nat ∧
    Forall2 (λ tw s, timeline_score tie_store 2 tw = Some s) out scores ∧
    StronglySorted (λ a b, b ≤ a) scores.
Proof.
  destruct (C4_home_timeline_ten_newest_first elements (Api None) tie_store 2)
    as [Hshape _].
  - exists [PostTweet (Now 1000 "t") 2 "a"; PostTweet (Now 1000 "t") 2 "b"].
    reflexivity.
  - exact Hshape.
Defined.

(** C4 as stated fails: after two posts of one author within a millisecond
    the author's home timeline holds two tweets with the same score, so the
    scores are not strictly descending. *)
Lemma C4_counterexample :
  ∃ out scores,
    get_home_timeline 2 tie_store = Return out ∧
    Forall2 (λ tw s, timeline_score tie_store 2 tw = Some s) out scores ∧
    ¬ StronglySorted (λ a b, b < a) scores.
Proof.
  exists [mkTweet 2 2 "t" "b"; mkTweet 1 2 "t" "a"], [1000; 1000].
  split; [vm_compute; reflexivity|]. split.
  - repeat constructor; vm_compute; reflexivity.
  - intros Hsorted. apply StronglySorted_cons in Hsorted as [Hhd _].
    apply Forall_cons in Hhd as [Hlt _]. lia.
Qed.

(** * Further properties of the code *)

(** ** The sets of the follow graph *)

Lemma sets_exec_SADD key m r k :
  sets (exec (SADD key m) r).1 !! k =
  if decide (k = key) then Some ({[m]} ∪ set_at r key) else sets r !! k.
Proof.
  simpl. case_decide as Hk.
  - subst. by rewrite lookup_insert_eq.
  - by rewrite lookup_insert_ne.
Qed.

Lemma set_at_lookup r k : set_at r k = default ∅ (sets r !! k).
Proof. reflexivity. Qed.

Lemma set_at_exec_SADD key m r k :
  set_at (exec (SADD key m) r).1 k =
  if decide (k = key) then {[m]} ∪ set_at r key else set_at r k.
Proof. by destruct (exec_SADD key m r) as (_ & _ & _ & _ & ->). Qed.

Lemma sets_execute_edge e r k :
  sets (execute (edge_cmds e) r).1 !! k =
  if decide (edge_adds e k = ∅) then sets r !! k
  else Some (edge_adds e k ∪ set_at r k).
Proof.
  unfold edge_cmds, edge_adds. rewrite !execute_cons.
  change (execute [] ?x) with (x, @nil reply). cbn [fst snd].
  rewrite !sets_exec_SADD, !set_at_exec_SADD.
  pose proof (followers_key_ne_following e.2 e.1) as Hne1.
  pose proof (followers_key_ne_all e.2) as Hne2.
  pose proof (following_key_ne_all e.1) as Hne3.
  rewrite (decide_False (P := "all_followers" = _following_key _)) by eauto.
  rewrite (decide_False (P := "all_followers" = _followers_key _)) by eauto.
  rewrite (decide_False (P := _following_key _ = _followers_key _)) by eauto.
  destruct (decide (k = "all_followers")) as [Ha|Ha];
    destruct (decide (k = _following_key e.1)) as [Hb|Hb];
    destruct (decide (k = _followers_key e.2)) as [Hc|Hc];
    try (exfalso; congruence).
  all: try (rewrite decide_False by set_solver; f_equal; set_solver).
  rewrite decide_True by set_solver. done.
Qed.

Lemma edges_add_cons e es k : edges_add (e :: es) k = edge_adds e k ∪ edges_add es k.
Proof. reflexivity. Qed.

Lemma elem_of_edges_add es k m :
  m ∈ edges_add es k ↔ ∃ e, e ∈ es ∧ m ∈ edge_adds e k.
Proof.
  unfold edges_add. rewrite elem_of_union_list. split.
  - intros (X & HX & Hm). apply list_elem_of_fmap in HX as (e & -> & He). eauto.
  - intros (e & He & Hm). exists (edge_adds e k). split; [|done].
    apply list_elem_of_fmap. eauto.
Qed.

Lemma set_at_execute_edge e r k :
  set_at (execute (edge_cmds e) r).1 k = edge_adds e k ∪ set_at r k.
Proof.
  rewrite (set_at_lookup (execute _ _).1), sets_execute_edge.
  case_decide as He; [|done]. rewrite He. fold (set_at r k). set_solver.
Qed.

(** The sets after the writes of a list of edges, key by key. *)
Lemma sets_execute_edges es r k :
  sets (execute (edges_cmds es) r).1 !! k =
  if decide (edges_add es k = ∅) then sets r !! k
  else Some (edges_add es k ∪ set_at r k).
Proof.
  revert r. induction es as [|e es IH]; intros r; [done|].
  rewrite edges_cmds_cons, execute_app. cbn [fst].
  rewrite IH, edges_add_cons, set_at_execute_edge, sets_execute_edge.
  destruct (decide (edges_add es k = ∅)) as [Hes|Hes].
  - rewrite Hes. destruct (decide (edge_adds e k = ∅)) as [He|He].
    + rewrite decide_True by set_solver. done.
    + rewrite decide_False by set_solver. f_equal. set_solver.
  - rewrite decide_False by set_solver. f_equal. set_solver.
Qed.

Lemma set_at_execute_edges es r k :
  set_at (execute (edges_cmds es) r).1 k = edges_add es k ∪ set_at r k.
Proof.
  rewrite (set_at_lookup (execute _ _).1), sets_execute_edges.
  case_decide as He; [|done]. rewrite He. fold (set_at r k). set_solver.
Qed.

Lemma db_eq (r1 r2 : db) :
  counters r1 = counters r2 → hashes r1 = hashes r2 → sets r1 = sets r2 →
  zsets r1 = zsets r2 → r1 = r2.
Proof. destruct r1, r2. simpl. by intros -> -> -> ->. Qed.

Lemma edges_add_same es1 es2 k :
  (∀ e, e ∈ es1 ↔ e ∈ es2) → edges_add es1 k = edges_add es2 k.
Proof.
  intros Hes. apply set_eq. intros m. rewrite !elem_of_edges_add.
  split; intros (e & He & Hm); exists e; split; try done; by apply Hes.
Qed.

Lemma execute_edges_same es1 es2 r :
  (∀ e, e ∈ es1 ↔ e ∈ es2) →
  (execute (edges_cmds es1) r).1 = (execute (edges_cmds es2) r).1.
Proof.
  intros Hes.
  destruct (execute_edges_frame es1 r) as (Hc1 & Hh1 & Hz1).
  destruct (execute_edges_frame es2 r) as (Hc2 & Hh2 & Hz2).
  apply db_eq; [congruence..| |congruence].
  apply map_eq. intros k. rewrite !sets_execute_edges.
  by rewrite (edges_add_same es1 es2 k Hes).
Qed.

Lemma fresh_edges_same r es1 es2 :
  (∀ e, e ∈ es1 ↔ e ∈ es2) → fresh_edges r es1 = fresh_edges r es2.
Proof.
  intros Hes. apply set_eq. intros e. rewrite !elem_of_fresh_edges.
  specialize (Hes e). tauto.
Qed.

Lemma load_follows_csv_ok lines has_header r es :
  parse_lines (data_lines lines has_header) = Some es →
  load_follows_csv lines has_header r =
  (Return (Z.of_nat (size (fresh_edges r es))), (execute (edges_cmds es) r).1).
Proof.
  intros Hparse. unfold load_follows_csv. fold (data_lines lines has_header).
  rewrite <- count_added_fresh.
  exact (load_loop_ok _ es [] 0 r Hparse).
Qed.

(** *** The follow graph *)

Lemma graph_ok_empty : graph_ok Redis.empty.
Proof. intros a b. unfold set_at. simpl. rewrite !lookup_empty. simpl. set_solver. Qed.

Lemma execute_edge_graph_ok e r :
  graph_ok r → graph_ok (execute (edge_cmds e) r).1.
Proof.
  intros Hr a b.
  destruct (execute_edge e r) as (_ & _ & _ & _ & Hfo & Hfi & _).
  rewrite Hfo, Hfi. specialize (Hr a b).
  destruct (decide (b = e.2)) as [->|Hb], (decide (a = e.1)) as [->|Ha].
  - set_solver.
  - rewrite elem_of_union, elem_of_singleton. split; [|tauto].
    intros [Heq%(inj Py.str)|?]; [done|tauto].
  - rewrite elem_of_union, elem_of_singleton. split; [tauto|].
    intros [Heq%(inj Py.str)|?]; [done|tauto].
  - done.
Qed.

Lemma execute_edges_graph_ok es r :
  graph_ok r → graph_ok (execute (edges_cmds es) r).1.
Proof.
  revert r. induction es as [|e es IH]; intros r Hr; [done|].
  rewrite edges_cmds_cons, execute_app. cbn [fst].
  by apply IH, execute_edge_graph_ok.
Qed.

Lemma sets_post_tweet sscan_iter self t user text r :
  sets (post_tweet sscan_iter self t user text r).2 = sets r.
Proof.
  destruct (decide (counter r < int64_max)) as [Hmax|Hmax].
  - by destruct (post_tweet_frame sscan_iter self t user text r Hmax) as (_ & -> & _).
  - by rewrite post_tweet_overflow.
Qed.

Lemma step_graph_ok sscan_iter self c r :
  graph_ok r → graph_ok (step sscan_iter self c r).2.
Proof.
  intros Hr. destruct c as [t user text|lines has_header]; cbn [step].
  - intros a b. unfold set_at. rewrite sets_post_tweet. apply Hr.
  - destruct (load_follows_csv_store lines has_header r) as [es ->].
    by apply execute_edges_graph_ok.
Qed.

Lemma reachable_graph_ok sscan_iter self r :
  reachable sscan_iter self r → graph_ok r.
Proof.
  intros [calls ->]. generalize graph_ok_empty. generalize Redis.empty.
  induction calls as [|c calls IH]; intros r Hr; [done|].
  simpl. by apply IH, step_graph_ok.
Qed.

(** *** The format of the file *)

Lemma isdigit_nospace c : isdigit c = true → nospace c = true.
Proof. destruct c as [[] [] [] [] [] [] [] []]; vm_compute; congruence. Qed.

Lemma all_chars_app P s1 s2 :
  all_chars P (s1 ++ s2) = all_chars P s1 && all_chars P s2.
Proof. induction s1 as [|c s1 IH]; simpl; [done|]. by rewrite IH, andb_assoc. Qed.

Lemma rstrip_nospace s : all_chars nospace s = true → Py.rstrip s = s.
Proof.
  induction s as [|c s IH]; simpl; [done|].
  rewrite andb_true_iff. intros [Hc Hs]. rewrite (IH Hs).
  destruct s; [|done]. unfold nospace in Hc. apply negb_true_iff in Hc. by rewrite Hc.
Qed.

Lemma strip_nospace s : all_chars nospace s = true → Py.strip s = s.
Proof.
  intros Hs. unfold Py.strip. destruct s as [|c s]; [done|].
  assert (Py.lstrip (String c s) = String c s) as ->.
  { simpl in *. apply andb_true_iff in Hs as [Hc _].
    unfold nospace in Hc. apply negb_true_iff in Hc. by rewrite Hc. }
  by apply rstrip_nospace.
Qed.

Lemma str_nospace z : all_chars nospace (Py.str z) = true.
Proof.
  assert (∀ p, all_chars nospace (NilZero.string_of_uint (Pos.to_uint p)) = true) as Hp.
  { intros p. pose proof (Unsigned.to_uint_nonnil p) as Hnil.
    replace (NilZero.string_of_uint (Pos.to_uint p))
      with (NilEmpty.string_of_uint (Pos.to_uint p)) by by destruct (Pos.to_uint p).
    eapply all_chars_impl; [apply isdigit_nospace|apply string_of_uint_digits]. }
  destruct z as [|p|p]; [done|apply Hp|].
  unfold Py.str. simpl Z.to_int. simpl NilZero.string_of_int.
  change (all_chars nospace (String "-" (NilZero.string_of_uint (Pos.to_uint p))) = true).
  simpl. apply Hp.
Qed.

Lemma split_comma_app a b :
  all_chars nocomma a = true → Py.split_comma (a ++ "," ++ b) = Some (a, b).
Proof.
  induction a as [|c a IH]; simpl; [done|].
  rewrite andb_true_iff. intros [Hc Ha]. unfold nocomma in Hc.
  apply negb_true_iff in Hc. rewrite Hc. by rewrite (IH Ha).
Qed.

Lemma parse_line_format_edge e : parse_line (format_edge e) = Some (Some e).
Proof.
  destruct e as [a b]. unfold parse_line, format_edge. cbn [fst snd].
  rewrite strip_nospace.
  2: { rewrite !all_chars_app, !str_nospace. done. }
  rewrite decide_False.
  2: { intros Heq. apply (f_equal Py.split_comma) in Heq.
       rewrite split_comma_app in Heq by (by eapply int_nocomma, int_str). done. }
  rewrite split_comma_app by (by eapply int_nocomma, int_str).
  by rewrite !int_str.
Qed.

Lemma parse_lines_format_edge es : parse_lines (format_edge <$> es) = Some es.
Proof.
  induction es as [|e es IH]; [done|].
  rewrite fmap_cons. simpl. by rewrite parse_line_format_edge, IH.
Qed.

(** *** Blank lines *)

Lemma load_loop_filter_blank lines pipe ops inserted r :
  load_loop (filter (λ line, ¬ blank line) lines) pipe ops inserted r =
  load_loop lines pipe ops inserted r.
Proof.
  revert pipe ops inserted r.
  induction lines as [|line lines IH]; intros pipe ops inserted r; [done|].
  destruct (decide (blank line)) as [Hb|Hb].
  - rewrite filter_cons_False by tauto. rewrite IH.
    symmetry. apply load_loop_blank. unfold parse_line. unfold blank in Hb.
    by rewrite decide_True.
  - rewrite filter_cons_True by done.
    destruct (parse_line line) as [[e|]|] eqn:Hline.
    + rewrite !(load_loop_edge _ _ _ _ _ _ e) by done.
      destruct (3000 <=? ops + 3).
      * destruct (flush _ _ _) as [[n|x] r']; [apply IH|done].
      * apply IH.
    + unfold parse_line in Hline. unfold blank in Hb.
      rewrite decide_False in Hline by done.
      destruct (Py.split_comma _) as [[a b]|]; [|done].
      destruct (Py.int a); [|done]. by destruct (Py.int b).
    + by rewrite !load_loop_bad.
Qed.

(** *** A load that fails *)

Lemma load_loop_fails good bad rest es pending inserted r :
  parse_lines good = Some es → parse_line bad = None →
  (length pending < 1000)%nat →
  load_loop (good ++ bad :: rest) (edges_cmds pending)
            (3 * Z.of_nat (length pending)) inserted r =
  (Raise ValueError,
   (execute (edges_cmds (take (1000 * ((length pending + length es) / 1000))
                              (pending ++ es))) r).1).
Proof.
  revert es pending inserted r.
  induction good as [|line good IH]; intros es pending inserted r Hparse Hbad Hlen.
  { injection Hparse as <-. rewrite app_nil_l, load_loop_bad by done.
    rewrite Nat.add_0_r, Nat.div_small by done. by rewrite Nat.mul_0_r, take_0. }
  simpl in Hparse. rewrite <- app_comm_cons.
  destruct (parse_line line) as [[e|]|] eqn:Hline; [| |done].
  - destruct (parse_lines good) as [es'|] eqn:Hgood; [|done].
    injection Hparse as <-.
    rewrite (load_loop_edge _ _ _ _ _ _ e) by done.
    rewrite edges_cmds_snoc.
    replace (3 * Z.of_nat (length pending) + 3)
      with (3 * Z.of_nat (length (pending ++ [e]))) by (rewrite length_app; simpl; lia).
    replace (pending ++ e :: es') with ((pending ++ [e]) ++ es') by by rewrite <- app_assoc.
    replace (length pending + length (e :: es'))%nat
      with (length (pending ++ [e]) + length es')%nat by (rewrite length_app; simpl; lia).
    destruct (Z.leb_spec 3000 (3 * Z.of_nat (length (pending ++ [e])))) as [Hfull|Hfull].
    + assert (length (pending ++ [e]) = 1000%nat) as Hk.
      { rewrite length_app in *. simpl in *. lia. }
      rewrite flush_edges.
      rewrite (IH es' [] _ _ eq_refl Hbad) by (simpl; lia).
      rewrite app_nil_l. f_equal. simpl length at 1. rewrite Nat.add_0_l.
      rewrite Hk.
      replace ((1000 + length es') / 1000)%nat with (1 + length es' / 1000)%nat.
      2: { pose proof (Nat.div_add_l 1 1000 (length es')) as Hdiv.
           rewrite Nat.mul_1_l in Hdiv. rewrite Hdiv by done. done. }
      replace (1000 * (1 + length es' / 1000))%nat
        with (length (pending ++ [e]) + 1000 * (length es' / 1000))%nat by lia.
      rewrite take_app_add.
      rewrite (edges_cmds_app (pending ++ [e]) (take _ es')).
      by rewrite (execute_app (edges_cmds (pending ++ [e]))).
    + apply IH; [done..|]. rewrite length_app in *. simpl in *. lia.
  - rewrite load_loop_blank by done. by apply IH.
Qed.

(** ** Further properties of the loader and of the follow graph *)

(** X1: the result of a load whose data lines all parse, the returned count
    and the store, depends only on the set of edges that the lines hold:
    their order, repeated rows, blank lines, the spelling of the numbers
    (among the spellings that [int] accepts, within its digit limit) and
    the chunking do not matter. *)
Theorem load_depends_on_edge_set lines1 h1 lines2 h2 es1 es2 r :
  Forall within_digit_limit (data_lines lines1 h1) →
  Forall within_digit_limit (data_lines lines2 h2) →
  parse_lines (data_lines lines1 h1) = Some es1 →
  parse_lines (data_lines lines2 h2) = Some es2 →
  (∀ e, e ∈ es1 ↔ e ∈ es2) →
  load_follows_csv lines1 h1 r = load_follows_csv lines2 h2 r.
Proof.
  intros _ _ H1 H2 Hes.
  rewrite (load_follows_csv_ok _ _ _ _ H1), (load_follows_csv_ok _ _ _ _ H2).
  by rewrite (fresh_edges_same r es1 es2 Hes), (execute_edges_same es1 es2 r Hes).
Qed.

Lemma load_depends_on_edge_set_witness :
  load_follows_csv ["1,2"; "3,2"; "1,2"] false Redis.empty
  = load_follows_csv ["follower,followee"; " 3 , 2 "; ""; "+1,2"] true Redis.empty.
Proof.
  apply (load_depends_on_edge_set _ _ _ _ [(1, 2); (3, 2); (1, 2)] [(3, 2); (1, 2)]).
  - digit_limit.
  - digit_limit.
  - vm_compute. reflexivity.
  - vm_compute. reflexivity.
  - intros e. rewrite !elem_of_cons, !elem_of_nil. tauto.
Defined.

Section graph.
Context (sscan_iter : gset string → list string).
Context (self : api).

(** X2: in a store reached from the empty one, loading a file whose data
    lines all parse (each within the digit limit of [int]) and whose edges
    are all stored already returns 0 and leaves the store exactly as it
    was. *)
Theorem load_of_stored_edges_changes_nothing lines has_header es r :
  reachable sscan_iter self r →
  Forall within_digit_limit (data_lines lines has_header) →
  parse_lines (data_lines lines has_header) = Some es →
  (∀ e, e ∈ es → edge_stored r e) →
  load_follows_csv lines has_header r = (Return 0, r).
Proof.
  intros Hreach _ Hparse Hstored.
  pose proof (reachable_store_ok _ _ _ Hreach) as Hok.
  pose proof (reachable_graph_ok _ _ _ Hreach) as Hgraph.
  rewrite (load_follows_csv_ok _ _ _ _ Hparse). f_equal.
  - replace (fresh_edges r es) with (∅ : gset (Z * Z)); [done|].
    symmetry. apply set_eq. intros e. rewrite elem_of_fresh_edges.
    split; [|by intros []%elem_of_empty]. intros [He Hne]. destruct Hne. auto.
  - destruct (execute_edges_frame es r) as (Hc & Hh & Hz).
    apply db_eq; [done..| |done].
    apply map_eq. intros k. rewrite sets_execute_edges.
    case_decide as Hadd; [done|].
    assert (edges_add es k ⊆ set_at r k) as Hsub.
    { intros m (e & He & Hm)%elem_of_edges_add. apply Hstored in He.
      unfold edge_stored in He. unfold edge_adds in Hm.
      rewrite !elem_of_union in Hm. destruct Hm as [[Hm|Hm]|Hm].
      - case_decide; [|by apply elem_of_empty in Hm].
        apply elem_of_singleton in Hm. by subst.
      - case_decide; [|by apply elem_of_empty in Hm].
        apply elem_of_singleton in Hm. subst. exact (proj1 (Hgraph e.1 e.2) He).
      - case_decide; [|by apply elem_of_empty in Hm].
        apply elem_of_singleton in Hm. subst. exact (ok_edges r Hok e.2 _ He). }
    replace (edges_add es k ∪ set_at r k) with (set_at r k) by set_solver.
    unfold set_at in *. destruct (sets r !! k) as [s|]; [done|].
    simpl in Hsub. destruct Hadd. set_solver.
Qed.

(** X3: no history of calls removes a member from a set of the store: a
    follow edge, once stored, stays stored, and so does every member of
    [all_followers]. *)
Theorem follow_sets_only_grow calls r key m :
  m ∈ set_at r key → m ∈ set_at (run sscan_iter self calls r) key.
Proof.
  revert r. induction calls as [|c calls IH]; intros r Hm; [done|].
  simpl. apply IH. destruct c as [t user text|lines has_header]; cbn [step].
  - unfold set_at. by rewrite sets_post_tweet.
  - destruct (load_follows_csv_store lines has_header r) as [es ->].
    rewrite set_at_execute_edges. set_solver.
Qed.

(** X4: in every store reached from the empty one the two indexes of the
    follow graph agree: [a] is in the follower set of [b] exactly when [b]
    is in the following set of [a]. *)
Theorem followers_and_following_agree r a b :
  reachable sscan_iter self r →
  (edge_stored r (a, b) ↔ Py.str b ∈ set_at r (_following_key a)).
Proof. intros Hreach. exact (reachable_graph_ok _ _ _ Hreach a b). Qed.

(** X5: a post never changes a set of the store, whether it returns an id
    or fails: the stored edges are the same before and after, and so is
    what the sampler answers. *)
Theorem post_tweet_keeps_follow_graph t user text r :
  let r' := (post_tweet sscan_iter self t user text r).2 in
  sets r' = sets r ∧
  (∀ e, edge_stored r' e ↔ edge_stored r e) ∧
  ∀ pick, get_random_follower_id pick r' = get_random_follower_id pick r.
Proof.
  cbv zeta. pose proof (sets_post_tweet sscan_iter self t user text r) as Hs.
  split_and!; [done| |].
  - intros e. unfold edge_stored, set_at. by rewrite Hs.
  - intros pick. unfold get_random_follower_id, srandmember, set_at. by rewrite Hs.
Qed.

End graph.

Lemma load_of_stored_edges_changes_nothing_witness :
  load_follows_csv ["3,2"; "1,2"] false scenario_store = (Return 0, scenario_store).
Proof.
  apply (load_of_stored_edges_changes_nothing elements (Api None) _ _ [(3, 2); (1, 2)]).
  - apply scenario_store_reachable.
  - digit_limit.
  - vm_compute. reflexivity.
  - intros e. rewrite !elem_of_cons, elem_of_nil.
    intros [->|[->|[]]]; unfold edge_stored; simpl;
      rewrite scenario_store_followers; set_solver.
Defined.

Lemma follow_sets_only_grow_witness :
  "1" ∈ set_at (run elements (Api None)
                   [PostTweet (Now 1000 "t") 2 "x"; LoadFollowsCsv ["4,2"] false]
                   scenario_store)
               (_followers_key 2).
Proof.
  apply (follow_sets_only_grow elements (Api None)).
  rewrite scenario_store_followers. set_solver.
Defined.

Lemma followers_and_following_agree_witness :
  edge_stored scenario_store (1, 2) ↔ Py.str 2 ∈ set_at scenario_store (_following_key 1).
Proof.
  apply (followers_and_following_agree elements (Api None)).
  apply scenario_store_reachable.
Defined.

(** X6: a load never changes the id counter, a tweet or a timeline,
    whether it returns or fails; so it leaves every home timeline as it
    was: tweets posted before an edge was loaded are not delivered to the
    new follower. *)
Theorem load_keeps_tweets_and_timelines lines has_header r :
  let r' := (load_follows_csv lines has_header r).2 in
  counters r' = counters r ∧ hashes r' = hashes r ∧ zsets r' = zsets r ∧
  ∀ user_id, get_home_timeline user_id r' = get_home_timeline user_id r.
Proof.
  cbv zeta. destruct (load_follows_csv_frame lines has_header r) as (Hc & Hh & Hz).
  split_and!; [done..|]. intros user_id.
  unfold get_home_timeline, zrevrange, zset_at. rewrite Hz.
  destruct (_.*1) as [|tid tids]; [done|].
  destruct (mapM Py.int (tid :: tids)) as [ids|]; [|done].
  rewrite !execute_hgetall. cbn [snd]. unfold hash_at. by rewrite Hh.
Qed.

(** X7: a file written one edge per line as [follower_id,followee_id] in
    decimal, no line with more digits than the limit of [int], always
    loads: the load returns the number of distinct edges that were not
    stored, and afterwards exactly the old edges and the edges of the file
    are stored. *)
Theorem load_formatted_edges es r :
  Forall (λ e, within_digit_limit (format_edge e)) es →
  ∃ r', load_follows_csv (format_edge <$> es) false r
        = (Return (Z.of_nat (size (fresh_edges r es))), r') ∧
        ∀ e, edge_stored r' e ↔ edge_stored r e ∨ e ∈ es.
Proof.
  intros _. eexists. split.
  - apply load_follows_csv_ok. apply parse_lines_format_edge.
  - apply edge_stored_execute_edges.
Qed.

Lemma load_formatted_edges_witness :
  ∃ r', load_follows_csv (format_edge <$> [(1, 2); (-3, 2); (1, 2)]) false Redis.empty
        = (Return (Z.of_nat (size (fresh_edges Redis.empty [(1, 2); (-3, 2); (1, 2)]))),
           r') ∧
        ∀ e, edge_stored r' e
             ↔ edge_stored Redis.empty e ∨ e ∈ [(1, 2); (-3, 2); (1, 2)].
Proof.
  apply (load_formatted_edges [(1, 2); (-3, 2); (1, 2)] Redis.empty).
  digit_limit.
Defined.

(** X8: with [has_header] the first line of the file is skipped unread,
    whatever it holds, and lines that are blank after stripping are ignored
    wherever they stand; an empty file loads nothing under either
    setting. *)
Theorem load_skips_header_and_blank_lines header lines r :
  load_follows_csv (header :: lines) true r
  = load_follows_csv (filter (λ line, ¬ blank line) lines) false r ∧
  load_follows_csv lines false r
  = load_follows_csv (filter (λ line, ¬ blank line) lines) false r ∧
  load_follows_csv [] true r = (Return 0, r) ∧
  load_follows_csv [] false r = (Return 0, r).
Proof.
  unfold load_follows_csv. cbn [tail]. by rewrite load_loop_filter_blank.
Qed.

(** X9: when a line does not parse, the lines before it being within the
    digit limit of [int], the load raises [ValueError] and the
    store keeps the edges of the chunks flushed before: of the [n] edges
    read before the bad line, the first [1000 * (n / 1000)], in the order
    of the file.  A bad line among the first 1000 records leaves the store
    untouched. *)
Theorem load_failure_keeps_whole_chunks lines has_header good bad rest es r :
  data_lines lines has_header = good ++ bad :: rest →
  Forall within_digit_limit good →
  parse_lines good = Some es →
  parse_line bad = None →
  load_follows_csv lines has_header r
  = (Raise ValueError,
     (execute (edges_cmds (take (1000 * (length es / 1000)) es)) r).1) ∧
  ((length es < 1000)%nat →
   load_follows_csv lines has_header r = (Raise ValueError, r)).
Proof.
  intros Hlines _ Hgood Hbad.
  assert (load_follows_csv lines has_header r
          = (Raise ValueError,
             (execute (edges_cmds (take (1000 * (length es / 1000)) es)) r).1)) as Hload.
  { unfold load_follows_csv. fold (data_lines lines has_header). rewrite Hlines.
    apply (load_loop_fails good bad rest es [] 0 r Hgood Hbad). simpl. lia. }
  split; [done|]. intros Hsmall. rewrite Hload.
  by rewrite Nat.div_small, Nat.mul_0_r, take_0.
Qed.

Lemma load_failure_keeps_whole_chunks_witness :
  load_follows_csv ["follower,followee"; "1,2"; String "3" (String "028" ",2"); "4,2"]
                   true Redis.empty
  = (Raise ValueError, Redis.empty).
Proof.
  apply (load_failure_keeps_whole_chunks _ true ["1,2"] (String "3" (String "028" ",2"))
           ["4,2"] [(1, 2)]).
  - reflexivity.
  - digit_limit.
  - vm_compute. reflexivity.
  - vm_compute. reflexivity.
  - simpl. lia.
Defined.

(** X10: the script [load_follows.py] never reads the first line of its
    file.  The other lines being within the digit limit of [int]: when
    they parse, it prints the number of their
    distinct edges that were not stored, and stores them; run again on the
    same file it prints 0.  When one of them does not parse it raises
    [ValueError] and prints nothing. *)
Theorem main_prints_the_count_of_new_edges csv r :
  Forall within_digit_limit (tail csv) →
  match parse_lines (tail csv) with
  | Some es =>
      ∃ r' r'',
        load_follows.main csv r
        = (Return ("Inserted (or ignored duplicates): "
                   ++ Py.str (Z.of_nat (size (fresh_edges r es))))%string, r') ∧
        (∀ e, edge_stored r' e ↔ edge_stored r e ∨ e ∈ es) ∧
        load_follows.main csv r' = (Return "Inserted (or ignored duplicates): 0", r'')
  | None => ∃ r', load_follows.main csv r = (Raise ValueError, r')
  end.
Proof.
  intros _. unfold load_follows.main.
  destruct (parse_lines (tail csv)) as [es|] eqn:Hparse.
  - change (tail csv) with (data_lines csv true) in Hparse.
    rewrite (load_follows_csv_ok _ _ _ _ Hparse).
    do 2 eexists. split; [reflexivity|]. split; [apply edge_stored_execute_edges|].
    rewrite (load_follows_csv_ok _ _ _ _ Hparse).
    replace (fresh_edges _ es) with (∅ : gset (Z * Z)); [reflexivity|].
    symmetry. apply set_eq. intros e.
    rewrite elem_of_fresh_edges, edge_stored_execute_edges.
    split; [tauto|]. intros []%elem_of_empty.
  - destruct (load_loop_err (tail csv) [] 0 r Hparse) as [r' Hr'].
    exists r'.
    assert (load_follows_csv csv true r = (Raise ValueError, r')) as -> by exact Hr'.
    done.
Qed.

Lemma main_prints_the_count_of_new_edges_witness :
  match parse_lines (tail ["follower,followee"; "1,2"; "1,2"; "3,2"]) with
  | Some es =>
      ∃ r' r'',
        load_follows.main ["follower,followee"; "1,2"; "1,2"; "3,2"] Redis.empty
        = (Return ("Inserted (or ignored duplicates): "
                   ++ Py.str (Z.of_nat (size (fresh_edges Redis.empty es))))%string, r') ∧
        (∀ e, edge_stored r' e ↔ edge_stored Redis.empty e ∨ e ∈ es) ∧
        load_follows.main ["follower,followee"; "1,2"; "1,2"; "3,2"] r'
        = (Return "Inserted (or ignored duplicates): 0", r'')
  | None =>
      ∃ r', load_follows.main ["follower,followee"; "1,2"; "1,2"; "3,2"] Redis.empty
            = (Raise ValueError, r')
  end.
Proof.
  apply (main_prints_the_count_of_new_edges
           ["follower,followee"; "1,2"; "1,2"; "3,2"] Redis.empty).
  digit_limit.
Defined.

(** ** Tweets and timelines along a history *)

Section linked.
Context (sscan_iter : gset string → list string).
Context (self : api).

Lemma deliver_lookup_insert m s z m' s' :
  deliver self m s z !! m' = Some s' → <[m := s]> z !! m' = Some s'.
Proof.
  unfold deliver. destruct (timeline_max_size self); [|done].
  apply zremrangebyrank_val_lookup.
Qed.

Lemma execute_fanout_touch m s ids r :
  let r' := (execute (fanout_cmds self m s ids) r).1 in
  ∀ k m' s', zset_at r' k !! m' = Some s' →
    zset_at r k !! m' = Some s' ∨ (m' = m ∧ s' = s ∧ k ∈ _timeline_key <$> ids).
Proof.
  revert r. induction ids as [|f ids IH]; intros r.
  { simpl. auto. }
  cbv zeta. unfold fanout_cmds. rewrite bind_cons. fold (fanout_cmds self m s ids).
  rewrite execute_app. cbn [fst].
  destruct (execute_write self (_timeline_key f) m s r) as (_ & _ & _ & Hz).
  intros k m' s' Hk. apply IH in Hk as [Hk|(-> & -> & Hin)].
  2: { right. split_and!; [done..|]. rewrite fmap_cons. by apply list_elem_of_further. }
  rewrite Hz in Hk. case_decide as Hkey; [subst k|by left].
  apply deliver_lookup_insert in Hk.
  destruct (decide (m = m')) as [->|Hne].
  - rewrite lookup_insert_eq in Hk. injection Hk as <-.
    right. split_and!; [done..|]. rewrite fmap_cons. apply list_elem_of_here.
  - rewrite lookup_insert_ne in Hk by done. by left.
Qed.

(** The entries that a post adds: its own, in the timelines it writes to. *)
Lemma post_tweet_touch t user text r :
  counter r < int64_max →
  let r' := (post_tweet sscan_iter self t user text r).2 in
  ∀ k m s, zset_at r' k !! m = Some s →
    zset_at r k !! m = Some s
    ∨ (m = Py.str (counter r + 1) ∧ s = ts_ms t
       ∧ k ∈ _timeline_key <$> fanout_targets sscan_iter user r).
Proof.
  intros Hmax. cbv zeta. rewrite post_tweet_exec by done. cbn [snd].
  set (id := counter r + 1).
  destruct (exec_HSET (_tweet_key id) (tweet_fields t user text) (incremented r))
    as (_ & _ & Hz0 & _).
  set (r0 := (exec (HSET _ _) _).1) in *.
  destruct (execute_write self (_timeline_key user) (Py.str id) (ts_ms t) r0)
    as (_ & _ & _ & Hz1).
  set (r1 := (execute (ZADD _ _ _ :: _) r0).1) in *.
  intros k m s Hk. unfold fanout_targets. rewrite fmap_cons.
  apply execute_fanout_touch in Hk as [Hk|(-> & -> & Hin)].
  2: { right. split_and!; [done..|]. by apply list_elem_of_further. }
  rewrite Hz1 in Hk. unfold zset_at in Hk at 1 2. rewrite Hz0 in Hk.
  fold (zset_at r (_timeline_key user)) in Hk. fold (zset_at r k) in Hk.
  case_decide as Hkey; [subst k|by left].
  apply deliver_lookup_insert in Hk.
  destruct (decide (Py.str id = m)) as [<-|Hne].
  - rewrite lookup_insert_eq in Hk. injection Hk as <-.
    right. split_and!; [done..|]. apply list_elem_of_here.
  - rewrite lookup_insert_ne in Hk by done. by left.
Qed.

Lemma tweets_ok_empty : tweets_ok Redis.empty.
Proof.
  split.
  - done.
  - intros k Hk. by destruct Hk.
  - intros id. unfold counter. simpl. rewrite lookup_empty. simpl. lia.
  - intros k m s. unfold zset_at. simpl. by rewrite lookup_empty.
Qed.

Lemma post_tweet_tweets_ok t user text r :
  tweets_ok r → tweets_ok (post_tweet sscan_iter self t user text r).2.
Proof.
  intros [Hc Hb Hs Hm].
  destruct (decide (counter r < int64_max)) as [Hmax|Hmax].
  2: { rewrite post_tweet_overflow by done. by split. }
  destruct (post_tweet_frame sscan_iter self t user text r Hmax) as (Hc' & _ & Hh' & Hz').
  set (r' := (post_tweet _ _ _ _ _ _).2) in *.
  split.
  - lia.
  - intros k. rewrite Hh', Hc'. case_decide as Hk.
    + intros _. exists (counter r + 1). split; [done|lia].
    + intros (id & -> & ?)%Hb. exists id. split; [done|lia].
  - intros id Hid. rewrite Hh'. case_decide as Hk.
    + intros Hempty.
      assert ((list_to_map (tweet_fields t user text) ∪ hash_at r (_tweet_key id))
              !! "user_id" = Some (Py.str user)) as Hu
        by by apply lookup_union_Some_l.
      by rewrite Hempty in Hu.
    + apply Hs. rewrite Hc' in Hid.
      assert (id ≠ counter r + 1) by (intros ->; by destruct Hk). lia.
  - intros k m s Hk. rewrite Hc'. apply Hz' in Hk as [Hk| ->].
    + apply Hm in Hk as (id & -> & ?). exists id. split; [done|lia].
    + exists (counter r + 1). split; [done|lia].
Qed.

Lemma load_follows_csv_tweets_ok lines has_header r :
  tweets_ok r → tweets_ok (load_follows_csv lines has_header r).2.
Proof.
  intros [Hc Hb Hs Hm].
  destruct (load_follows_csv_frame lines has_header r) as (Hc' & Hh' & Hz').
  split; unfold counter, hash_at, zset_at in *; rewrite ?Hc', ?Hh', ?Hz'; done.
Qed.

Lemma run_tweets_ok calls r :
  tweets_ok r → tweets_ok (run sscan_iter self calls r).
Proof.
  revert r. induction calls as [|c calls IH]; intros r Hok; [done|].
  simpl. apply IH. destruct c; cbn [step].
  - by apply post_tweet_tweets_ok.
  - by apply load_follows_csv_tweets_ok.
Qed.

Lemma reachable_tweets_ok r : reachable sscan_iter self r → tweets_ok r.
Proof. intros [calls ->]. apply run_tweets_ok, tweets_ok_empty. Qed.

(** A tweet whose id was handed out is not written again. *)
Lemma hash_at_step c r id :
  id ≤ counter r →
  hash_at (step sscan_iter self c r).2 (_tweet_key id) = hash_at r (_tweet_key id).
Proof.
  intros Hid. destruct c as [t user text|lines has_header]; cbn [step].
  - destruct (decide (counter r < int64_max)) as [Hmax|Hmax].
    + destruct (post_tweet_frame sscan_iter self t user text r Hmax) as (_ & _ & -> & _).
      rewrite decide_False; [done|]. intros Heq%tweet_key_inj. lia.
    + by rewrite post_tweet_overflow.
  - destruct (load_follows_csv_frame lines has_header r) as (_ & Hh & _).
    unfold hash_at. by rewrite Hh.
Qed.

Lemma hash_at_run calls r id :
  id ≤ counter r →
  hash_at (run sscan_iter self calls r) (_tweet_key id) = hash_at r (_tweet_key id).
Proof.
  revert r. induction calls as [|c calls IH]; intros r Hid; [done|].
  simpl. rewrite IH.
  - by apply hash_at_step.
  - etrans; [done|apply counter_step].
Qed.

End linked.

Section timelines.
Context (sscan_iter : gset string → list string).
Context (sscan_iter_spec : ∀ (s : gset string) x, x ∈ sscan_iter s ↔ x ∈ s).
Context (self : api).

Lemma timelines_ok_empty : timelines_ok Redis.empty.
Proof. intros k m s. unfold zset_at. simpl. by rewrite lookup_empty. Qed.

Lemma post_tweet_timelines_ok t user text r :
  store_ok r → tweets_ok r → timelines_ok r →
  timelines_ok (post_tweet sscan_iter self t user text r).2.
Proof.
  intros Hok Htw Hr.
  destruct (decide (counter r < int64_max)) as [Hmax|Hmax].
  2: { by rewrite post_tweet_overflow. }
  destruct (post_tweet_frame sscan_iter self t user text r Hmax) as (_ & Hs' & Hh' & _).
  pose proof (post_tweet_touch sscan_iter self t user text r Hmax) as Htouch.
  cbv zeta in Htouch.
  set (r' := (post_tweet _ _ _ _ _ _).2) in *.
  assert (∀ e, edge_stored r' e ↔ edge_stored r e) as Hedge.
  { intros e. unfold edge_stored, set_at. by rewrite Hs'. }
  intros k m s Hk. apply Htouch in Hk as [Hk|(-> & -> & Hin)].
  - destruct (Hr k m s Hk) as (u & id & a & -> & -> & Hu & Ha).
    exists u, id, a. split_and!; [done..| |].
    + destruct (members_below r Htw _ _ _ Hk) as (id' & Heq%(inj Py.str) & Hid').
      subst id'. rewrite Hh', decide_False; [done|].
      intros Heq%tweet_key_inj. lia.
    + destruct Ha as [->|Ha]; [by left|right]. by apply Hedge.
  - apply list_elem_of_fmap in Hin as (u & -> & Hu).
    exists u, (counter r + 1), user. split_and!; [done..| |].
    + rewrite Hh', decide_True by done. by apply lookup_union_Some_l.
    + apply (elem_of_fanout_targets sscan_iter sscan_iter_spec) in Hu
        as [->|(m & Hm & Hint)]; [by left|right].
      apply Hedge. unfold edge_stored. cbn [fst snd].
      destruct (ok_followers r Hok m (ok_edges r Hok _ _ Hm)) as [f ->].
      rewrite int_str in Hint. by injection Hint as ->.
Qed.

Lemma load_follows_csv_timelines_ok lines has_header r :
  timelines_ok r → timelines_ok (load_follows_csv lines has_header r).2.
Proof.
  intros Hr. destruct (load_follows_csv_frame lines has_header r) as (_ & Hh & Hz).
  destruct (load_follows_csv_store lines has_header r) as [es Hes].
  intros k m s Hk. unfold zset_at in Hk. rewrite Hz in Hk.
  destruct (Hr k m s Hk) as (u & id & a & -> & -> & Hu & Ha).
  exists u, id, a. split_and!; [done..| |].
  - unfold hash_at. by rewrite Hh.
  - destruct Ha as [->|Ha]; [by left|right].
    rewrite Hes. apply edge_stored_execute_edges. by left.
Qed.

Lemma run_linked calls r :
  store_ok r → tweets_ok r → timelines_ok r →
  timelines_ok (run sscan_iter self calls r).
Proof.
  revert r. induction calls as [|c calls IH]; intros r Hok Htw Hr; [done|].
  simpl. apply IH.
  - by apply step_store_ok.
  - destruct c; cbn [step];
      [by apply post_tweet_tweets_ok|by apply load_follows_csv_tweets_ok].
  - destruct c; cbn [step];
      [by apply post_tweet_timelines_ok|by apply load_follows_csv_timelines_ok].
Qed.

Lemma reachable_timelines_ok r : reachable sscan_iter self r → timelines_ok r.
Proof.
  intros [calls ->].
  apply run_linked; [apply store_ok_empty|apply tweets_ok_empty|apply timelines_ok_empty].
Qed.

(** X11: in a store reached from the empty one, every tweet that
    [home_timeline] returns for a user was posted by that user or by
    somebody the user follows. *)
Theorem home_timeline_shows_followed_authors r user out tw :
  reachable sscan_iter self r →
  get_home_timeline user r = Return out →
  tw ∈ out →
  user_id tw = user ∨ edge_stored r (user, user_id tw).
Proof.
  intros Hreach Hout Htw.
  pose proof (reachable_store_ok _ _ _ Hreach) as Hok.
  pose proof (reachable_timelines_ok _ Hreach) as Hlinked.
  rewrite get_home_timeline_ok in Hout by done. injection Hout as <-.
  apply list_elem_of_omap in Htw as (m & Hm & Hres).
  apply list_elem_of_fmap in Hm as ([m' s] & -> & Hin%elem_of_top10).
  cbn [fst] in Hres.
  destruct (Hlinked _ _ _ Hin) as (u & id & a & Hu%timeline_key_inj & -> & Ha & Hfollow).
  subst u. rewrite resolve_str in Hres. cbv zeta in Hres.
  case_decide; [done|]. injection Hres as <-. simpl.
  rewrite Ha. simpl. by rewrite int_str.
Qed.

End timelines.

Section tweets.
Context (sscan_iter : gset string → list string).
Context (self : api).

Lemma resolve_members r (ms : list string) :
  tweets_ok r →
  (∀ m, m ∈ ms → ∃ id, m = Py.str id ∧ 1 ≤ id ≤ counter r) →
  Py.str ∘ tweet_id <$> omap (resolve r) ms = ms.
Proof.
  intros Htw. induction ms as [|m ms IH]; intros Hms; [done|].
  destruct (Hms m) as (id & -> & Hid); [left|].
  rewrite omap_cons_match, resolve_str. cbv zeta.
  rewrite decide_False by by apply tweets_stored.
  rewrite fmap_cons. simpl. f_equal. apply IH. intros m' Hm'. apply Hms. by right.
Qed.

(** X12: in a store reached from the empty one, [home_timeline] returns one
    tweet for each of the ten highest-ranked entries of the user's timeline
    (for every entry when there are fewer), in their order: no entry lacks
    its tweet, and no tweet is listed twice. *)
Theorem home_timeline_lists_ten_highest r user :
  reachable sscan_iter self r →
  ∃ out,
    get_home_timeline user r = Return out ∧
    Py.str ∘ tweet_id <$> out = (top10 (zset_at r (_timeline_key user))).*1 ∧
    length out = (10 `min` size (zset_at r (_timeline_key user)))%nat ∧
    NoDup (tweet_id <$> out).
Proof.
  intros Hreach.
  pose proof (reachable_store_ok _ _ _ Hreach) as Hok.
  pose proof (reachable_tweets_ok _ _ _ Hreach) as Htw.
  set (z := zset_at r (_timeline_key user)).
  eexists. split; [by apply get_home_timeline_ok|]. fold z.
  assert (Py.str ∘ tweet_id <$> omap (resolve r) (top10 z).*1 = (top10 z).*1) as Hids.
  { apply resolve_members; [done|].
    intros m ([m' s] & -> & Hin%elem_of_top10)%list_elem_of_fmap.
    by eapply members_below. }
  split_and!; [done| |].
  - apply (f_equal length) in Hids. rewrite !length_fmap in Hids. rewrite Hids.
    unfold top10. by rewrite length_take, length_reverse, zrange_all_length.
  - apply (NoDup_fmap_1 Py.str). rewrite <- list_fmap_compose, Hids.
    unfold top10. rewrite fmap_take, fmap_reverse.
    eapply sublist_NoDup; [|apply sublist_take].
    rewrite reverse_Permutation. apply zrange_all_NoDup.
Qed.

Lemma run_cons c calls r :
  run sscan_iter self (c :: calls) r
  = run sscan_iter self calls (step sscan_iter self c r).2.
Proof. reflexivity. Qed.

Lemma posted_ids_seqZ calls r :
  posted_ids sscan_iter self calls r
  = seqZ (counter r + 1) (counter (run sscan_iter self calls r) - counter r).
Proof.
  revert r. induction calls as [|c calls IH]; intros r.
  { simpl. by rewrite Z.sub_diag. }
  rewrite posted_ids_cons, run_cons.
  pose proof (counter_run sscan_iter self calls (step sscan_iter self c r).2) as Hle.
  destruct c as [t user text|lines has_header]; cbn [step] in *.
  - destruct (decide (counter r < int64_max)) as [Hmax|Hmax].
    + pose proof (post_tweet_frame sscan_iter self t user text r Hmax) as (Hc & _).
      pose proof (post_tweet_exec sscan_iter self t user text r Hmax) as Hexec.
      specialize (IH (post_tweet sscan_iter self t user text r).2).
      destruct (post_tweet sscan_iter self t user text r) as [o r'].
      injection Hexec as -> _. cbn [snd] in *.
      rewrite IH, Hc. rewrite Hc in Hle.
      rewrite (seqZ_cons (counter r + 1)) by lia. do 2 f_equal; lia.
    + rewrite post_tweet_overflow in * by done. apply IH.
  - destruct (load_follows_csv_frame lines has_header r) as (Hc & _).
    specialize (IH (load_follows_csv lines has_header r).2).
    destruct (load_follows_csv lines has_header r) as [[n|e] r']; cbn [snd] in *.
    all: rewrite IH;
      assert (counter r' = counter r) as -> by (unfold counter; by rewrite Hc); done.
Qed.

(** X13: the ids that the posts of a history return, from the empty store
    on, are 1, 2, 3, ... without a gap, and [next_tweet_id] holds their
    number. *)
Theorem ids_count_up_from_one calls :
  posted_ids sscan_iter self calls Redis.empty
  = seqZ 1 (counter (run sscan_iter self calls Redis.empty)) ∧
  counter (run sscan_iter self calls Redis.empty)
  = Z.of_nat (length (posted_ids sscan_iter self calls Redis.empty)).
Proof.
  pose proof (posted_ids_seqZ calls Redis.empty) as Hids.
  pose proof (counter_run sscan_iter self calls Redis.empty) as Hle.
  change (counter Redis.empty) with 0 in *.
  rewrite Z.sub_0_r in Hids. split; [done|].
  rewrite Hids, length_seqZ. lia.
Qed.

(** X14: a tweet, once posted, is stored for good: after any further
    history its record holds exactly the three fields that the post wrote,
    and it reads back as the tweet that was posted. *)
Theorem posted_tweet_is_kept t user text r calls :
  reachable sscan_iter self r →
  counter r < int64_max →
  let id := counter r + 1 in
  let r' := run sscan_iter self calls (post_tweet sscan_iter self t user text r).2 in
  hash_at r' (_tweet_key id) = list_to_map (tweet_fields t user text) ∧
  resolve r' (Py.str id) = Some (mkTweet id user (ts_str t) text).
Proof.
  intros Htw%reachable_tweets_ok Hmax. cbv zeta.
  destruct (post_tweet_frame sscan_iter self t user text r Hmax) as (Hc & _ & Hh & _).
  set (r1 := (post_tweet _ _ _ _ _ _).2) in *.
  assert (hash_at (run sscan_iter self calls r1) (_tweet_key (counter r + 1))
          = list_to_map (tweet_fields t user text)) as Hhash.
  { rewrite hash_at_run by lia. rewrite Hh, decide_True by done.
    destruct (decide (hash_at r (_tweet_key (counter r + 1)) = ∅)) as [->|Hne].
    - apply (right_id_L ∅ (∪)).
    - apply (tweets_below r Htw) in Hne as (id & Hid%tweet_key_inj & ?). lia. }
  split; [done|].
  rewrite resolve_str. cbv zeta. rewrite Hhash.
  rewrite decide_False.
  2: { intros Hempty. apply (f_equal (.!! "user_id")) in Hempty. done. }
  assert (list_to_map (tweet_fields t user text) !! "user_id" = Some (Py.str user))
    as -> by done.
  assert (list_to_map (tweet_fields t user text) !! "tweet_ts" = Some (ts_str t))
    as -> by done.
  assert (list_to_map (tweet_fields t user text) !! "tweet_text" = Some text)
    as -> by done.
  simpl. by rewrite int_str.
Qed.

Lemma uncapped_step c r key m s :
  timeline_max_size self = None → tweets_ok r →
  zset_at r key !! m = Some s →
  zset_at (step sscan_iter self c r).2 key !! m = Some s.
Proof.
  intros Hcap Htw Hm. destruct c as [t user text|lines has_header]; cbn [step].
  - destruct (decide (counter r < int64_max)) as [Hmax|Hmax].
    2: { by rewrite post_tweet_overflow. }
    destruct (post_tweet_spec sscan_iter self t user text r)
      as (r' & -> & _ & _ & _ & Hz); [|done|].
    { intros cap. by rewrite Hcap. }
    cbn [snd]. rewrite Hz. case_decide; [|done].
    unfold deliver. rewrite Hcap.
    destruct (members_below r Htw _ _ _ Hm) as (id & -> & Hid).
    rewrite lookup_insert_ne; [done|]. intros Heq%(inj Py.str). lia.
  - destruct (load_follows_csv_frame lines has_header r) as (_ & _ & Hz).
    unfold zset_at. by rewrite Hz.
Qed.

(** X15: without a cap nothing leaves a timeline: an entry that a reached
    store holds is there, under the same score, after any further
    history. *)
Theorem uncapped_timelines_only_grow r calls key m s :
  timeline_max_size self = None →
  reachable sscan_iter self r →
  zset_at r key !! m = Some s →
  zset_at (run sscan_iter self calls r) key !! m = Some s.
Proof.
  intros Hcap Htw%reachable_tweets_ok. revert r Htw.
  induction calls as [|c calls IH]; intros r Htw Hm; [done|].
  simpl. apply IH.
  - destruct c; cbn [step];
      [by apply post_tweet_tweets_ok|by apply load_follows_csv_tweets_ok].
  - by apply uncapped_step.
Qed.

End tweets.

(** ** The cap and the scan *)

Lemma unslice_single {A} (x : A) (cap : Z) :
  cap ≤ 0 → unslice [x] 0 (- cap - 1) = [].
Proof.
  intros Hcap. unfold unslice, rank_range. simpl length.
  case_cmp; simpl; try lia; try done.
  all: match goal with
       | |- context [Z.to_nat ?e] => replace (Z.to_nat e) with 1%nat by lia
       end; done.
Qed.

Lemma zrange_all_singleton m s : zrange_all ({[m := s]} : gmap string Z) = [(m, s)].
Proof. unfold zrange_all. by rewrite map_to_list_singleton. Qed.

Section cap.
Context (sscan_iter : gset string → list string).
Context (self : api).

Lemma deliver_empty cap m s :
  timeline_max_size self = Some cap → cap ≤ 0 → deliver self m s ∅ = ∅.
Proof.
  intros Hcap Hle. unfold deliver, zremrangebyrank_val. rewrite Hcap.
  rewrite insert_empty, zrange_all_singleton. by rewrite unslice_single.
Qed.

Lemma execute_fanout_all (P : gmap string Z → Prop) m s ids r :
  (∀ z, P z → P (deliver self m s z)) →
  (∀ k, P (zset_at r k)) →
  ∀ k, P (zset_at (execute (fanout_cmds self m s ids) r).1 k).
Proof.
  intros HP. revert r. induction ids as [|f ids IH]; intros r Hr; [done|].
  unfold fanout_cmds. rewrite bind_cons. fold (fanout_cmds self m s ids).
  rewrite execute_app. cbn [fst]. apply IH.
  destruct (execute_write self (_timeline_key f) m s r) as (_ & _ & _ & Hz).
  intros k. rewrite Hz. case_decide; auto.
Qed.

Lemma step_timelines_empty cap c r :
  timeline_max_size self = Some cap → cap ≤ 0 →
  (∀ key, zset_at r key = ∅) →
  ∀ key, zset_at (step sscan_iter self c r).2 key = ∅.
Proof.
  intros Hcap Hle Hr. destruct c as [t user text|lines has_header]; cbn [step].
  - destruct (decide (counter r < int64_max)) as [Hmax|Hmax].
    2: { by rewrite post_tweet_overflow. }
    rewrite post_tweet_exec by done. cbn [snd].
    set (id := counter r + 1).
    destruct (exec_HSET (_tweet_key id) (tweet_fields t user text) (incremented r))
      as (_ & _ & Hz0 & _).
    set (r0 := (exec (HSET _ _) _).1) in *.
    destruct (execute_write self (_timeline_key user) (Py.str id) (ts_ms t) r0)
      as (_ & _ & _ & Hz1).
    set (r1 := (execute (ZADD _ _ _ :: _) r0).1) in *.
    assert (∀ k, zset_at r0 k = ∅) as Hr0.
    { intros k. unfold zset_at. rewrite Hz0. apply Hr. }
    apply (execute_fanout_all (λ z, z = ∅)).
    + intros z ->. by eapply deliver_empty.
    + intros k. rewrite Hz1, !Hr0. case_decide; [by eapply deliver_empty|done].
  - destruct (load_follows_csv_frame lines has_header r) as (_ & _ & Hz).
    intros key. unfold zset_at. rewrite Hz. apply Hr.
Qed.

(** X16: a cap of zero or below does not switch the trim off: it keeps
    every timeline empty.  After any history from the empty store, no
    sorted set holds an entry and [home_timeline] returns the empty
    sequence for every user. *)
Theorem nonpositive_cap_keeps_timelines_empty cap calls :
  timeline_max_size self = Some cap → cap ≤ 0 →
  (∀ key, zset_at (run sscan_iter self calls Redis.empty) key = ∅) ∧
  ∀ user, get_home_timeline user (run sscan_iter self calls Redis.empty) = Return [].
Proof.
  intros Hcap Hle.
  assert (∀ r, (∀ key, zset_at r key = ∅) →
               ∀ key, zset_at (run sscan_iter self calls r) key = ∅) as Hrun.
  { induction calls as [|c calls IH]; intros r Hr; [done|].
    simpl. apply IH. by eapply step_timelines_empty. }
  assert (∀ key, zset_at (run sscan_iter self calls Redis.empty) key = ∅) as Hempty.
  { apply Hrun. intros key. unfold zset_at. simpl. by rewrite lookup_empty. }
  split; [done|]. intros user. unfold get_home_timeline.
  by rewrite zrevrange_top10, Hempty.
Qed.

(** *** The keyspace after a write *)

Lemma zsets_execute_write key m s r k :
  zsets (execute (ZADD key m s :: trim self key) r).1 !! k =
  if decide (k = key) then stored (deliver self m s (zset_at r key))
  else zsets r !! k.
Proof.
  unfold trim, deliver, stored. destruct (timeline_max_size self) as [size|].
  - rewrite !execute_cons. cbn [execute fst]. simpl.
    unfold zset_at at 1. simpl. rewrite lookup_insert_eq. simpl.
    unfold put. fold (zset_at r key).
    destruct (decide (zremrangebyrank_val (<[m:=s]> (zset_at r key)) 0 (- size - 1) = ∅))
      as [Hz|Hz].
    + destruct (decide (k = key)) as [->|Hne].
      * by rewrite lookup_delete_eq.
      * by rewrite lookup_delete_ne, lookup_insert_ne.
    + destruct (decide (k = key)) as [->|Hne].
      * by rewrite lookup_insert_eq.
      * by rewrite !lookup_insert_ne.
  - rewrite execute_cons. cbn [execute fst]. simpl. fold (zset_at r key).
    destruct (decide (k = key)) as [->|Hne].
    + rewrite lookup_insert_eq. rewrite decide_False; [done|]. apply insert_non_empty.
    + by rewrite lookup_insert_ne.
Qed.

Lemma zset_at_stored z : default ∅ (stored z) = z.
Proof. unfold stored. by case_decide. Qed.

Lemma zsets_execute_fanout m s ids r k :
  cap_ok self →
  zsets (execute (fanout_cmds self m s ids) r).1 !! k =
  if decide (k ∈ _timeline_key <$> ids) then stored (deliver self m s (zset_at r k))
  else zsets r !! k.
Proof.
  intros Hcap. revert r. induction ids as [|f ids IH]; intros r.
  { destruct (decide (k ∈ _timeline_key <$> [])) as [Hin|_]; [|done].
    by apply elem_of_nil in Hin. }
  unfold fanout_cmds. rewrite bind_cons. fold (fanout_cmds self m s ids).
  rewrite execute_app. cbn [fst]. rewrite IH, fmap_cons.
  destruct (execute_write self (_timeline_key f) m s r) as (_ & _ & _ & Hz).
  rewrite Hz, zsets_execute_write.
  destruct (decide (k = _timeline_key f)) as [->|Hne].
  - rewrite (decide_True (P := _ ∈ _ :: _)) by apply list_elem_of_here.
    case_decide; [|done]. by rewrite deliver_idemp.
  - destruct (decide (k ∈ _timeline_key <$> ids)) as [Hin|Hnin].
    + by rewrite decide_True by by apply list_elem_of_further.
    + rewrite decide_False; [done|]. rewrite elem_of_cons. by intros [?|?].
Qed.

Lemma execute_fanout_same m s ids1 ids2 r :
  cap_ok self → (∀ f, f ∈ ids1 ↔ f ∈ ids2) →
  (execute (fanout_cmds self m s ids1) r).1 = (execute (fanout_cmds self m s ids2) r).1.
Proof.
  intros Hcap Hids.
  destruct (execute_fanout self m s ids1 r Hcap) as (Hc1 & Hh1 & Hs1 & _).
  destruct (execute_fanout self m s ids2 r Hcap) as (Hc2 & Hh2 & Hs2 & _).
  apply db_eq; [congruence..|].
  apply map_eq. intros k. rewrite !zsets_execute_fanout by done.
  destruct (decide (k ∈ _timeline_key <$> ids1)) as [Hin|Hnin].
  - rewrite decide_True; [done|].
    apply list_elem_of_fmap in Hin as (f & -> & Hf). apply list_elem_of_fmap.
    exists f. split; [done|]. by apply Hids.
  - rewrite decide_False; [done|]. intros Hin. apply Hnin.
    apply list_elem_of_fmap in Hin as (f & -> & Hf). apply list_elem_of_fmap.
    exists f. split; [done|]. by apply Hids.
Qed.

End cap.

(** X17: what a post returns and the store it leaves do not depend on the
    order in which the scan yields the followers, nor on how often it
    yields one of them (the cap, when there is one, being a size). *)
Theorem post_tweet_independent_of_scan
    (scan1 scan2 : gset string → list string) self t user text r :
  cap_ok self →
  (∀ (s : gset string) x, x ∈ scan1 s ↔ x ∈ s) →
  (∀ (s : gset string) x, x ∈ scan2 s ↔ x ∈ s) →
  post_tweet scan1 self t user text r = post_tweet scan2 self t user text r.
Proof.
  intros Hcap H1 H2.
  destruct (decide (counter r < int64_max)) as [Hmax|Hmax].
  2: { by rewrite !post_tweet_overflow. }
  rewrite !post_tweet_exec by done. f_equal.
  apply execute_fanout_same; [done|]. intros f.
  rewrite !list_elem_of_omap. by setoid_rewrite H1; setoid_rewrite H2.
Qed.

Lemma post_tweet_independent_of_scan_witness :
  post_tweet elements (Api (Some 5)) (Now 1000 "t") 2 "x" scenario_store
  = post_tweet (λ s, reverse (elements s) ++ elements s) (Api (Some 5))
               (Now 1000 "t") 2 "x" scenario_store.
Proof.
  apply post_tweet_independent_of_scan.
  - intros size [= <-]. lia.
  - intros s x. apply elem_of_elements.
  - intros s x. rewrite elem_of_app, elem_of_reverse, !elem_of_elements. tauto.
Defined.

Section trim.
Context (sscan_iter : gset string → list string).
Context (sscan_iter_spec : ∀ (s : gset string) x, x ∈ sscan_iter s ↔ x ∈ s).
Context (self : api).

(** X18: under a cap K, the timeline of the author and of each follower
    (a user whose id a member of the follower set, a text within the digit
    limit, is to [int])
    holds after a post the K highest-ranked of its old entries and the new
    one.  An entry is dropped only from a timeline that is then full, and
    every entry that stays ranks at least as high. *)
Theorem trim_drops_lowest_ranked cap t user text r u :
  timeline_max_size self = Some cap → 0 ≤ cap →
  counter r < int64_max →
  (u = user
   ∨ ∃ m, m ∈ set_at r (_followers_key user) ∧ within_digit_limit m
          ∧ Py.int m = Some u) →
  let z := <[Py.str (counter r + 1) := ts_ms t]> (zset_at r (_timeline_key u)) in
  let z' := zset_at (post_tweet sscan_iter self t user text r).2 (_timeline_key u) in
  z' = top (Z.to_nat cap) z ∧
  ∀ m s, z !! m = Some s →
    z' !! m = Some s
    ∨ (z' !! m = None ∧ size z' = Z.to_nat cap
       ∧ ∀ m' s', z' !! m' = Some s' → zle (m, s) (m', s')).
Proof.
  intros Hcap Hpos Hmax Hu. cbv zeta.
  destruct (post_tweet_spec sscan_iter self t user text r)
    as (r' & -> & _ & _ & _ & Hz); [|done|].
  { intros cap' Hcap'. congruence. }
  cbn [snd]. rewrite Hz, decide_True.
  2: { apply timeline_key_elem_of.
       apply (elem_of_fanout_targets sscan_iter sscan_iter_spec).
       destruct Hu as [->|(m & Hm & _ & Hint)]; [by left|right; eauto]. }
  unfold deliver. rewrite Hcap, zremrangebyrank_val_top by done.
  split; [done|]. intros m s Hm.
  destruct (top (Z.to_nat cap) _ !! m) as [s0|] eqn:Htop.
  - left. apply top_lookup_Some in Htop. congruence.
  - right. split_and!; [done| |].
    + by eapply size_top_dropped.
    + intros m' s' Hm'. by eapply top_dropped_below.
Qed.

End trim.

(** ** The order of the home timeline *)

Lemma resolve_precedes r user (l : list (string * Z)) :
  StronglySorted (flip zle) l → NoDup l.*1 →
  (∀ m s, (m, s) ∈ l →
          zset_at r (_timeline_key user) !! m = Some s ∧ ∃ id, m = Py.str id) →
  StronglySorted (precedes r user) (omap (resolve r) l.*1).
Proof.
  induction 1 as [|[m s] l Hsorted IH Hhd]; intros Hnodup Hl; [constructor|].
  rewrite fmap_cons in Hnodup. apply NoDup_cons in Hnodup as [Hm Hnodup].
  assert (StronglySorted (precedes r user) (omap (resolve r) l.*1)) as Htl.
  { apply IH; [done|]. intros m' s' Hin. apply Hl. by right. }
  destruct (Hl m s) as [Hz [id ->]]; [left|].
  rewrite fmap_cons, omap_cons_match. cbn [fst].
  destruct (resolve r (Py.str id)) as [tw|] eqn:Hres; [|done].
  constructor; [done|]. apply Forall_forall. intros tw' Htw'.
  apply list_elem_of_omap in Htw' as (m' & Hm' & Hres').
  apply list_elem_of_fmap in Hm' as ([m'' s'] & -> & Hin). cbn [fst] in *.
  destruct (Hl m'' s') as [Hz' [id' ->]]; [by right|].
  apply resolve_tweet_id in Hres, Hres'.
  exists s, s'. unfold timeline_score. rewrite Hres, Hres'. split_and!; [done..|].
  rewrite Forall_forall in Hhd. destruct (Hhd _ Hin) as [Hlt|[Heq Hle]]; simpl in *.
  - by left.
  - right. split_and!; [done..|]. intros ->. apply Hm.
    apply list_elem_of_fmap. by exists (Py.str id', s').
Qed.

Section order.
Context (sscan_iter : gset string → list string).
Context (self : api).

(** X22: in a store reached from the empty one, [home_timeline] lists the
    tweets by descending score and, among tweets of one score (posts of
    the same millisecond), by the decimal string of the id, the greater
    string first: at equal scores tweet 9 comes before tweet 10. *)
Theorem home_timeline_orders_ties_by_id_string r user out :
  reachable sscan_iter self r →
  get_home_timeline user r = Return out →
  StronglySorted (precedes r user) out.
Proof.
  intros Hok%reachable_store_ok Hout.
  rewrite get_home_timeline_ok in Hout by done. injection Hout as <-.
  apply resolve_precedes.
  - apply top10_sorted.
  - unfold top10. rewrite fmap_take, fmap_reverse.
    eapply sublist_NoDup; [|apply sublist_take].
    rewrite reverse_Permutation. apply zrange_all_NoDup.
  - intros m s Hin%elem_of_top10. split; [done|]. by eapply ok_members.
Qed.

End order.

Lemma home_timeline_orders_ties_by_id_string_witness :
  StronglySorted (precedes tie_store 2) [mkTweet 2 2 "t" "b"; mkTweet 1 2 "t" "a"].
Proof.
  apply (home_timeline_orders_ties_by_id_string elements (Api None) tie_store 2).
  - by exists [PostTweet (Now 1000 "t") 2 "a"; PostTweet (Now 1000 "t") 2 "b"].
  - vm_compute. reflexivity.
Defined.

(** ** Keys, the range probe and a timeline that holds no tweet id *)

(** X19: the keys of the schema never collide: each of the four builders
    gives distinct keys to distinct ids, and a tweet key, a follower-set
    key, a following-set key, a timeline key and the two fixed keys are
    pairwise distinct, whatever the ids. *)
Theorem keys_never_collide (a b c d : Z) :
  NoDup [_tweet_key a; _followers_key b; _following_key c; _timeline_key d;
         "all_followers"; "next_tweet_id"] ∧
  Inj (=) (=) _tweet_key ∧ Inj (=) (=) _followers_key ∧
  Inj (=) (=) _following_key ∧ Inj (=) (=) _timeline_key.
Proof.
  split_and!.
  - apply keys_disjoint.
  - apply tweet_key_inj.
  - apply followers_key_inj.
  - apply following_key_inj.
  - apply timeline_key_inj.
Qed.

(** X20: the range probe of the MySQL sampler draws a number between the
    least and the greatest follower id and returns the least follower id
    that is not below the draw: the draw itself when it is a follower id,
    otherwise the next one above it. *)
Theorem probe_returns_least_id_from_draw pick FOLLOWS f :
  TwitterMySQLAPI.get_random_follower_id pick FOLLOWS = Some f →
  ∃ min_id max_id,
    TwitterMySQLAPI.minimum FOLLOWS.*1 = Some min_id ∧
    TwitterMySQLAPI.maximum FOLLOWS.*1 = Some max_id ∧
    let rand_id := TwitterMySQLAPI.randint pick min_id max_id in
    min_id ≤ rand_id ≤ max_id ∧
    f ∈ FOLLOWS.*1 ∧ rand_id ≤ f ∧
    (∀ g, g ∈ FOLLOWS.*1 → rand_id ≤ g → f ≤ g) ∧
    (rand_id ∈ FOLLOWS.*1 → f = rand_id).
Proof.
  unfold TwitterMySQLAPI.get_random_follower_id.
  destruct (TwitterMySQLAPI.minimum FOLLOWS.*1) as [lo|] eqn:Hlo; [|done].
  destruct (TwitterMySQLAPI.maximum FOLLOWS.*1) as [hi|] eqn:Hhi; [|done].
  intros Hf. exists lo, hi. split; [done|]. split; [done|]. cbv zeta.
  pose proof Hlo as [Hlo_in Hlo_le]%minimum_Some.
  pose proof Hhi as [Hhi_in Hhi_le]%maximum_Some.
  pose proof (randint_range pick lo hi (Hlo_le _ Hhi_in)) as Hrand.
  apply minimum_Some in Hf as [Hf_in Hf_le].
  apply list_elem_of_filter in Hf_in as [Hge Hf_in].
  assert (∀ g, g ∈ FOLLOWS.*1 → TwitterMySQLAPI.randint pick lo hi ≤ g → f ≤ g) as Hleast.
  { intros g Hg Hle. apply Hf_le. by apply list_elem_of_filter. }
  split; [lia|]. split; [done|]. split; [done|]. split; [done|].
  intros Hin. specialize (Hleast _ Hin). lia.
Qed.

Lemma probe_returns_least_id_from_draw_witness :
  ∃ min_id max_id,
    TwitterMySQLAPI.minimum [(1, 2); (10, 2); (5, 3)].*1 = Some min_id ∧
    TwitterMySQLAPI.maximum [(1, 2); (10, 2); (5, 3)].*1 = Some max_id ∧
    let rand_id := TwitterMySQLAPI.randint 7 min_id max_id in
    min_id ≤ rand_id ≤ max_id ∧
    10 ∈ [(1, 2); (10, 2); (5, 3)].*1 ∧ rand_id ≤ 10 ∧
    (∀ g, g ∈ [(1, 2); (10, 2); (5, 3)].*1 → rand_id ≤ g → 10 ≤ g) ∧
    (rand_id ∈ [(1, 2); (10, 2); (5, 3)].*1 → 10 = rand_id).
Proof.
  apply (probe_returns_least_id_from_draw 7 [(1, 2); (10, 2); (5, 3)] 10).
  reflexivity.
Defined.

(** X21: a member that is not an integer among the ten highest-ranked
    entries of a timeline makes [home_timeline] raise [ValueError]: the
    reader does not skip it, unlike the fan-out, which skips such a member
    of a follower set. *)
Theorem home_timeline_raises_on_non_integer_member user r m :
  m ∈ zrevrange r (_timeline_key user) 0 9 →
  Py.int m = None →
  get_home_timeline user r = Raise ValueError.
Proof.
  intros Hin Hm. unfold get_home_timeline.
  destruct (zrevrange r (_timeline_key user) 0 9) as [|tid tids] eqn:Hids.
  { by apply elem_of_nil in Hin. }
  rewrite (mapM_None_2 Py.int (tid :: tids)); [done|].
  apply Exists_exists. by exists m.
Qed.

Lemma home_timeline_raises_on_non_integer_member_witness :
  get_home_timeline 2 odd_timeline_store = Raise ValueError.
Proof.
  apply (home_timeline_raises_on_non_integer_member 2 odd_timeline_store
           (String "028" "7")).
  - vm_compute. left.
  - vm_compute. reflexivity.
Defined.

(** ** The properties above on concrete stores *)

Lemma elements_spec (s : gset string) x : x ∈ elements s ↔ x ∈ s.
Proof. apply elem_of_elements. Qed.

Lemma follower_store_reachable : reachable elements (Api None) follower_store.
Proof.
  by exists [LoadFollowsCsv ["1,2"] false; PostTweet (Now 1000 "t") 2 "x"].
Qed.

Lemma home_timeline_shows_followed_authors_witness :
  user_id (mkTweet 1 2 "t" "x") = 1
  ∨ edge_stored follower_store (1, user_id (mkTweet 1 2 "t" "x")).
Proof.
  apply (home_timeline_shows_followed_authors elements elements_spec (Api None)
           follower_store 1 [mkTweet 1 2 "t" "x"]).
  - apply follower_store_reachable.
  - vm_compute. reflexivity.
  - apply list_elem_of_here.
Defined.

Lemma home_timeline_lists_ten_highest_witness :
  ∃ out,
    get_home_timeline 1 follower_store = Return out ∧
    Py.str ∘ tweet_id <$> out = (top10 (zset_at follower_store (_timeline_key 1))).*1 ∧
    length out = (10 `min` size (zset_at follower_store (_timeline_key 1)))%nat ∧
    NoDup (tweet_id <$> out).
Proof.
  apply (home_timeline_lists_ten_highest elements (Api None) follower_store 1).
  apply follower_store_reachable.
Defined.

Lemma posted_tweet_is_kept_witness :
  hash_at (run elements (Api None) [PostTweet (Now 1001 "u") 3 "again"]
               (post_tweet elements (Api None) (Now 1000 "t") 2 "hello"
                           scenario_store).2)
          (_tweet_key (counter scenario_store + 1))
  = list_to_map (tweet_fields (Now 1000 "t") 2 "hello") ∧
  resolve (run elements (Api None) [PostTweet (Now 1001 "u") 3 "again"]
               (post_tweet elements (Api None) (Now 1000 "t") 2 "hello"
                           scenario_store).2)
          (Py.str (counter scenario_store + 1))
  = Some (mkTweet (counter scenario_store + 1) 2 (ts_str (Now 1000 "t")) "hello").
Proof.
  apply (posted_tweet_is_kept elements (Api None) (Now 1000 "t") 2 "hello"
           scenario_store [PostTweet (Now 1001 "u") 3 "again"]).
  - apply scenario_store_reachable.
  - rewrite scenario_store_counter. unfold int64_max. lia.
Defined.

Lemma uncapped_timelines_only_grow_witness :
  zset_at (run elements (Api None) [PostTweet (Now 5 "early") 2 "y"] follower_store)
          (_timeline_key 1) !! "1" = Some 1000.
Proof.
  apply (uncapped_timelines_only_grow elements (Api None) follower_store).
  - reflexivity.
  - apply follower_store_reachable.
  - vm_compute. reflexivity.
Defined.

Lemma trim_drops_lowest_ranked_witness :
  let z := <[Py.str (counter full_timeline_store + 1) := ts_ms (Now 1002 "t")]>
             (zset_at full_timeline_store (_timeline_key 1)) in
  let z' := zset_at (post_tweet elements (Api (Some 2)) (Now 1002 "t") 2 "c"
                                full_timeline_store).2 (_timeline_key 1) in
  z' = top (Z.to_nat 2) z ∧
  ∀ m s, z !! m = Some s →
    z' !! m = Some s
    ∨ (z' !! m = None ∧ size z' = Z.to_nat 2
       ∧ ∀ m' s', z' !! m' = Some s' → zle (m, s) (m', s')).
Proof.
  apply (trim_drops_lowest_ranked elements elements_spec (Api (Some 2)) 2
           (Now 1002 "t") 2 "c" full_timeline_store 1).
  - reflexivity.
  - lia.
  - vm_compute. reflexivity.
  - right. exists "1". split_and!.
    + vm_compute. reflexivity.
    + digit_limit.
    + reflexivity.
Defined.

(** On that store the trim does drop an entry: the timeline of user 1 held
    the tweets 1 and 2, and after the third post it holds 2 and 3. *)
Example full_timeline_store_drops :
  zset_at full_timeline_store (_timeline_key 1) = <["1" := 1000]> (<["2" := 1001]> ∅) ∧
  zset_at (post_tweet elements (Api (Some 2)) (Now 1002 "t") 2 "c"
                      full_timeline_store).2 (_timeline_key 1)
  = <["2" := 1001]> (<["3" := 1002]> ∅).
Proof. split; vm_compute; reflexivity. Qed.

Lemma nonpositive_cap_keeps_timelines_empty_witness :
  (∀ key, zset_at (run elements (Api (Some (-1))) capped_calls Redis.empty) key = ∅) ∧
  ∀ user, get_home_timeline user (run elements (Api (Some (-1))) capped_calls Redis.empty)
          = Return [].
Proof.
  apply (nonpositive_cap_keeps_timelines_empty elements (Api (Some (-1))) (-1)).
  - reflexivity.
  - lia.
Defined.
